(** * specificproxy: a shallow embedding of the rate limiter, the limiter
    store and the proxy dispatcher, with the properties of its specification.

    Sources embedded here:
    - [ratelimit/ratelimit.go]  (token bucket, fixed window, store),
    - the [config] package      (allowed interfaces and addresses),
    - the [http_server] package (handleListIPs, handleProxy,
      handleHTTPProxy, removeHopByHopHeaders).

    Conventions.  Go's [int], [int64] and [time.Duration] are 64-bit
    integers: they are modelled as [Z] with the wrap-around written out
    ([Go.wrap64]).  Go's [float64] is the primitive binary64 type [float],
    every operation rounded on its own, to nearest, ties to even.
    [time.Now()] is an explicit argument (a monotonic clock reading in
    nanoseconds).  Mutexes are left out: every function is modelled as the
    atomic step it is when the lock is held. *)

From Stdlib Require Import ZArith Lia Bool List String Ascii.
From Stdlib Require Import Uint63 Floats DecimalString DecimalZ.
From stdpp Require Import gmap strings list.

Local Open Scope Z_scope.

(** ** The Go runtime pieces the program uses *)

Module Go.

Definition MinInt64 : Z := - 2 ^ 63.
Definition MaxInt64 : Z := 2 ^ 63 - 1.

(** Arithmetic on [int64] wraps around silently. *)
Definition wrap64 (z : Z) : Z := (z + 2 ^ 63) mod 2 ^ 64 - 2 ^ 63.

Definition int64 (z : Z) : Prop := MinInt64 <= z <= MaxInt64.

(** [time.Duration] counts nanoseconds; [time.Time] is read through its
    monotonic clock. *)
Definition Duration := Z.
Definition Time := Z.

Definition Second : Duration := 1000000000.
Definition Minute : Duration := 60 * Second.

(** [t.Sub(u)]: the difference, saturated at the ends of [Duration]. *)
Definition Sub (t u : Time) : Duration :=
  if t - u <? MinInt64 then MinInt64
  else if MaxInt64 <? t - u then MaxInt64
  else t - u.

(** [float64(n)] for an [int] [n]: the nearest binary64 number, ties to
    even.  [of_uint63] converts the 63-bit magnitudes; [- 2 ^ 63] is the
    one [int64] whose magnitude does not fit. *)
Definition float64 (n : Z) : float :=
  if 0 <=? n then of_uint63 (Uint63.of_Z n)
  else if n =? MinInt64 then (- (of_uint63 (Uint63.of_Z (2 ^ 62)) * two))%float
  else (- of_uint63 (Uint63.of_Z (- n)))%float.

(** [d.Seconds()]:
<<
    sec := d / Second
    nsec := d % Second
    return float64(sec) + float64(nsec)/1e9
>>
    Go's integer division truncates toward zero. *)
Definition Seconds (d : Duration) : float :=
  (float64 (Z.quot d Second) + float64 (Z.rem d Second) / float64 1000000000)%float.

(** [%d] of [fmt.Sprintf]: decimal digits, a leading minus sign for a
    negative number. *)
Definition FormatInt (n : Z) : string := NilZero.string_of_int (Z.to_int n).

End Go.

(** ** Package ratelimit *)

Module ratelimit.

Definition DefaultTTL : Go.Duration := 5 * Go.Minute.

Definition Method := string.
Definition MethodTokenBucket : Method := "token_bucket".
Definition MethodFixedWindow : Method := "fixed_window".

Definition ResourceKind := string.
Definition ResourceKindDomainPath : ResourceKind := "domain_path".
Definition ResourceKindDomain : ResourceKind := "domain".

Record Resource := { Kind : ResourceKind }.

(** The rate limit directive of the [X-Rate-Limit] header. *)
Record Config := {
  Method_ : Method;
  Rate : Z;
  Period : Z;
  TTL : Z;
  Resource_ : Resource
}.

Definition GetTTL (c : Config) : Go.Duration :=
  if TTL c <=? 0 then DefaultTTL
  else Go.wrap64 (Go.wrap64 (TTL c) * Go.Second).

(** *** Token bucket *)

Record TokenBucket := {
  tokens : float;
  maxTokens : float;
  refillRate : float;
  lastRefill : Go.Time
}.

Definition NewTokenBucket (now : Go.Time) (rate periodSeconds : Z) : TokenBucket :=
  let maxTokens := Go.float64 rate in
  let refillRate := (Go.float64 rate / Go.float64 periodSeconds)%float in
  {| tokens := maxTokens;
     maxTokens := maxTokens;
     refillRate := refillRate;
     lastRefill := now |}.

(** The refill of [Allow]: tokens added for the elapsed time, capped.
    The product and the sum are rounded one after the other. *)
Definition refill (now : Go.Time) (tb : TokenBucket) : float :=
  let elapsed := Go.Seconds (Go.Sub now (lastRefill tb)) in
  let tokens := (tokens tb + elapsed * refillRate tb)%float in
  if (maxTokens tb <? tokens)%float then maxTokens tb else tokens.

Definition TokenBucket_Allow (now : Go.Time) (tb : TokenBucket) : bool * TokenBucket :=
  let tokens := refill now tb in
  if (1 <=? tokens)%float then
    (true, {| tokens := (tokens - 1)%float;
              maxTokens := maxTokens tb;
              refillRate := refillRate tb;
              lastRefill := now |})
  else
    (false, {| tokens := tokens;
               maxTokens := maxTokens tb;
               refillRate := refillRate tb;
               lastRefill := now |}).

(** *** Fixed window *)

Record FixedWindow := {
  count : Z;
  maxRequests : Z;
  windowStart : Go.Time;
  windowPeriod : Go.Duration
}.

Definition NewFixedWindow (now : Go.Time) (rate periodSeconds : Z) : FixedWindow :=
  {| count := 0;
     maxRequests := rate;
     windowStart := now;
     windowPeriod := Go.wrap64 (Go.wrap64 periodSeconds * Go.Second) |}.

(** The window check of [Allow]: a new window starts when the old one
    has run out. *)
Definition roll (now : Go.Time) (fw : FixedWindow) : FixedWindow :=
  if windowPeriod fw <=? Go.Sub now (windowStart fw) then
    {| count := 0;
       maxRequests := maxRequests fw;
       windowStart := now;
       windowPeriod := windowPeriod fw |}
  else fw.

Definition FixedWindow_Allow (now : Go.Time) (fw : FixedWindow) : bool * FixedWindow :=
  let fw := roll now fw in
  if count fw <? maxRequests fw then
    (true, {| count := Go.wrap64 (count fw + 1);
              maxRequests := maxRequests fw;
              windowStart := windowStart fw;
              windowPeriod := windowPeriod fw |})
  else (false, fw).

(** *** The Limiter interface *)

(** The two implementations of [Limiter]; a value of the interface is a
    pointer to one of them. *)
Inductive LimiterObj :=
| TB (tb : TokenBucket)
| FW (fw : FixedWindow).

Definition Allow (now : Go.Time) (o : LimiterObj) : bool * LimiterObj :=
  match o with
  | TB tb => let '(ok, tb') := TokenBucket_Allow now tb in (ok, TB tb')
  | FW fw => let '(ok, fw') := FixedWindow_Allow now fw in (ok, FW fw')
  end.

(** Calls of [Allow] one after the other, at the given clock readings. *)
Fixpoint TokenBucket_run (times : list Go.Time) (tb : TokenBucket)
  : list bool * TokenBucket :=
  match times with
  | [] => ([], tb)
  | now :: rest =>
      let '(ok, tb1) := TokenBucket_Allow now tb in
      let '(oks, tb2) := TokenBucket_run rest tb1 in
      (ok :: oks, tb2)
  end.

Fixpoint FixedWindow_run (times : list Go.Time) (fw : FixedWindow)
  : list bool * FixedWindow :=
  match times with
  | [] => ([], fw)
  | now :: rest =>
      let '(ok, fw1) := FixedWindow_Allow now fw in
      let '(oks, fw2) := FixedWindow_run rest fw1 in
      (ok :: oks, fw2)
  end.

(** *** The store *)

(** The heap of limiter objects: a [Limiter] is the address of its
    object, and two limiters are the same instance when the addresses are
    equal. *)
Abbreviation Limiter := nat (only parsing).
Abbreviation Heap := (list LimiterObj) (only parsing).

Record limiterEntry := {
  limiter : Limiter;
  lastUsed : Go.Time;
  ttl : Go.Duration
}.

Record Store := { limiters : gmap string limiterEntry }.

Definition NewStore : Store := {| limiters := ∅ |}.

Definition expired (now : Go.Time) (entry : limiterEntry) : bool :=
  ttl entry <? Go.Sub now (lastUsed entry).

(** [cleanup]: the loop over the map, deleting as it goes. *)
Definition cleanup (now : Go.Time) (s : Store) : Store :=
  {| limiters :=
       foldr (fun '(key, entry) m => if expired now entry then delete key m else m)
             (limiters s) (map_to_list (limiters s)) |}.

Definition buildKey (egressIP resourceKey : string) (cfg : Config) : string :=
  egressIP +:+ "|" +:+ resourceKey +:+ "|" +:+ Method_ cfg +:+ "|"
    +:+ Go.FormatInt (Rate cfg) +:+ "|" +:+ Go.FormatInt (Period cfg).

Definition touch (now : Go.Time) (entry : limiterEntry) : limiterEntry :=
  {| limiter := limiter entry; lastUsed := now; ttl := ttl entry |}.

Definition newLimiter (now : Go.Time) (cfg : Config) : LimiterObj :=
  if String.eqb (Method_ cfg) MethodTokenBucket then
    TB (NewTokenBucket now (Rate cfg) (Period cfg))
  else if String.eqb (Method_ cfg) MethodFixedWindow then
    FW (NewFixedWindow now (Rate cfg) (Period cfg))
  else
    TB (NewTokenBucket now (Rate cfg) (Period cfg)).

(** [GetOrCreate]: [now] is the clock reading taken on entry, [born] the
    one the constructor of a new limiter takes.  The lookup under the
    read lock and the second one under the write lock are both kept. *)
Definition GetOrCreate (now born : Go.Time) (egressIP resourceKey : string)
    (cfg : Config) (hs : Heap * Store) : Limiter * (Heap * Store) :=
  let '(h, s) := hs in
  let key := buildKey egressIP resourceKey cfg in
  match limiters s !! key with
  | Some entry =>
      (limiter entry, (h, {| limiters := <[key := touch now entry]> (limiters s) |}))
  | None =>
      match limiters s !! key with
      | Some entry =>
          (limiter entry, (h, {| limiters := <[key := touch now entry]> (limiters s) |}))
      | None =>
          let l := length h in
          (l, (h ++ [newLimiter born cfg],
               {| limiters :=
                    <[key := {| limiter := l; lastUsed := now; ttl := GetTTL cfg |}]>
                      (limiters s) |}))
      end
  end.

Definition Len (s : Store) : nat := size (limiters s).

Definition ExtractResourceKey (host path : string) (kind : ResourceKind) : string :=
  if String.eqb kind ResourceKindDomainPath then host +:+ path
  else if String.eqb kind ResourceKindDomain then host
  else host.

End ratelimit.

(** ** The Go standard library, as far as the proxy calls it

    [net], [net/textproto], [strings] and [encoding/json] are not code of
    this repository: the proxy is modelled over any implementation of the
    functions it calls. *)

Class GoLib := {
  (** [net.IP], [net.ParseIP] ([None] is the nil address) and the
      predicates of [net.IP] *)
  IP : Type;
  ParseIP : string -> option IP;
  IP_Equal : IP -> IP -> bool;
  IP_IsLinkLocalUnicast : IP -> bool;
  IP_IsLinkLocalMulticast : IP -> bool;
  IP_IsLoopback : IP -> bool;
  IP_To4 : IP -> option IP;
  IP_String : IP -> string;
  (** [textproto.CanonicalMIMEHeaderKey], [strings.Split], [strings.TrimSpace] *)
  CanonicalMIMEHeaderKey : string -> string;
  Split : string -> string -> list string;
  TrimSpace : string -> string;
  (** [json.Unmarshal] into a [ratelimit.Config]; [None] is the error *)
  Unmarshal : string -> option ratelimit.Config
}.

(** ** Package config *)

Module config.
Section WithGo.
Context `{GoLib}.

Record Config := { AllowedInterfaces : list string }.

(** What [net.Interfaces()] and [iface.Addrs()] report: the addresses are
    [*net.IPNet], [*net.IPAddr] or of another type; [None] is an error. *)
Inductive Addr :=
| IPNet (ip : IP)
| IPAddr (ip : IP)
| OtherAddr.

Record Interface := {
  Name : string;
  FlagUp : bool;
  Addrs : option (list Addr)
}.

Definition Interfaces := option (list Interface).

Record IPInfo := {
  Interface_ : string;
  IP_ : string;
  Version : Z
}.

Definition allowedSet (c : Config) : gset string :=
  list_to_set (AllowedInterfaces c).

(** The type switch on an address. *)
Definition addrIP (addr : Addr) : option IP :=
  match addr with
  | IPNet ip => Some ip
  | IPAddr ip => Some ip
  | OtherAddr => None
  end.

Definition GetAvailableIPs (c : Config) (interfaces : Interfaces)
  : option (list IPInfo) :=
  match interfaces with
  | None => None
  | Some interfaces =>
      Some (foldl (fun result iface =>
        if negb (bool_decide (Name iface ∈ allowedSet c)) then result
        else if negb (FlagUp iface) then result
        else match Addrs iface with
             | None => result
             | Some addrs =>
                 foldl (fun result addr =>
                   match addrIP addr with
                   | None => result
                   | Some ip =>
                       if IP_IsLinkLocalUnicast ip || IP_IsLinkLocalMulticast ip
                       then result
                       else if IP_IsLoopback ip then result
                       else result ++
                              [ {| Interface_ := Name iface;
                                   IP_ := IP_String ip;
                                   Version := match IP_To4 ip with
                                              | None => 6
                                              | Some _ => 4
                                              end |} ]
                   end) result addrs
             end) [] interfaces)
  end.

Definition IsIPAllowed (c : Config) (interfaces : Interfaces) (ipStr : string)
  : bool :=
  match ParseIP ipStr with
  | None => false
  | Some ip =>
      match interfaces with
      | None => false
      | Some interfaces =>
          existsb (fun iface =>
            bool_decide (Name iface ∈ allowedSet c) &&
            match Addrs iface with
            | None => false
            | Some addrs =>
                existsb (fun addr =>
                  match addrIP addr with
                  | None => false
                  | Some ifaceIP => IP_Equal ifaceIP ip
                  end) addrs
            end) interfaces
      end
  end.

End WithGo.
End config.

(** ** Package http_server *)

Module http_server.
Section WithGo.
Context `{GoLib}.

Definition StatusBadRequest : Z := 400.
Definition StatusForbidden : Z := 403.
Definition StatusTooManyRequests : Z := 429.
Definition StatusInternalServerError : Z := 500.
Definition StatusBadGateway : Z := 502.

Definition MethodConnect : string := "CONNECT".

(** The parts of a request [handleProxy] reads.  A header that is absent
    reads as the empty string ([Header.Get]). *)
Record Request := {
  Method : string;
  Host : string;
  URLPath : string;
  XEgressIP : string;
  XRateLimit : string
}.

Record HTTPServer := { config_ : option config.Config }.

(** How [handleProxy] ends: [http.Error] with the headers set before it,
    or one of the two forwarding handlers with the local address. [Panic]
    is an index out of range. *)
Inductive Outcome :=
| Error (headers : list (string * string)) (body : string) (code : Z)
| handleConnect (localIP : IP)
| handleHTTPProxy (localIP : IP)
| Panic.

(** The environment of one request: the interfaces of the host, the
    number [rand.Intn] draws, and the clock readings of [GetOrCreate], of
    the limiter's constructor and of [Allow]. *)
Record Env := {
  interfaces : config.Interfaces;
  Intn : nat;
  now_lookup : Go.Time;
  now_new : Go.Time;
  now_allow : Go.Time
}.

(** The choice of the egress address: the first part of [handleProxy].
    On success the address is still a string. *)
Definition egress (hs : HTTPServer) (env : Env) (r : Request) : Outcome + string :=
  if String.eqb (XEgressIP r) "" then
    match config_ hs with
    | None => inl (Error [] "server not configured" StatusInternalServerError)
    | Some c =>
        match config.GetAvailableIPs c (interfaces env) with
        | None => inl (Error [] "no available egress IPs" StatusInternalServerError)
        | Some ips =>
            if (length ips =? 0)%nat
            then inl (Error [] "no available egress IPs" StatusInternalServerError)
            else match ips !! Intn env with
                 | Some info => inr (config.IP_ info)
                 | None => inl Panic
                 end
        end
    end
  else
    match config_ hs with
    | Some c =>
        if negb (config.IsIPAllowed c (interfaces env) (XEgressIP r))
        then inl (Error [] "specified egress IP is not allowed" StatusForbidden)
        else inr (XEgressIP r)
    | None => inr (XEgressIP r)
    end.

Definition dispatch (r : Request) (localIP : IP) : Outcome :=
  if String.eqb (Method r) MethodConnect then handleConnect localIP
  else handleHTTPProxy localIP.

Definition handleProxy (hs : HTTPServer) (env : Env) (r : Request)
    (st : ratelimit.Heap * ratelimit.Store)
  : Outcome * (ratelimit.Heap * ratelimit.Store) :=
  match egress hs env r with
  | inl out => (out, st)
  | inr egressIP =>
      match ParseIP egressIP with
      | None => (Error [] "invalid egress IP format" StatusBadRequest, st)
      | Some localIP =>
          if negb (String.eqb (XRateLimit r) "") then
            match Unmarshal (XRateLimit r) with
            | None =>
                (Error [] "invalid X-Rate-Limit header format" StatusBadRequest, st)
            | Some rlConfig =>
                let host := Host r in
                let path :=
                  if String.eqb (Method r) MethodConnect then "" else URLPath r in
                let resourceKey :=
                  ratelimit.ExtractResourceKey host path
                    (ratelimit.Kind (ratelimit.Resource_ rlConfig)) in
                let '(limiter, (h, s)) :=
                  ratelimit.GetOrCreate (now_lookup env) (now_new env)
                    egressIP resourceKey rlConfig st in
                match h !! limiter with
                | None => (Panic, (h, s))
                | Some o =>
                    let '(ok, o') := ratelimit.Allow (now_allow env) o in
                    let st' := (<[limiter := o']> h, s) in
                    if negb ok then
                      (Error [("X-RateLimit-Source", "specificproxy")]
                         "rate limit exceeded" StatusTooManyRequests, st')
                    else (dispatch r localIP, st')
                end
            end
          else (dispatch r localIP, st)
      end
  end.

(** *** Hop-by-hop headers *)

(** [http.Header]: a map from canonical names to the values of the
    header, one per line. *)
Definition Header_Get (h : gmap string (list string)) (key : string) : string :=
  match h !! CanonicalMIMEHeaderKey key with
  | Some (v :: _) => v
  | _ => ""
  end.

Definition Header_Del (h : gmap string (list string)) (key : string)
  : gmap string (list string) :=
  delete (CanonicalMIMEHeaderKey key) h.

Definition hopByHopHeaders : list string :=
  [ "Connection"; "Keep-Alive"; "Proxy-Authenticate"; "Proxy-Authorization";
    "Te"; "Trailer"; "Transfer-Encoding"; "Upgrade" ].

(** The names listed in the [Connection] header, as the first loop of
    [removeHopByHopHeaders] reads them. *)
Definition connectionTokens (h : gmap string (list string)) : list string :=
  let c := Header_Get h "Connection" in
  if negb (String.eqb c "") then TrimSpace <$> Split c "," else [].

Definition removeHopByHopHeaders (h : gmap string (list string))
  : gmap string (list string) :=
  let h := foldl Header_Del h (connectionTokens h) in
  foldl Header_Del h hopByHopHeaders.

(** *** The list of egress addresses *)

(** How [handleListIPs] ends: [http.Error], or the header it sets and the
    value it hands to the JSON encoder under the key [ips]. *)
Inductive ListOutcome :=
| ListError (body : string) (code : Z)
| ListJSON (headers : list (string * string)) (ips : list config.IPInfo).

Definition handleListIPs (hs : HTTPServer) (interfaces : config.Interfaces)
  : ListOutcome :=
  match config_ hs with
  | None => ListError "server not configured" StatusInternalServerError
  | Some c =>
      match config.GetAvailableIPs c interfaces with
      | None => ListError "failed to get available IPs" StatusInternalServerError
      | Some ips => ListJSON [("Content-Type", "application/json")] ips
      end
  end.

(** *** Forwarding a request *)

(** [http.Header.Add]: the value is appended to the lines of the
    canonical name. *)
Definition Header_Add (h : gmap string (list string)) (key value : string)
  : gmap string (list string) :=
  <[CanonicalMIMEHeaderKey key := default [] (h !! CanonicalMIMEHeaderKey key) ++ [value]]> h.

(** The request and the response as [handleHTTPProxy] handles them; the
    fields it does not touch (method, URL, host, body) travel along. *)
Record ClientRequest := {
  ReqMethod : string;
  ReqURL : string;
  ReqHost : string;
  RequestURI : string;
  ReqHeader : gmap string (list string);
  ReqBody : string
}.

Record Response := {
  StatusCode : Z;
  RespHeader : gmap string (list string);
  RespBody : string
}.

(** [outReq]: the clone of the request that is sent on. *)
Definition outReq (r : ClientRequest) : ClientRequest :=
  {| ReqMethod := ReqMethod r;
     ReqURL := ReqURL r;
     ReqHost := ReqHost r;
     RequestURI := "";
     ReqHeader :=
       Header_Del (Header_Del (Header_Del (Header_Del (ReqHeader r)
         "X-Egress-IP") "X-Rate-Limit") "Proxy-Connection") "Proxy-Authorization";
     ReqBody := ReqBody r |}.

(** The two loops that copy the response header, over the entries of the
    map in the order the [range] visits them. *)
Definition copyHeader (w : gmap string (list string))
    (entries : list (string * list string)) : gmap string (list string) :=
  foldl (fun w '(key, values) =>
           foldl (fun w value => Header_Add w key value) w values) w entries.

(** What the client gets from [handleHTTPProxy]: [http.Error], or the
    header, the status and the body written to it. *)
Inductive Forwarded :=
| ProxyError (body : string) (code : Z)
| Written (header : gmap string (list string)) (code : Z) (body : string).

(** [handleHTTPProxy]: [RoundTrip] is the transport bound to the local
    address, its error given by its text; [w] is the header of the
    response writer on entry; [order] lists a response header in the
    order the [range] loop visits it. *)
Definition handleHTTPProxy_run (RoundTrip : IP -> ClientRequest -> Response + string)
    (localIP : IP) (r : ClientRequest) (w : gmap string (list string))
    (order : gmap string (list string) -> list (string * list string))
  : Forwarded :=
  match RoundTrip localIP (outReq r) with
  | inr err => ProxyError ("proxy request failed: " +:+ err) StatusBadGateway
  | inl resp =>
      Written (removeHopByHopHeaders (copyHeader w (order (RespHeader resp))))
        (StatusCode resp) (RespBody resp)
  end.

End WithGo.
End http_server.

(** ** A small implementation of the library, to run the program

    The ASCII and IPv4 fragment of the library functions: enough to
    evaluate the proxy on the requests of the repository's tests.  The
    theorems below do not depend on it; the closed examples do. *)

Module GoModel.

(** [strings.Split] for a separator of one byte. *)
Fixpoint split_on (sep : ascii) (s : string) : list string :=
  match s with
  | EmptyString => [EmptyString]
  | String c s' =>
      if Ascii.eqb c sep then EmptyString :: split_on sep s'
      else match split_on sep s' with
           | [] => [String c EmptyString]
           | x :: xs => String c x :: xs
           end
  end.

Definition Split (s sep : string) : list string :=
  match sep with
  | String c EmptyString => split_on c s
  | _ => [s]
  end.

(** [strings.TrimSpace] on ASCII white space. *)
Definition isSpace (c : ascii) : bool :=
  let n := nat_of_ascii c in
  ((9 <=? n)%nat && (n <=? 13)%nat) || (n =? 32)%nat.

Fixpoint trimLeft (s : string) : string :=
  match s with
  | EmptyString => EmptyString
  | String c s' => if isSpace c then trimLeft s' else s
  end.

Definition TrimSpace (s : string) : string :=
  String.rev (trimLeft (String.rev (trimLeft s))).

(** [textproto.CanonicalMIMEHeaderKey]: a name made of token bytes gets
    an upper-case letter first and after every dash, lower-case letters
    elsewhere; any other string is left as it is. *)
Definition isUpper (c : ascii) : bool :=
  let n := nat_of_ascii c in (65 <=? n)%nat && (n <=? 90)%nat.
Definition isLower (c : ascii) : bool :=
  let n := nat_of_ascii c in (97 <=? n)%nat && (n <=? 122)%nat.
Definition isDigit (c : ascii) : bool :=
  let n := nat_of_ascii c in (48 <=? n)%nat && (n <=? 57)%nat.

Definition validHeaderFieldByte (c : ascii) : bool :=
  isUpper c || isLower c || isDigit c ||
  bool_decide (c ∈ list_ascii_of_string "!#$%&'*+-.^_`|~").

Definition toUpper (c : ascii) : ascii :=
  if isLower c then ascii_of_nat (nat_of_ascii c - 32) else c.
Definition toLower (c : ascii) : ascii :=
  if isUpper c then ascii_of_nat (nat_of_ascii c + 32) else c.

Fixpoint canonical (upper : bool) (s : string) : string :=
  match s with
  | EmptyString => EmptyString
  | String c s' =>
      let c' := if upper then toUpper c else toLower c in
      String c' (canonical (Ascii.eqb c' "-") s')
  end.

Definition CanonicalMIMEHeaderKey (s : string) : string :=
  if forallb validHeaderFieldByte (list_ascii_of_string s)
  then canonical true s else s.

(** [net.ParseIP] on dotted-decimal IPv4 addresses. *)
Definition IPv4 : Type := Z * Z * Z * Z.

Definition parseOctet (s : string) : option Z :=
  match s with
  | EmptyString => None
  | String c s' =>
      if (3 <? String.length s)%nat then None
      else if Ascii.eqb c "0" && negb (String.eqb s' EmptyString) then None
      else match NilEmpty.uint_of_string s with
           | Some d => if Z.of_uint d <=? 255 then Some (Z.of_uint d) else None
           | None => None
           end
  end.

Definition ParseIP (s : string) : option IPv4 :=
  match split_on "." s with
  | [a; b; c; d] =>
      match parseOctet a, parseOctet b, parseOctet c, parseOctet d with
      | Some a, Some b, Some c, Some d => Some (a, b, c, d)
      | _, _, _, _ => None
      end
  | _ => None
  end.

Definition IP_Equal (x y : IPv4) : bool := bool_decide (x = y).

Definition IP_IsLoopback (x : IPv4) : bool :=
  let '(a, _, _, _) := x in a =? 127.
Definition IP_IsLinkLocalUnicast (x : IPv4) : bool :=
  let '(a, b, _, _) := x in (a =? 169) && (b =? 254).
Definition IP_IsLinkLocalMulticast (x : IPv4) : bool :=
  let '(a, b, c, _) := x in (a =? 224) && (b =? 0) && (c =? 0).
Definition IP_To4 (x : IPv4) : option IPv4 := Some x.
Definition IP_String (x : IPv4) : string :=
  let '(a, b, c, d) := x in
  Go.FormatInt a +:+ "." +:+ Go.FormatInt b +:+ "." +:+ Go.FormatInt c
    +:+ "." +:+ Go.FormatInt d.

(** The directive the tests send (method token_bucket, rate 1, period
    60, resource kind domain) as JSON text, and a decoder that knows this
    text and rejects any other. *)
Definition quoted (s : string) : string :=
  String (ascii_of_nat 34) s +:+ String (ascii_of_nat 34) EmptyString.

Definition testDirectiveText : string :=
  "{" +:+ quoted "method" +:+ ":" +:+ quoted "token_bucket" +:+ ","
      +:+ quoted "rate" +:+ ":1,"
      +:+ quoted "period" +:+ ":60,"
      +:+ quoted "resource" +:+ ":{" +:+ quoted "kind" +:+ ":" +:+ quoted "domain"
      +:+ "}}".

Definition testDirective : ratelimit.Config :=
  {| ratelimit.Method_ := "token_bucket";
     ratelimit.Rate := 1;
     ratelimit.Period := 60;
     ratelimit.TTL := 0;
     ratelimit.Resource_ := {| ratelimit.Kind := "domain" |} |}.

Definition Unmarshal (s : string) : option ratelimit.Config :=
  if String.eqb s testDirectiveText then Some testDirective else None.

#[export] Instance lib : GoLib :=
  Build_GoLib IPv4 ParseIP IP_Equal IP_IsLinkLocalUnicast
    IP_IsLinkLocalMulticast IP_IsLoopback IP_To4 IP_String
    CanonicalMIMEHeaderKey Split TrimSpace Unmarshal.

End GoModel.

(** ** Notions used in the statements *)

(** The byte [c] occurs in [s]. *)
Fixpoint occurs (c : ascii) (s : string) : Prop :=
  match s with
  | EmptyString => False
  | String a s' => a = c \/ occurs c s'
  end.

(** The store and its heap fit together: every entry points into the
    heap, and two keys never share a limiter. *)
Definition Store_wf (hs : ratelimit.Heap * ratelimit.Store) : Prop :=
  (forall (key : string) (entry : ratelimit.limiterEntry),
      ratelimit.limiters hs.2 !! key = Some entry ->
      (ratelimit.limiter entry < length hs.1)%nat) /\
  (forall (k1 k2 : string) (e1 e2 : ratelimit.limiterEntry),
      ratelimit.limiters hs.2 !! k1 = Some e1 ->
      ratelimit.limiters hs.2 !! k2 = Some e2 ->
      ratelimit.limiter e1 = ratelimit.limiter e2 -> k1 = k2).

(** The status code of an outcome, when it is a response. *)
Definition Outcome_code `{GoLib} (out : http_server.Outcome) : option Z :=
  match out with
  | http_server.Error _ _ code => Some code
  | _ => None
  end.

(** *** binary64 numbers *)

(** The exponent of the canonical form of a binary64 number. *)
Abbreviation fexp64 := (SpecFloat.fexp prec emax).

(** The value [m * 2 ^ e], in units of [2 ^ -1074]. *)
Definition val (m e : Z) : Z := m * 2 ^ (e + 1074).

(** A positive mantissa in the canonical form of binary64. *)
Definition canonical (m e : Z) : Prop :=
  0 < m /\ e = fexp64 (Zdigits2 m + e).

(** The canonical form of an integer between 1 and [2 ^ 53]. *)
Definition int_mantissa (n : Z) : Z :=
  if Zdigits2 n <=? 53 then n * 2 ^ (53 - Zdigits2 n) else n / 2 ^ (Zdigits2 n - 53).
Definition int_exponent (n : Z) : Z := Zdigits2 n - 53.

(** Zero or a positive finite number. *)
Definition finite_nonneg (x : spec_float) : Prop :=
  match x with
  | S754_zero _ => True
  | S754_finite false _ _ => True
  | _ => False
  end.

(** Zero, a positive finite number or [+Inf]: what [0 <= x] holds for. *)
Definition nonneg (x : spec_float) : Prop :=
  match x with
  | S754_zero _ => True
  | S754_finite false _ _ => True
  | S754_infinity false => True
  | _ => False
  end.

(** *** Token bucket *)

(** The clock readings never go back. *)
Fixpoint nondecreasing_from (t0 : Go.Time) (times : list Go.Time) : Prop :=
  match times with
  | [] => True
  | t :: rest => t0 <= t /\ nondecreasing_from t rest
  end.

(** [0 <= tokens <= maxTokens], with the comparisons of [float64]. *)
Definition TokenBucket_inv (tb : ratelimit.TokenBucket) : bool :=
  (0 <=? ratelimit.tokens tb)%float && (ratelimit.tokens tb <=? ratelimit.maxTokens tb)%float.

(** What the proofs carry along a run: the capacity is a positive finite
    number, the refill rate is finite and not negative, and the tokens
    are between zero and the capacity. *)
Definition TokenBucket_sound (tb : ratelimit.TokenBucket) : Prop :=
  (exists (pM : positive) (eM : Z),
      Prim2SF (ratelimit.maxTokens tb) = S754_finite false pM eM) /\
  finite_nonneg (Prim2SF (ratelimit.refillRate tb)) /\
  nonneg (Prim2SF (ratelimit.tokens tb)) /\
  SFleb (Prim2SF (ratelimit.tokens tb)) (Prim2SF (ratelimit.maxTokens tb)) = true.

(** *** Notions of the further properties *)

(** A bucket of rate zero: no tokens, no refill. *)
Definition TokenBucket_empty (tb : ratelimit.TokenBucket) : Prop :=
  (exists s, Prim2SF (ratelimit.tokens tb) = S754_zero s) /\
  (exists s, Prim2SF (ratelimit.maxTokens tb) = S754_zero s) /\
  (exists s, Prim2SF (ratelimit.refillRate tb) = S754_zero s).

(** The entry [GetAvailableIPs] makes for an address. *)
Definition IPInfo_of `{GoLib} (iface : config.Interface) (ip : IP) : config.IPInfo :=
  {| config.Interface_ := config.Name iface;
     config.IP_ := IP_String ip;
     config.Version := match IP_To4 ip with None => 6 | Some _ => 4 end |}.

(** The addresses [GetAvailableIPs] lists for an interface. *)
Definition listed `{GoLib} (c : config.Config) (iface : config.Interface) : list IP :=
  if bool_decide (config.Name iface ∈ config.AllowedInterfaces c) && config.FlagUp iface
  then match config.Addrs iface with
       | Some addrs =>
           filter (fun ip => IP_IsLinkLocalUnicast ip = false /\
                             IP_IsLinkLocalMulticast ip = false /\
                             IP_IsLoopback ip = false)
                  (omap config.addrIP addrs)
       | None => []
       end
  else [].

(** All the addresses of the interfaces. *)
Definition host_addresses `{GoLib} (ifaces : list config.Interface) : list IP :=
  iface ← ifaces;
  match config.Addrs iface with
  | Some addrs => omap config.addrIP addrs
  | None => []
  end.


(** What the store goes through: a request is handled, or the cleanup
    loop sweeps the store.  A sweep that runs while a request is handled
    comes before or after it here: [handleProxy] reads the map in
    [GetOrCreate] only, and a sweep does not touch the limiters. *)
Inductive Event `{GoLib} :=
| Handle (env : http_server.Env)
| Sweep (now : Go.Time).

(** The same request handled in each of the environments, with the sweeps
    in between, the store carried from one event to the next. *)
Fixpoint handleProxy_run `{GoLib} (hs : http_server.HTTPServer)
    (events : list Event) (r : http_server.Request)
    (st : ratelimit.Heap * ratelimit.Store)
  : list http_server.Outcome * (ratelimit.Heap * ratelimit.Store) :=
  match events with
  | [] => ([], st)
  | Handle env :: rest =>
      let '(out, st1) := http_server.handleProxy hs env r st in
      let '(outs, st2) := handleProxy_run hs rest r st1 in
      (out :: outs, st2)
  | Sweep now :: rest =>
      handleProxy_run hs rest r (st.1, ratelimit.cleanup now st.2)
  end.






(** * Properties *)

(** ** 64-bit integers and the clock *)

Lemma wrap64_id (z : Z) : Go.int64 z -> Go.wrap64 z = z.
Proof.
  unfold Go.int64, Go.wrap64, Go.MinInt64, Go.MaxInt64. intros Hz.
  rewrite Z.mod_small; lia.
Qed.

Lemma Sub_exact (t u : Go.Time) :
  Go.int64 (t - u) -> Go.Sub t u = t - u.
Proof.
  unfold Go.int64, Go.Sub. intros [Hlo Hhi].
  destruct (Z.ltb_spec (t - u) Go.MinInt64); [lia|].
  destruct (Z.ltb_spec Go.MaxInt64 (t - u)); [lia|]. reflexivity.
Qed.

Lemma Sub_self (t : Go.Time) : Go.Sub t t = 0.
Proof. apply eq_trans with (t - t); [apply Sub_exact|lia].
  rewrite Z.sub_diag. unfold Go.int64, Go.MinInt64, Go.MaxInt64. lia. Qed.

Lemma Sub_nonneg (t u : Go.Time) : u <= t -> 0 <= Go.Sub t u <= Go.MaxInt64.
Proof.
  unfold Go.Sub, Go.MinInt64, Go.MaxInt64. intros Hle.
  destruct (Z.ltb_spec (t - u) (- 2 ^ 63)); [lia|].
  destruct (Z.ltb_spec (2 ^ 63 - 1) (t - u)); lia.
Qed.

(** For a duration that fits, [Sub] compares as the difference does. *)
Lemma Sub_lt_iff (t u : Go.Time) (d : Go.Duration) :
  0 < d <= Go.MaxInt64 -> Go.Sub t u < d <-> t - u < d.
Proof.
  unfold Go.Sub, Go.MinInt64, Go.MaxInt64. intros Hd.
  destruct (Z.ltb_spec (t - u) (- 2 ^ 63)); [lia|].
  destruct (Z.ltb_spec (2 ^ 63 - 1) (t - u)); lia.
Qed.

Lemma Sub_ge_iff (t u : Go.Time) (d : Go.Duration) :
  0 < d <= Go.MaxInt64 -> d <= Go.Sub t u <-> d <= t - u.
Proof. intros Hd. pose proof (Sub_lt_iff t u d Hd). lia. Qed.

(** ** binary64 arithmetic

    The operations of [float] are specified by [SpecFloat]; the lemmas
    below describe its rounding on the numbers the token bucket meets. *)

Ltac fexp_lia :=
  unfold SpecFloat.fexp, SpecFloat.emin, prec, emax in *; lia.

Lemma fexp64_eq (e : Z) : fexp64 e = Z.max (e - 53) (-1074).
Proof. reflexivity. Qed.

Lemma pow2_pos (n : Z) : 0 < 2 ^ n \/ (n < 0 /\ 2 ^ n = 0).
Proof.
  destruct (Z.lt_ge_cases n 0) as [Hn|Hn].
  - right. split; [done|]. by apply Z.pow_neg_r.
  - left. by apply Z.pow_pos_nonneg.
Qed.

Lemma pow2_gt0 (n : Z) : 0 <= n -> 0 < 2 ^ n.
Proof. intros. by apply Z.pow_pos_nonneg. Qed.

Lemma pow2_split (a b : Z) : 0 <= a -> 0 <= b -> 2 ^ (a + b) = 2 ^ a * 2 ^ b.
Proof. intros. by apply Z.pow_add_r. Qed.

Lemma pow2_le (a b : Z) : 0 <= a <= b -> 2 ^ a <= 2 ^ b.
Proof. intros. apply Z.pow_le_mono_r; lia. Qed.

Lemma pow2_lt (a b : Z) : 0 <= a < b -> 2 ^ a < 2 ^ b.
Proof. intros. apply Z.pow_lt_mono_r; lia. Qed.

(** The number of binary digits of a positive number. *)
Lemma digits2_pos_bounds (p : positive) :
  2 ^ (Z.pos (digits2_pos p) - 1) <= Z.pos p < 2 ^ Z.pos (digits2_pos p).
Proof.
  induction p as [p IH|p IH|]; cbn [digits2_pos].
  - rewrite Pos2Z.inj_succ. replace (Z.succ (Z.pos (digits2_pos p)) - 1)
      with (Z.succ (Z.pos (digits2_pos p) - 1)) by lia.
    rewrite !Z.pow_succ_r by lia. lia.
  - rewrite Pos2Z.inj_succ. replace (Z.succ (Z.pos (digits2_pos p)) - 1)
      with (Z.succ (Z.pos (digits2_pos p) - 1)) by lia.
    rewrite !Z.pow_succ_r by lia. lia.
  - simpl. lia.
Qed.

Lemma Zdigits2_bounds (m : Z) :
  0 < m -> 2 ^ (Zdigits2 m - 1) <= m < 2 ^ Zdigits2 m.
Proof. destruct m as [|p|p]; try lia. intros _. apply digits2_pos_bounds. Qed.

Lemma Zdigits2_nonneg (m : Z) : 0 <= Zdigits2 m.
Proof. destruct m; simpl; lia. Qed.

Lemma Zdigits2_pos (m : Z) : 0 < m -> 0 < Zdigits2 m.
Proof. destruct m; simpl; lia. Qed.

Lemma Zdigits2_0 : Zdigits2 0 = 0.
Proof. reflexivity. Qed.

(** The digits are fixed by the power of two just above. *)
Lemma Zdigits2_unique (m d : Z) :
  2 ^ (d - 1) <= m < 2 ^ d -> 0 < m -> 0 < d -> Zdigits2 m = d.
Proof.
  intros [Hlo Hhi] Hm Hd.
  pose proof (Zdigits2_bounds m Hm) as [Hlo' Hhi'].
  pose proof (Zdigits2_pos m Hm) as Hd'.
  destruct (Z.lt_trichotomy (Zdigits2 m) d) as [Hlt|[Heq|Hgt]]; [|done|].
  - assert (2 ^ Zdigits2 m <= 2 ^ (d - 1)) by (apply pow2_le; lia). lia.
  - assert (2 ^ d <= 2 ^ (Zdigits2 m - 1)) by (apply pow2_le; lia). lia.
Qed.

Lemma Zdigits2_le (m d : Z) : 0 <= m < 2 ^ d -> 0 <= d -> Zdigits2 m <= d.
Proof.
  intros [Hm Hhi] Hd. destruct (Z.eq_dec m 0) as [->|Hne]; [simpl; lia|].
  pose proof (Zdigits2_bounds m ltac:(lia)) as [Hlo' Hhi'].
  destruct (Z.le_gt_cases (Zdigits2 m) d) as [|Hgt]; [done|].
  assert (2 ^ d <= 2 ^ (Zdigits2 m - 1)) by (apply pow2_le; lia). lia.
Qed.

Lemma Zdigits2_ge (m d : Z) : 2 ^ (d - 1) <= m -> 0 < d -> d <= Zdigits2 m.
Proof.
  intros Hlo Hd.
  assert (0 < m) by (pose proof (pow2_gt0 (d - 1)); lia).
  pose proof (Zdigits2_bounds m ltac:(lia)) as [Hlo' Hhi'].
  destruct (Z.le_gt_cases d (Zdigits2 m)) as [|Hgt]; [done|].
  assert (2 ^ Zdigits2 m <= 2 ^ (d - 1)) by (apply pow2_le; pose proof (Zdigits2_nonneg m); lia). lia.
Qed.

Lemma Zdigits2_mono (m m' : Z) : 0 <= m <= m' -> Zdigits2 m <= Zdigits2 m'.
Proof.
  intros [Hm Hle]. destruct (Z.eq_dec m' 0) as [->|Hne].
  - assert (m = 0) as -> by lia. lia.
  - apply Zdigits2_le; [|apply Zdigits2_nonneg].
    pose proof (Zdigits2_bounds m' ltac:(lia)). lia.
Qed.

Lemma Zdigits2_mul_pow2 (m k : Z) :
  0 < m -> 0 <= k -> Zdigits2 (m * 2 ^ k) = Zdigits2 m + k.
Proof.
  intros Hm Hk. pose proof (Zdigits2_bounds m Hm) as [Hlo Hhi].
  pose proof (Zdigits2_pos m Hm) as Hd. pose proof (pow2_gt0 k Hk) as Hp.
  apply Zdigits2_unique; [|nia|lia].
  replace (Zdigits2 m + k - 1) with ((Zdigits2 m - 1) + k) by lia.
  rewrite !pow2_split by lia. nia.
Qed.

Lemma Zdigits2_div_pow2 (m k : Z) :
  0 < m -> 0 <= k -> k < Zdigits2 m -> Zdigits2 (m / 2 ^ k) = Zdigits2 m - k.
Proof.
  intros Hm Hk Hlt. pose proof (Zdigits2_bounds m Hm) as [Hlo Hhi].
  pose proof (pow2_gt0 k Hk) as Hp.
  assert (Hlo' : 2 ^ (Zdigits2 m - k - 1) <= m / 2 ^ k).
  { apply Z.div_le_lower_bound; [done|].
    rewrite <- pow2_split by lia. replace (k + (Zdigits2 m - k - 1)) with (Zdigits2 m - 1) by lia. done. }
  assert (Hhi' : m / 2 ^ k < 2 ^ (Zdigits2 m - k)).
  { apply Z.div_lt_upper_bound; [done|].
    rewrite <- pow2_split by lia. replace (k + (Zdigits2 m - k)) with (Zdigits2 m) by lia. done. }
  apply Zdigits2_unique; [lia| |lia].
  pose proof (pow2_gt0 (Zdigits2 m - k - 1)). lia.
Qed.

Lemma Zdigits2_succ (m : Z) : 0 <= m -> Zdigits2 (m + 1) <= Zdigits2 m + 1.
Proof.
  intros Hm. destruct (Z.eq_dec m 0) as [->|Hne]; [simpl; lia|].
  pose proof (Zdigits2_bounds m ltac:(lia)) as [Hlo Hhi].
  pose proof (Zdigits2_pos m ltac:(lia)).
  apply Zdigits2_le; [|lia]. rewrite pow2_split by lia. change (2 ^ 1) with 2. lia.
Qed.

Lemma iter_pos_invariant {A : Type} (f : A -> A) (I : Z -> A -> Prop) :
  (forall k x, 0 <= k -> I k x -> I (k + 1) (f x)) ->
  forall (p : positive) (k : Z) (x : A),
    0 <= k -> I k x -> I (k + Z.pos p) (SpecFloat.iter_pos f p x).
Proof.
  intros Hstep. induction p as [p IH|p IH|]; intros k x Hk Hx; cbn [SpecFloat.iter_pos].
  - replace (k + Z.pos p~1) with (((k + 1) + Z.pos p) + Z.pos p) by lia.
    apply IH; [lia|]. apply IH; [lia|]. by apply Hstep.
  - replace (k + Z.pos p~0) with ((k + Z.pos p) + Z.pos p) by lia.
    apply IH; [lia|]. by apply IH.
  - by apply Hstep.
Qed.

Lemma shr_1_spec (mrs : shr_record) :
  0 <= shr_m mrs ->
  shr_m (shr_1 mrs) = shr_m mrs / 2 /\
  shr_r (shr_1 mrs) = Z.odd (shr_m mrs) /\
  shr_s (shr_1 mrs) = shr_r mrs || shr_s mrs.
Proof.
  destruct mrs as [m r s]. cbn [shr_m shr_r shr_s]. intros Hm.
  rewrite <- Z.div2_div.
  destruct m as [|[p|p|]|p]; try lia; done.
Qed.

Lemma shr_record_of_loc_m (m : Z) (l : location) : shr_m (shr_record_of_loc m l) = m.
Proof. by destruct l as [|[| |]]. Qed.

Lemma loc_of_shr_record_of_loc (m : Z) (l : location) :
  loc_of_shr_record (shr_record_of_loc m l) = l.
Proof. by destruct l as [|[| |]]. Qed.

Lemma loc_Exact_flags (mrs : shr_record) :
  loc_of_shr_record mrs = loc_Exact <-> shr_r mrs = false /\ shr_s mrs = false.
Proof. destruct mrs as [m [|] [|]]; simpl; split; (done || by intros [? ?]). Qed.

Lemma div_pow2_even (m n k : Z) :
  0 <= k < n -> m mod 2 ^ n = 0 -> Z.odd (m / 2 ^ k) = false.
Proof.
  intros Hk Hmod.
  assert (Hn : 0 < 2 ^ n) by (apply pow2_gt0; lia).
  apply Z.mod_divide in Hmod; [|lia]. destruct Hmod as [q ->].
  replace n with ((n - k - 1) + 1 + k) by lia.
  rewrite !pow2_split by lia. change (2 ^ 1) with 2.
  rewrite !Z.mul_assoc, Z.div_mul by (pose proof (pow2_gt0 k); lia).
  rewrite Z.odd_mul. simpl. apply andb_false_r.
Qed.

(** [n] steps of [shr_1]: the mantissa is divided by [2 ^ n], and nothing
    is lost when it was a multiple of [2 ^ n]. *)
Lemma iter_shr_1_spec (p : positive) (mrs : shr_record) :
  0 <= shr_m mrs ->
  shr_m (SpecFloat.iter_pos shr_1 p mrs) = shr_m mrs / 2 ^ Z.pos p /\
  (loc_of_shr_record mrs = loc_Exact -> shr_m mrs mod 2 ^ Z.pos p = 0 ->
   loc_of_shr_record (SpecFloat.iter_pos shr_1 p mrs) = loc_Exact).
Proof.
  intros Hm.
  pose (I := fun (k : Z) (x : shr_record) =>
    shr_m x = shr_m mrs / 2 ^ k /\
    (loc_of_shr_record mrs = loc_Exact -> shr_m mrs mod 2 ^ Z.pos p = 0 ->
     k <= Z.pos p -> loc_of_shr_record x = loc_Exact)).
  assert (HI : I (0 + Z.pos p) (SpecFloat.iter_pos shr_1 p mrs)).
  { apply iter_pos_invariant; [|lia|].
    - intros k x Hk [Hx Hex].
      assert (Hx0 : 0 <= shr_m x).
      { rewrite Hx. apply Z.div_pos; [done|by apply pow2_gt0]. }
      destruct (shr_1_spec x Hx0) as (Hm1 & Hr1 & Hs1). split.
      + rewrite Hm1, Hx, Z.div_div by (pose proof (pow2_gt0 k); lia).
        rewrite pow2_split by lia. done.
      + intros Hl Hmod Hle. apply loc_Exact_flags.
        destruct (proj1 (loc_Exact_flags x) (Hex Hl Hmod ltac:(lia))) as [Hr Hs].
        rewrite Hr1, Hs1, Hr, Hs, Hx. split; [|done].
        apply (div_pow2_even _ (Z.pos p)); [lia|done].
    - split; [by rewrite Z.div_1_r|]. done. }
  destruct HI as [H1 H2]. rewrite Z.add_0_l in *. split; [done|].
  intros Hl Hmod. apply H2; [done|done|lia].
Qed.

(** [shr]: a shift by [n] when [n] is positive, nothing otherwise. *)
Lemma shr_spec (m : Z) (l : location) (e n : Z) :
  0 <= m ->
  (0 < n ->
   shr_m (shr (shr_record_of_loc m l) e n).1 = m / 2 ^ n /\
   (shr (shr_record_of_loc m l) e n).2 = e + n /\
   (l = loc_Exact -> m mod 2 ^ n = 0 ->
    loc_of_shr_record (shr (shr_record_of_loc m l) e n).1 = loc_Exact)) /\
  (n <= 0 -> shr (shr_record_of_loc m l) e n = (shr_record_of_loc m l, e)).
Proof.
  intros Hm. split; intros Hn.
  - destruct n as [|p|p]; try lia. cbn [shr fst snd].
    destruct (iter_shr_1_spec p (shr_record_of_loc m l)) as [H1 H2].
    + by rewrite shr_record_of_loc_m.
    + rewrite shr_record_of_loc_m in *. rewrite loc_of_shr_record_of_loc in H2. done.
  - destruct n as [|p|p]; try lia; done.
Qed.

Lemma round_nearest_even_bounds (m : Z) (l : location) :
  m <= round_nearest_even m l <= m + 1 /\
  (l = loc_Exact -> round_nearest_even m l = m).
Proof.
  destruct l as [|[| |]]; simpl; try (split; [lia|done]).
  destruct (Z.even m); split; (lia || done).
Qed.

(** The two shifts and the rounding of [binary_round_aux], step by step. *)
Lemma binary_round_aux_spec (s : bool) (m e : Z) (l : location) :
  0 <= m ->
  exists m1 e1 m2 m3 e3 : Z,
    (if 0 <? fexp64 (Zdigits2 m + e) - e
     then m1 = m / 2 ^ (fexp64 (Zdigits2 m + e) - e) /\ e1 = fexp64 (Zdigits2 m + e)
     else m1 = m /\ e1 = e) /\
    m1 <= m2 <= m1 + 1 /\
    (l = loc_Exact ->
     (fexp64 (Zdigits2 m + e) - e <= 0 \/ m mod 2 ^ (fexp64 (Zdigits2 m + e) - e) = 0) ->
     m2 = m1) /\
    (if 0 <? fexp64 (Zdigits2 m2 + e1) - e1
     then m3 = m2 / 2 ^ (fexp64 (Zdigits2 m2 + e1) - e1) /\ e3 = fexp64 (Zdigits2 m2 + e1)
     else m3 = m2 /\ e3 = e1) /\
    binary_round_aux prec emax s m e l =
      match m3 with
      | Z0 => S754_zero s
      | Zpos p => if e3 <=? 971 then S754_finite s p e3 else S754_infinity s
      | Zneg _ => S754_nan
      end.
Proof.
  intros Hm. unfold binary_round_aux, shr_fexp.
  set (n1 := fexp64 (Zdigits2 m + e) - e).
  destruct (shr_spec m l e n1 Hm) as [Hpos1 Hneg1].
  destruct (shr (shr_record_of_loc m l) e n1) as [mrs1 e1] eqn:Hshr1.
  cbn [fst snd] in Hpos1.
  set (m2 := round_nearest_even (shr_m mrs1) (loc_of_shr_record mrs1)).
  destruct (round_nearest_even_bounds (shr_m mrs1) (loc_of_shr_record mrs1))
    as [Hm2 Hm2ex]. fold m2 in Hm2, Hm2ex.
  assert (Hm1 : 0 <= shr_m mrs1 /\
    (if 0 <? n1 then shr_m mrs1 = m / 2 ^ n1 /\ e1 = fexp64 (Zdigits2 m + e)
     else shr_m mrs1 = m /\ e1 = e) /\
    (l = loc_Exact -> (n1 <= 0 \/ m mod 2 ^ n1 = 0) -> m2 = shr_m mrs1)).
  { destruct (Z.ltb_spec 0 n1) as [Hn|Hn].
    - destruct (Hpos1 Hn) as (H1 & H2 & H3). split; [|split].
      + rewrite H1. apply Z.div_pos; [done|apply pow2_gt0; lia].
      + split; [done|]. subst n1. lia.
      + intros Hl [Hle|Hmod]; [lia|]. apply Hm2ex. by apply H3.
    - specialize (Hneg1 Hn). injection Hneg1 as -> ->.
      rewrite shr_record_of_loc_m in *. split; [done|]. split; [done|].
      intros Hl _. apply Hm2ex. rewrite Hl. apply loc_of_shr_record_of_loc. }
  destruct Hm1 as (Hm1 & Hshape1 & Hexact).
  assert (Hm2' : 0 <= m2) by lia.
  set (n2 := fexp64 (Zdigits2 m2 + e1) - e1).
  destruct (shr_spec m2 loc_Exact e1 n2 Hm2') as [Hpos2 Hneg2].
  destruct (shr (shr_record_of_loc m2 loc_Exact) e1 n2) as [mrs2 e3] eqn:Hshr2.
  cbn [fst snd] in Hpos2.
  exists (shr_m mrs1), e1, m2, (shr_m mrs2), e3.
  split; [done|]. split; [done|]. split; [done|]. split; [|done].
  fold n2. destruct (Z.ltb_spec 0 n2) as [Hn|Hn].
  - destruct (Hpos2 Hn) as (H1 & H2 & _). split; [done|]. subst n2. lia.
  - specialize (Hneg2 Hn). injection Hneg2 as -> ->. split; reflexivity.
Qed.

Lemma Zdigits2_pow2 (d : Z) : 0 <= d -> Zdigits2 (2 ^ d) = d + 1.
Proof.
  intros Hd. apply Zdigits2_unique.
  - replace (d + 1 - 1) with d by lia. split; [lia|]. apply pow2_lt. lia.
  - by apply pow2_gt0.
  - lia.
Qed.

(** Digits of a successor: the same, or one more at a power of two. *)
Lemma Zdigits2_succ_cases (m : Z) :
  0 < m ->
  (Zdigits2 (m + 1) = Zdigits2 m /\ m + 1 < 2 ^ Zdigits2 m) \/
  (Zdigits2 (m + 1) = Zdigits2 m + 1 /\ m + 1 = 2 ^ Zdigits2 m).
Proof.
  intros Hm. pose proof (Zdigits2_bounds m Hm) as [Hlo Hhi].
  pose proof (Zdigits2_pos m Hm) as Hd.
  destruct (Z.eq_dec (m + 1) (2 ^ Zdigits2 m)) as [Heq|Hne].
  - right. split; [|done]. rewrite Heq. apply Zdigits2_pow2. lia.
  - left. split; [|lia]. apply Zdigits2_unique; lia.
Qed.

(** What [binary_round_aux] does to a mantissa that is not too short for
    its exponent: the first shift floors it onto the format's grid, the
    rounding goes up by at most one unit, and the result is in canonical
    form. *)
Lemma binary_round_aux_canonical (s : bool) (m e : Z) (l : location) :
  0 < m -> e <= fexp64 (Zdigits2 m + e) ->
  exists m1 e1 m2 m3 e3 : Z,
    e <= e1 /\ e1 = fexp64 (Zdigits2 m + e) /\
    0 <= m1 /\ m1 * 2 ^ (e1 - e) <= m < (m1 + 1) * 2 ^ (e1 - e) /\
    (0 < m1 -> e1 = fexp64 (Zdigits2 m1 + e1)) /\
    (m1 = 0 -> e1 = -1074) /\
    m1 <= m2 <= m1 + 1 /\
    (l = loc_Exact -> m1 * 2 ^ (e1 - e) = m -> m2 = m1) /\
    e1 <= e3 <= e1 + 1 /\ m3 * 2 ^ (e3 - e1) = m2 /\
    (0 < m3 -> e3 = fexp64 (Zdigits2 m3 + e3)) /\
    binary_round_aux prec emax s m e l =
      match m3 with
      | Z0 => S754_zero s
      | Zpos p => if e3 <=? 971 then S754_finite s p e3 else S754_infinity s
      | Zneg _ => S754_nan
      end.
Proof.
  intros Hm Hle.
  destruct (binary_round_aux_spec s m e l ltac:(lia))
    as (m1 & e1 & m2 & m3 & e3 & Hs1 & Hm2 & Hex & Hs2 & Hres).
  set (d := Zdigits2 m) in *. set (n1 := fexp64 (d + e) - e) in *.
  pose proof (Zdigits2_bounds m Hm) as [Hdlo Hdhi]. fold d in Hdlo, Hdhi.
  pose proof (Zdigits2_pos m Hm) as Hd. fold d in Hd.
  assert (Hn1 : 0 <= n1) by (subst n1; lia).
  pose proof (pow2_gt0 n1 Hn1) as Hp1.
  (* first shift *)
  assert (H1 : m1 = m / 2 ^ n1 /\ e1 = e + n1).
  { destruct (Z.ltb_spec 0 n1) as [Hn|Hn].
    - destruct Hs1 as [-> ->]. split; [done|]. subst n1. lia.
    - destruct Hs1 as [-> ->]. assert (n1 = 0) as -> by lia.
      rewrite Z.div_1_r. lia. }
  destruct H1 as [Hm1 He1].
  assert (Hn1' : e1 - e = n1) by lia.
  assert (Hfloor : m1 * 2 ^ n1 <= m < (m1 + 1) * 2 ^ n1).
  { rewrite Hm1. split.
    - rewrite Z.mul_comm. apply Z.mul_div_le. lia.
    - rewrite Z.mul_comm. replace (m / 2 ^ n1 + 1) with (Z.succ (m / 2 ^ n1)) by lia.
      apply Z.mul_succ_div_gt. lia. }
  assert (Hm1nn : 0 <= m1) by (rewrite Hm1; apply Z.div_pos; lia).
  assert (Hc1 : 0 < m1 -> e1 = fexp64 (Zdigits2 m1 + e1)).
  { intros Hpos. destruct (Z.lt_ge_cases n1 d) as [Hlt|Hge].
    - rewrite Hm1, Zdigits2_div_pow2 by (fold d; lia). fold d.
      replace (d - n1 + e1) with (d + e) by lia. subst n1. lia.
    - exfalso. assert (2 ^ d <= 2 ^ n1) by (apply pow2_le; lia).
      rewrite Hm1, Z.div_small in Hpos by lia. lia. }
  assert (Hc0 : m1 = 0 -> e1 = -1074).
  { intros H0. rewrite H0 in Hfloor. simpl in Hfloor.
    assert (d <= n1).
    { destruct (Z.le_gt_cases d n1) as [|Hgt]; [done|].
      assert (2 ^ n1 <= 2 ^ (d - 1)) by (apply pow2_le; lia). lia. }
    subst n1. fexp_lia. }
  (* second shift *)
  set (n2 := fexp64 (Zdigits2 m2 + e1) - e1) in *.
  assert (H2 : e1 <= e3 <= e1 + 1 /\ m3 * 2 ^ (e3 - e1) = m2 /\
               (0 < m3 -> e3 = fexp64 (Zdigits2 m3 + e3))).
  { destruct (Z.eq_dec m1 0) as [Hz|Hnz].
    - (* underflow to the smallest exponent *)
      specialize (Hc0 Hz). assert (Hm2' : m2 = 0 \/ m2 = 1) by lia.
      assert (Hn2 : n2 = 0).
      { subst n2. destruct Hm2' as [-> | ->]; simpl Zdigits2; fexp_lia. }
      rewrite Hn2 in Hs2. simpl in Hs2. destruct Hs2 as [-> ->].
      rewrite Z.sub_diag. simpl. split; [lia|]. split; [lia|].
      intros _. destruct Hm2' as [-> | ->]; [lia|]. simpl Zdigits2. fexp_lia.
    - specialize (Hc1 ltac:(lia)).
      pose proof (Zdigits2_pos m1 ltac:(lia)) as Hd1.
      assert (Hcase : m2 = m1 \/ m2 = m1 + 1) by lia.
      destruct Hcase as [-> | ->].
      + assert (Hn2 : n2 = 0) by (subst n2; lia).
        rewrite Hn2 in Hs2. simpl in Hs2. destruct Hs2 as [-> ->].
        rewrite Z.sub_diag. simpl. split; [lia|]. split; [lia|]. done.
      + destruct (Zdigits2_succ_cases m1 ltac:(lia)) as [[Hd2 _]|[Hd2 Hpow]].
        * assert (Hn2 : n2 = 0) by (subst n2; rewrite Hd2; lia).
          rewrite Hn2 in Hs2. simpl in Hs2. destruct Hs2 as [-> ->].
          rewrite Z.sub_diag. simpl. split; [lia|]. split; [lia|].
          intros _. rewrite Hd2. done.
        * destruct (Z.lt_ge_cases (Zdigits2 m1 + e1 - 53) (-1074)) as [Hsub|Hnorm].
          -- assert (Hn2 : n2 = 0) by (subst n2; rewrite Hd2; fexp_lia).
             rewrite Hn2 in Hs2. simpl in Hs2. destruct Hs2 as [-> ->].
             rewrite Z.sub_diag. simpl. split; [lia|]. split; [lia|].
             intros _. rewrite Hd2. fexp_lia.
          -- assert (Hn2 : n2 = 1) by (subst n2; rewrite Hd2; fexp_lia).
             rewrite Hn2 in Hs2. simpl in Hs2. destruct Hs2 as [-> ->].
             change (2 ^ 1) with 2.
             assert (Hhalf : (m1 + 1) / 2 = 2 ^ (Zdigits2 m1 - 1)).
             { rewrite Hpow. replace (Zdigits2 m1) with ((Zdigits2 m1 - 1) + 1) at 1 by lia.
               rewrite pow2_split by lia. change (2 ^ 1) with 2. apply Z.div_mul. lia. }
             rewrite Hhalf. split; [rewrite Hd2; fexp_lia|]. split.
             ++ replace (fexp64 (Zdigits2 (m1 + 1) + e1) - e1) with 1
                  by (rewrite Hd2; fexp_lia).
                change (2 ^ 1) with 2. rewrite Hpow.
                replace (Zdigits2 m1) with ((Zdigits2 m1 - 1) + 1) at 2 by lia.
                rewrite pow2_split by lia. done.
             ++ intros _. rewrite Zdigits2_pow2 by lia.
                rewrite Hd2. fexp_lia. }
  destruct H2 as (He3 & Hm3 & Hc3).
  exists m1, e1, m2, m3, e3. rewrite Hn1'.
  repeat split; try done; try lia.
  - intros Hl Heq. apply Hex; [done|]. right. fold n1. rewrite <- Heq.
    apply Z.mod_mul. lia.
Qed.

(** [binary_round_aux] never answers NaN for a mantissa that is not
    negative. *)
Lemma binary_round_aux_cases (s : bool) (m e : Z) (l : location) :
  0 <= m ->
  binary_round_aux prec emax s m e l = S754_zero s \/
  binary_round_aux prec emax s m e l = S754_infinity s \/
  exists (p : positive) (e3 : Z), binary_round_aux prec emax s m e l = S754_finite s p e3.
Proof.
  intros Hm.
  destruct (binary_round_aux_spec s m e l Hm)
    as (m1 & e1 & m2 & m3 & e3 & Hs1 & Hm2 & _ & Hs2 & ->).
  assert (0 <= m1).
  { destruct (Z.ltb_spec 0 (fexp64 (Zdigits2 m + e) - e)); destruct Hs1 as [-> _]; [|done].
    apply Z.div_pos; [done|]. apply pow2_gt0. lia. }
  assert (0 <= m3).
  { destruct (Z.ltb_spec 0 (fexp64 (Zdigits2 m2 + e1) - e1)); destruct Hs2 as [-> _]; [|lia].
    apply Z.div_pos; [lia|]. apply pow2_gt0. lia. }
  destruct m3 as [|p|p]; [by left| |lia].
  destruct (e3 <=? 971); [right; right; eauto|right; by left].
Qed.

(** No overflow for a mantissa and an exponent that are small enough. *)
Lemma binary_round_aux_bounded (s : bool) (m e : Z) (l : location) (E : Z) :
  0 <= m -> e <= E -> Zdigits2 m + e <= E + 53 -> -1074 <= E <= 970 ->
  binary_round_aux prec emax s m e l = S754_zero s \/
  exists (p : positive) (e3 : Z),
    binary_round_aux prec emax s m e l = S754_finite s p e3 /\ e3 <= E + 1.
Proof.
  intros Hm He Hd HE.
  destruct (binary_round_aux_spec s m e l Hm)
    as (m1 & e1 & m2 & m3 & e3 & Hs1 & Hm2 & _ & Hs2 & ->).
  pose proof (Zdigits2_nonneg m) as Hdm.
  assert (H1 : 0 <= m1 /\ e1 <= E /\ Zdigits2 m1 + e1 <= E + 53).
  { destruct (Z.ltb_spec 0 (fexp64 (Zdigits2 m + e) - e)) as [Hn|Hn];
      destruct Hs1 as [-> ->]; [|lia].
    set (n1 := fexp64 (Zdigits2 m + e) - e) in *.
    pose proof (pow2_gt0 n1 ltac:(lia)) as Hp.
    split; [apply Z.div_pos; lia|]. split; [fexp_lia|].
    destruct (Z.eq_dec m 0) as [->|Hne]; [rewrite Z.div_0_l by lia; simpl; fexp_lia|].
    destruct (Z.lt_ge_cases n1 (Zdigits2 m)) as [Hlt|Hge].
    - rewrite Zdigits2_div_pow2 by lia. subst n1. lia.
    - assert (2 ^ Zdigits2 m <= 2 ^ n1) by (apply pow2_le; lia).
      pose proof (Zdigits2_bounds m ltac:(lia)).
      rewrite Z.div_small by lia. simpl. fexp_lia. }
  destruct H1 as (Hm1 & He1 & Hd1).
  assert (Hd2 : Zdigits2 m2 <= Zdigits2 m1 + 1).
  { etransitivity; [apply (Zdigits2_mono m2 (m1 + 1)); lia|by apply Zdigits2_succ]. }
  assert (H3 : 0 <= m3 /\ e3 <= E + 1).
  { destruct (Z.ltb_spec 0 (fexp64 (Zdigits2 m2 + e1) - e1)) as [Hn|Hn];
      destruct Hs2 as [-> ->]; [|lia].
    split; [|fexp_lia]. apply Z.div_pos; [lia|]. apply pow2_gt0. lia. }
  destruct H3 as [Hm3 He3].
  destruct m3 as [|p|p]; [by left| |lia].
  right. exists p, e3. destruct (Z.leb_spec e3 971); [done|lia].
Qed.

(** [shl_align]: the mantissa moved to the smaller exponent. *)
Lemma shl_align_spec (mx : positive) (ex ex' : Z) :
  (shl_align mx ex ex').2 = Z.min ex ex' /\
  Z.pos (shl_align mx ex ex').1 = Z.pos mx * 2 ^ (ex - Z.min ex ex').
Proof.
  unfold shl_align. destruct (ex' - ex) as [|d|d] eqn:Hd; cbn [fst snd].
  - rewrite Z.min_l by lia. rewrite Z.sub_diag. simpl. lia.
  - rewrite Z.min_l by lia. rewrite Z.sub_diag. simpl. lia.
  - rewrite Z.min_r by lia. split; [done|].
    replace (ex - ex') with (Z.pos d) by lia.
    change (Pos.iter xO mx d) with (shift_pos d mx).
    rewrite shift_pos_correct, Zpower_pos_nat, Zpower_nat_Z, positive_nat_Z. lia.
Qed.

(** [binary_round] on a positive mantissa, in terms of what it does to
    [mx * 2 ^ ex]. *)
Lemma binary_round_canonical (s : bool) (mx : positive) (ex : Z) :
  exists e0 m1 e1 m2 m3 e3 : Z,
    e0 = Z.min ex (fexp64 (Zdigits2 (Z.pos mx) + ex)) /\
    e1 = fexp64 (Zdigits2 (Z.pos mx) + ex) /\
    0 <= m1 /\
    m1 * 2 ^ (e1 - e0) <= Z.pos mx * 2 ^ (ex - e0) < (m1 + 1) * 2 ^ (e1 - e0) /\
    (0 < m1 -> e1 = fexp64 (Zdigits2 m1 + e1)) /\
    (m1 = 0 -> e1 = -1074) /\
    m1 <= m2 <= m1 + 1 /\
    (m1 * 2 ^ (e1 - e0) = Z.pos mx * 2 ^ (ex - e0) -> m2 = m1) /\
    e1 <= e3 <= e1 + 1 /\ m3 * 2 ^ (e3 - e1) = m2 /\
    (0 < m3 -> e3 = fexp64 (Zdigits2 m3 + e3)) /\
    binary_round prec emax s mx ex =
      match m3 with
      | Z0 => S754_zero s
      | Zpos p => if e3 <=? 971 then S754_finite s p e3 else S754_infinity s
      | Zneg _ => S754_nan
      end.
Proof.
  unfold binary_round.
  change (Z.pos (digits2_pos mx)) with (Zdigits2 (Z.pos mx)).
  destruct (shl_align_spec mx ex (fexp64 (Zdigits2 (Z.pos mx) + ex))) as [He0 Hm0].
  destruct (shl_align mx ex _) as [mz ez]. cbn [fst snd] in He0, Hm0.
  rewrite <- He0 in Hm0.
  assert (Hdz : Zdigits2 (Z.pos mz) + ez = Zdigits2 (Z.pos mx) + ex).
  { rewrite Hm0, Zdigits2_mul_pow2 by lia. lia. }
  destruct (binary_round_aux_canonical s (Z.pos mz) ez loc_Exact ltac:(lia))
    as (m1 & e1 & m2 & m3 & e3 & H1 & H2 & H3 & H4 & H5 & H6 & H7 & H8 & H9 & H10 & H11 & H12).
  { rewrite Hdz. lia. }
  rewrite Hdz in H2. rewrite Hm0 in H4, H8.
  exists ez, m1, e1, m2, m3, e3.
  repeat split; try done; try lia.
  intros Heq. by apply H8.
Qed.

Lemma canonical_bounds (m e : Z) :
  canonical m e -> -1074 <= e /\ Zdigits2 m <= 53 /\ (-1074 < e -> Zdigits2 m = 53).
Proof. intros [Hm He]. fexp_lia. Qed.

Lemma val_shift (m e e' : Z) :
  -1074 <= e <= e' -> val m e' = val (m * 2 ^ (e' - e)) e.
Proof.
  intros He. unfold val. replace (e' + 1074) with ((e' - e) + (e + 1074)) by lia.
  rewrite pow2_split by lia. lia.
Qed.

Lemma val_le_iff (m m' e : Z) : -1074 <= e -> val m e <= val m' e <-> m <= m'.
Proof.
  intros He. unfold val. pose proof (pow2_gt0 (e + 1074) ltac:(lia)). nia.
Qed.

Lemma val_lt_iff (m m' e : Z) : -1074 <= e -> val m e < val m' e <-> m < m'.
Proof.
  intros He. unfold val. pose proof (pow2_gt0 (e + 1074) ltac:(lia)). nia.
Qed.

Lemma val_eq_iff (m m' e : Z) : -1074 <= e -> val m e = val m' e <-> m = m'.
Proof.
  intros He. unfold val. pose proof (pow2_gt0 (e + 1074) ltac:(lia)). nia.
Qed.

Lemma val_digits (m e : Z) :
  0 < m -> -1074 <= e -> Zdigits2 (val m e) = Zdigits2 m + e + 1074.
Proof. intros Hm He. unfold val. rewrite Zdigits2_mul_pow2 by lia. lia. Qed.

(** Canonical numbers are ordered by their exponents first. *)
Lemma canonical_val_lt (m e m' e' : Z) :
  canonical m e -> canonical m' e' -> e < e' -> val m e < val m' e'.
Proof.
  intros Hc Hc' Hlt.
  destruct (canonical_bounds _ _ Hc) as (He & Hd & _).
  destruct (canonical_bounds _ _ Hc') as (He' & _ & Hd'). specialize (Hd' ltac:(lia)).
  destruct Hc as [Hm _], Hc' as [Hm' _].
  rewrite (val_shift m' e e') by lia. apply val_lt_iff; [done|].
  pose proof (Zdigits2_bounds m Hm) as [_ Hhi].
  pose proof (Zdigits2_bounds m' Hm') as [Hlo' _]. rewrite Hd' in Hlo'.
  assert (2 ^ Zdigits2 m <= 2 ^ 53) by (apply pow2_le; pose proof (Zdigits2_nonneg m); lia).
  assert (2 ^ 1 <= 2 ^ (e' - e)) by (apply pow2_le; lia).
  change (2 ^ 1) with 2 in *. change (2 ^ (53 - 1)) with (2 ^ 52) in Hlo'.
  change (2 ^ 53) with (2 * 2 ^ 52) in *. nia.
Qed.

Lemma canonical_val_le (m e m' e' : Z) :
  canonical m e -> canonical m' e' ->
  val m e <= val m' e' -> e < e' \/ (e = e' /\ m <= m').
Proof.
  intros Hc Hc' Hle.
  destruct (Z.lt_trichotomy e e') as [Hlt|[Heq|Hgt]]; [by left| |].
  - right. split; [done|]. subst e'. apply (val_le_iff m m' e); [|done].
    by destruct (canonical_bounds _ _ Hc).
  - pose proof (canonical_val_lt _ _ _ _ Hc' Hc Hgt). lia.
Qed.

(** Rounding to nearest is monotone at the numbers of the format: what is
    at most a representable number is rounded to at most that number. *)
Lemma binary_round_le (K : positive) (ez mV eV : Z) :
  -1074 <= ez -> canonical mV eV -> eV <= 971 ->
  val (Z.pos K) ez <= val mV eV ->
  binary_round prec emax false K ez = S754_zero false \/
  exists (p : positive) (e3 : Z),
    binary_round prec emax false K ez = S754_finite false p e3 /\
    canonical (Z.pos p) e3 /\
    (e3 < eV \/ (e3 = eV /\ Z.pos p <= mV)).
Proof.
  intros Hez HcV HeV Hle.
  destruct (binary_round_canonical false K ez)
    as (e0 & m1 & e1 & m2 & m3 & e3 & He0 & He1 & Hm1 & Hfloor & Hc1 & Hc0 & Hm2
        & Hex & He3 & Hm3 & Hc3 & ->).
  assert (He1' : -1074 <= e1) by (rewrite He1; fexp_lia).
  assert (He0' : -1074 <= e0 /\ e0 <= ez /\ e0 <= e1) by lia.
  destruct (canonical_bounds _ _ HcV) as (HeV' & HdV & _).
  (* the floor, as values *)
  assert (Hfl : val m1 e1 <= val (Z.pos K) ez < val (m1 + 1) e1).
  { rewrite (val_shift m1 e0 e1), (val_shift (m1 + 1) e0 e1), (val_shift (Z.pos K) e0 ez)
      by lia.
    split; [apply val_le_iff|apply val_lt_iff]; lia. }
  assert (Hv3 : val m3 e3 = val m2 e1).
  { rewrite (val_shift m3 e1 e3) by lia. by rewrite Hm3. }
  (* the rounded value is at most the bound *)
  assert (Hv2 : val m2 e1 <= val mV eV).
  { destruct (Z.eq_dec m2 m1) as [->|Hup]; [lia|].
    assert (m2 = m1 + 1) as -> by lia.
    assert (Hstrict : val m1 e1 < val mV eV).
    { destruct (Z.eq_dec (val m1 e1) (val (Z.pos K) ez)) as [Heq|Hne]; [|lia].
      exfalso. apply Hup, Hex.
      rewrite (val_shift m1 e0 e1), (val_shift (Z.pos K) e0 ez) in Heq by lia.
      apply val_eq_iff in Heq; lia. }
    destruct (Z.le_gt_cases e1 eV) as [Hcase|Hcase].
    - rewrite (val_shift mV e1 eV) in * by lia.
      apply val_lt_iff in Hstrict; [|lia]. apply val_le_iff; lia.
    - exfalso. assert (0 < m1) by (destruct (Z.eq_dec m1 0) as [Hz|]; [specialize (Hc0 Hz)|]; lia).
      pose proof (canonical_val_lt mV eV m1 e1 HcV (conj H (Hc1 H)) Hcase). lia. }
  destruct m3 as [|p|p]; [by left| |].
  - right. assert (Hcan : canonical (Z.pos p) e3) by (split; [lia|apply Hc3; lia]).
    destruct (canonical_val_le _ _ _ _ Hcan HcV ltac:(lia)) as [Hlt|[Heq Hm]].
    + exists p, e3. destruct (Z.leb_spec e3 971); [|lia]. split; [done|]. split; [done|by left].
    + exists p, e3. destruct (Z.leb_spec e3 971); [|lia]. split; [done|]. split; [done|by right].
  - exfalso. assert (0 <= 2 ^ (e3 - e1)) by (apply Z.pow_nonneg; lia). nia.
Qed.

(** A number of the format is rounded to itself. *)
Lemma binary_round_exact (K : positive) (ez : Z) (pV : positive) (eV : Z) :
  -1074 <= ez -> canonical (Z.pos pV) eV -> eV <= 971 ->
  val (Z.pos K) ez = val (Z.pos pV) eV ->
  binary_round prec emax false K ez = S754_finite false pV eV.
Proof.
  intros Hez HcV HeV Heq.
  destruct (binary_round_canonical false K ez)
    as (e0 & m1 & e1 & m2 & m3 & e3 & He0 & He1 & Hm1 & Hfloor & Hc1 & Hc0 & Hm2
        & Hex & He3 & Hm3 & Hc3 & ->).
  destruct (canonical_bounds _ _ HcV) as (HeV' & HdV & _).
  assert (Hmag : Zdigits2 (Z.pos K) + ez = Zdigits2 (Z.pos pV) + eV).
  { pose proof (val_digits (Z.pos K) ez ltac:(lia) Hez) as H1.
    pose proof (val_digits (Z.pos pV) eV ltac:(lia) HeV') as H2.
    rewrite Heq in H1. lia. }
  assert (He1V : e1 = eV) by (destruct HcV as [_ HcV]; rewrite He1, Hmag; done).
  rewrite <- He1 in He0. clear He1. subst e1.
  assert (He0' : -1074 <= e0 /\ e0 <= ez /\ e0 <= eV) by lia.
  assert (HKV : Z.pos K * 2 ^ (ez - e0) = Z.pos pV * 2 ^ (eV - e0)).
  { rewrite (val_shift (Z.pos K) e0 ez), (val_shift (Z.pos pV) e0 eV) in Heq by lia.
    apply val_eq_iff in Heq; lia. }
  rewrite HKV in Hfloor, Hex.
  pose proof (pow2_gt0 (eV - e0) ltac:(lia)) as Hp.
  assert (m1 = Z.pos pV) as -> by nia.
  specialize (Hex eq_refl). rewrite Hex in *. clear Hex Hm2.
  assert (Hm3pos : 0 < m3).
  { destruct (Z.le_gt_cases m3 0); [|done].
    assert (0 <= 2 ^ (e3 - eV)) by (apply Z.pow_nonneg; lia). nia. }
  specialize (Hc3 Hm3pos).
  assert (e3 = eV).
  { destruct (Z.eq_dec e3 eV) as [|Hne]; [done|]. exfalso.
    assert (e3 = eV + 1) as -> by lia.
    replace (eV + 1 - eV) with 1 in Hm3 by lia. change (2 ^ 1) with 2 in Hm3.
    assert (Hd3 : Zdigits2 (Z.pos pV) = Zdigits2 m3 + 1).
    { rewrite <- Hm3. change 2 with (2 ^ 1). apply Zdigits2_mul_pow2; lia. }
    destruct HcV as [_ HcV]. rewrite Hd3 in HcV.
    replace (Zdigits2 m3 + (eV + 1)) with (Zdigits2 m3 + 1 + eV) in Hc3 by lia. lia. }
  subst e3. rewrite Z.sub_diag in Hm3. simpl in Hm3. rewrite Z.mul_1_r in Hm3. subst m3.
  destruct (Z.leb_spec eV 971); [done|lia].
Qed.

(** *** Comparisons *)

Lemma SFcompare_finite (m e m' e' : Z) (p p' : positive) :
  SFcompare (S754_finite false p e) (S754_finite false p' e') =
    Some (match e ?= e' with
          | Lt => Lt
          | Gt => Gt
          | Eq => (Z.pos p ?= Z.pos p')
          end).
Proof. reflexivity. Qed.

Lemma SFleb_finite (p p' : positive) (e e' : Z) :
  SFleb (S754_finite false p e) (S754_finite false p' e') = true <->
  e < e' \/ (e = e' /\ Z.pos p <= Z.pos p').
Proof.
  unfold SFleb, SFcompare.
  destruct (Z.compare_spec e e') as [Heq|Hlt|Hgt].
  - change (Pos.compare_cont Eq p p') with (Z.pos p ?= Z.pos p').
    destruct (Z.compare_spec (Z.pos p) (Z.pos p')); split; (done || lia).
  - split; [by left|done].
  - split; [done|lia].
Qed.

Lemma SFltb_finite (p p' : positive) (e e' : Z) :
  SFltb (S754_finite false p e) (S754_finite false p' e') = true <->
  e < e' \/ (e = e' /\ Z.pos p < Z.pos p').
Proof.
  unfold SFltb, SFcompare.
  destruct (Z.compare_spec e e') as [Heq|Hlt|Hgt].
  - change (Pos.compare_cont Eq p p') with (Z.pos p ?= Z.pos p').
    destruct (Z.compare_spec (Z.pos p) (Z.pos p')); split; (done || lia).
  - split; [by left|done].
  - split; [done|lia].
Qed.

(** ** Primitive floats through their specification *)

Lemma valid_finite (s : bool) (p : positive) (e : Z) :
  valid_binary (S754_finite s p e) = true <-> canonical (Z.pos p) e /\ e <= 971.
Proof.
  unfold valid_binary, SpecFloat.valid_binary, bounded, canonical_mantissa, canonical.
  rewrite andb_true_iff, Z.eqb_eq, Z.leb_le.
  change (Z.pos (digits2_pos p)) with (Zdigits2 (Z.pos p)).
  change (emax - prec) with 971. split; intros [H1 H2]; repeat split; (lia || tauto).
Qed.

Lemma Prim2SF_finite_canonical (x : float) (s : bool) (p : positive) (e : Z) :
  Prim2SF x = S754_finite s p e -> canonical (Z.pos p) e /\ e <= 971.
Proof.
  intros Hx. apply (valid_finite s). rewrite <- Hx. apply Prim2SF_valid.
Qed.

Lemma float64_spec (n : Z) :
  0 <= n < 2 ^ 63 ->
  Prim2SF (Go.float64 n) = binary_normalize prec emax n 0 false.
Proof.
  intros Hn. unfold Go.float64. destruct (Z.leb_spec 0 n); [|lia].
  rewrite of_uint63_spec, Uint63.of_Z_spec.
  rewrite Z.mod_small; [done|]. change wB with (2 ^ 63). lia.
Qed.

(** A positive integer below [2 ^ 63] converts to a positive normal
    number between 1 and [2 ^ 64]. *)
Lemma float64_pos (n : Z) :
  0 < n < 2 ^ 63 ->
  exists (p : positive) (e : Z),
    Prim2SF (Go.float64 n) = S754_finite false p e /\
    canonical (Z.pos p) e /\ -52 <= e <= 11.
Proof.
  intros Hn. rewrite float64_spec by lia.
  destruct n as [|k|k]; try lia. cbn [binary_normalize].
  destruct (binary_round_canonical false k 0)
    as (e0 & m1 & e1 & m2 & m3 & e3 & He0 & He1 & Hm1 & Hfloor & Hc1 & Hc0 & Hm2
        & Hex & He3 & Hm3 & Hc3 & ->).
  pose proof (Zdigits2_pos (Z.pos k) ltac:(lia)) as Hd.
  assert (Hd63 : Zdigits2 (Z.pos k) <= 63) by (apply Zdigits2_le; lia).
  assert (He1' : -52 <= e1 <= 10) by (rewrite He1; fexp_lia).
  assert (0 < m1) by (destruct (Z.eq_dec m1 0) as [Hz|]; [specialize (Hc0 Hz)|]; lia).
  assert (0 < m3).
  { destruct (Z.le_gt_cases m3 0); [|done].
    assert (0 <= 2 ^ (e3 - e1)) by (apply Z.pow_nonneg; lia). nia. }
  destruct m3 as [|p|p]; try lia.
  exists p, e3. destruct (Z.leb_spec e3 971); [|lia].
  split; [done|]. split; [split; [lia|by apply Hc3]|lia].
Qed.

Lemma float64_0 : Prim2SF (Go.float64 0) = S754_zero false.
Proof. reflexivity. Qed.

Lemma int_canonical (n : Z) :
  0 < n <= 2 ^ 53 ->
  canonical (int_mantissa n) (int_exponent n) /\
  val (int_mantissa n) (int_exponent n) = val n 0 /\
  -52 <= int_exponent n <= 1.
Proof.
  intros Hn. unfold int_mantissa, int_exponent.
  pose proof (Zdigits2_pos n ltac:(lia)) as Hd.
  pose proof (Zdigits2_bounds n ltac:(lia)) as [Hlo Hhi].
  destruct (Z.leb_spec (Zdigits2 n) 53) as [Hle|Hgt].
  - pose proof (pow2_gt0 (53 - Zdigits2 n) ltac:(lia)) as Hp.
    split; [|split; [|lia]].
    + split; [nia|]. rewrite Zdigits2_mul_pow2 by lia. fexp_lia.
    + unfold val. rewrite <- Z.mul_assoc, <- pow2_split by lia.
      f_equal. f_equal. lia.
  - assert (n = 2 ^ 53) as Heq.
    { assert (2 ^ 53 <= 2 ^ (Zdigits2 n - 1)) by (apply pow2_le; lia). lia. }
    assert (Hd54 : Zdigits2 n = 54) by (rewrite Heq; reflexivity).
    rewrite Hd54, Heq. split; [|split; [|lia]].
    + split; [reflexivity|reflexivity].
    + reflexivity.
Qed.

Lemma float64_exact (n : Z) :
  0 < n <= 2 ^ 53 ->
  Prim2SF (Go.float64 n) =
    S754_finite false (Z.to_pos (int_mantissa n)) (int_exponent n).
Proof.
  intros Hn. rewrite float64_spec by lia.
  destruct (int_canonical n Hn) as (Hc & Hv & He).
  destruct n as [|k|k]; try lia. cbn [binary_normalize].
  assert (Hpos : 0 < int_mantissa (Z.pos k)) by (by destruct Hc).
  apply binary_round_exact; [lia| | |]; rewrite ?Z2Pos.id by lia; (done || lia).
Qed.

Lemma finite_nonneg_nonneg (x : spec_float) : finite_nonneg x -> nonneg x.
Proof. by destruct x as [?|[|]| |[|] ? ?]. Qed.

Lemma nonneg_leb (x : spec_float) : SFleb (S754_zero false) x = true <-> nonneg x.
Proof. destruct x as [?|[|]| |[|] ? ?]; simpl; split; done. Qed.

Lemma binary_round_aux_nonneg (m e : Z) (l : location) :
  0 <= m -> nonneg (binary_round_aux prec emax false m e l).
Proof.
  intros Hm. destruct (binary_round_aux_cases false m e l Hm) as [->|[->|(p & e3 & ->)]]; done.
Qed.

Lemma binary_round_nonneg (k : positive) (e : Z) :
  nonneg (binary_round prec emax false k e).
Proof.
  unfold binary_round. destruct (shl_align k e _) as [mz ez].
  apply binary_round_aux_nonneg. lia.
Qed.

Lemma SFmul_nonneg (x y : spec_float) :
  finite_nonneg x -> finite_nonneg y -> nonneg (SF64mul x y).
Proof.
  destruct x as [?|[|]| |[|] px ex], y as [?|[|]| |[|] py ey]; try done.
  intros _ _. cbn [SF64mul SFmul xorb]. apply binary_round_aux_nonneg. lia.
Qed.

Lemma SFadd_nonneg (x y : spec_float) :
  nonneg x -> nonneg y -> nonneg (SF64add x y).
Proof.
  destruct x as [[|]|[|]| |[|] px ex], y as [[|]|[|]| |[|] py ey]; try done.
  intros _ _. cbn [SF64add SFadd cond_Zopp].
  destruct (shl_align px ex _) as [mx' ex'], (shl_align py ey _) as [my' ey'].
  cbn [fst Z.add binary_normalize]. apply binary_round_nonneg.
Qed.

(** The quotient of two numbers between 1 and [2 ^ 64] is finite. *)
Lemma SFdiv_finite (p1 p2 : positive) (e1 e2 : Z) :
  canonical (Z.pos p1) e1 -> canonical (Z.pos p2) e2 ->
  -52 <= e1 <= 11 -> -52 <= e2 <= 11 ->
  finite_nonneg (SF64div (S754_finite false p1 e1) (S754_finite false p2 e2)) /\
  (forall p e, SF64div (S754_finite false p1 e1) (S754_finite false p2 e2)
               = S754_finite false p e -> e <= 64).
Proof.
  intros Hc1 Hc2 He1 He2. cbn [SF64div SFdiv xorb]. unfold SFdiv_core_binary.
  destruct (canonical_bounds _ _ Hc1) as (_ & Hd1 & _).
  set (e' := Z.min _ _). set (s := e1 - e2 - e').
  assert (He' : e' <= e1 - e2) by (subst e'; lia).
  assert (Hs : 0 <= s) by (subst s; lia).
  set (m' := match s with Z.pos _ => Z.shiftl (Z.pos p1) s | 0 => Z.pos p1 | Z.neg _ => 0 end).
  assert (Hm' : m' = Z.pos p1 * 2 ^ s).
  { subst m'. destruct s as [|q|q] eqn:Hq; [simpl; lia| |lia].
    rewrite Z.shiftl_mul_pow2 by lia. done. }
  pose proof (Z_div_mod m' (Z.pos p2) ltac:(lia)) as Hdm.
  destruct (Z.div_eucl m' (Z.pos p2)) as [q r]. destruct Hdm as [Hq Hr].
  pose proof (pow2_gt0 s Hs) as Hp.
  assert (Hq0 : 0 <= q) by nia.
  assert (Hqle : q <= m') by nia.
  assert (Hdq : Zdigits2 q + e' <= 63 + 53).
  { pose proof (Zdigits2_mono q m' ltac:(lia)) as Hmono.
    rewrite Hm', Zdigits2_mul_pow2 in Hmono by lia. subst s. lia. }
  destruct (binary_round_aux_bounded false q e' (new_location (Z.pos p2) r) 63)
    as [->|(p & e3 & -> & He3)]; try lia.
  - split; [done|]. intros ? ? [=].
  - split; [done|]. intros ? ? [= <- <-]. lia.
Qed.

Lemma canonical_lt_pow2 (m e : Z) : canonical m e -> 0 < m < 2 ^ 53.
Proof.
  intros Hc. destruct (canonical_bounds _ _ Hc) as (_ & Hd & _). destruct Hc as [Hm _].
  pose proof (Zdigits2_bounds m Hm) as [_ Hhi].
  assert (2 ^ Zdigits2 m <= 2 ^ 53) by (apply pow2_le; pose proof (Zdigits2_nonneg m); lia).
  lia.
Qed.

(** The sum of two positive numbers of moderate size is finite. *)
Lemma SFadd_finite (pa pb : positive) (ea eb : Z) :
  canonical (Z.pos pa) ea -> canonical (Z.pos pb) eb ->
  ea <= 900 -> eb <= 900 ->
  finite_nonneg (SF64add (S754_finite false pa ea) (S754_finite false pb eb)).
Proof.
  intros Hca Hcb Hea Heb. cbn [SF64add SFadd cond_Zopp].
  destruct (shl_align_spec pa ea (Z.min ea eb)) as [_ Ha].
  destruct (shl_align_spec pb eb (Z.min ea eb)) as [_ Hb].
  destruct (shl_align pa ea _) as [ma' ea'], (shl_align pb eb _) as [mb' eb'].
  cbn [fst snd] in *. cbn [Z.add binary_normalize].
  set (ez := Z.min ea eb) in *.
  rewrite (Z.min_r ea ez) in Ha by lia. rewrite (Z.min_r eb ez) in Hb by lia.
  change (Z.pos ma' + Z.pos mb') with (Z.pos (ma' + mb')). cbn [binary_normalize].
  destruct (binary_round_canonical false (ma' + mb') ez)
    as (e0 & m1 & e1 & m2 & m3 & e3 & He0 & He1 & Hm1 & Hfloor & Hc1 & Hc0 & Hm2
        & Hex & He3 & Hm3 & Hc3 & ->).
  destruct (canonical_bounds _ _ Hca) as (Hea' & _ & _).
  destruct (canonical_bounds _ _ Hcb) as (Heb' & _ & _).
  pose proof (canonical_lt_pow2 _ _ Hca) as Hpa.
  pose proof (canonical_lt_pow2 _ _ Hcb) as Hpb.
  assert (HdK : Zdigits2 (Z.pos (ma' + mb')) <= 54 + 900 - ez).
  { apply Zdigits2_le; [|lia]. rewrite Pos2Z.inj_add, Ha, Hb.
    replace (54 + 900 - ez) with (1 + (53 + (900 - ez))) by lia.
    rewrite !pow2_split by lia. change (2 ^ 1) with 2.
    assert (2 ^ (ea - ez) <= 2 ^ (900 - ez)) by (apply pow2_le; lia).
    assert (2 ^ (eb - ez) <= 2 ^ (900 - ez)) by (apply pow2_le; lia).
    pose proof (pow2_gt0 (ea - ez) ltac:(lia)). pose proof (pow2_gt0 (eb - ez) ltac:(lia)).
    nia. }
  assert (He3' : e3 <= 971) by (rewrite He1 in He3; fexp_lia).
  assert (0 <= m3).
  { destruct (Z.le_gt_cases 0 m3); [done|].
    assert (0 < 2 ^ (e3 - e1)) by (apply pow2_gt0; lia). nia. }
  destruct m3 as [|p|p]; [done| |lia].
  destruct (Z.leb_spec e3 971); [done|lia].
Qed.

(** Subtracting one from a number that is at least one: the result is
    not negative and not above the number. *)
Lemma SFsub_one (p : positive) (e : Z) :
  canonical (Z.pos p) e -> e <= 971 ->
  SFleb (S754_finite false 4503599627370496 (-52)) (S754_finite false p e) = true ->
  SF64sub (S754_finite false p e) (S754_finite false 4503599627370496 (-52))
    = S754_zero false \/
  exists (p3 : positive) (e3 : Z),
    SF64sub (S754_finite false p e) (S754_finite false 4503599627370496 (-52))
      = S754_finite false p3 e3 /\
    canonical (Z.pos p3) e3 /\
    (e3 < e \/ (e3 = e /\ Z.pos p3 <= Z.pos p)).
Proof.
  intros Hc He Hone. apply SFleb_finite in Hone.
  destruct (canonical_bounds _ _ Hc) as (_ & _ & Hd).
  assert (He52 : -52 <= e) by lia.
  assert (Hp52 : 2 ^ 52 <= Z.pos p).
  { destruct Hone as [Hlt|[_ Hle]]; [|done].
    specialize (Hd ltac:(lia)). pose proof (Zdigits2_bounds (Z.pos p) ltac:(lia)) as [Hlo _].
    rewrite Hd in Hlo. done. }
  cbn [SF64sub SFsub cond_Zopp].
  destruct (shl_align_spec p e (Z.min e (-52))) as [_ Ha].
  destruct (shl_align_spec 4503599627370496 (-52) (Z.min e (-52))) as [_ Hb].
  destruct (shl_align p e _) as [ma ea], (shl_align 4503599627370496 (-52) _) as [mb eb].
  cbn [fst snd] in *.
  assert (Hmin : Z.min e (-52) = -52) by lia.
  rewrite !Hmin in Ha, Hb. rewrite Hmin.
  replace (e - Z.min e (-52)) with (e - -52) in Ha by lia. clear Hmin.
  change (Z.pos 4503599627370496 * 2 ^ (-52 - Z.min (-52) (-52))) with (2 ^ 52) in Hb.
  pose proof (pow2_gt0 (e - -52) ltac:(lia)) as Hpw.
  destruct (Z.pos ma - Z.pos mb) as [|k|k] eqn:HK; cbn [binary_normalize]; [by left| |nia].
  destruct (binary_round_le k (-52) (Z.pos p) e ltac:(lia) Hc He)
    as [->|(p3 & e3 & -> & Hc3 & Hlex)]; [|by left|right; eauto].
  rewrite (val_shift (Z.pos p) (-52) e) by lia.
  apply val_le_iff; [lia|]. nia.
Qed.

(** ** Token bucket *)

Section TokenBucket.
Import ratelimit.

(** [float64] of a non-negative [int]. *)
Lemma float64_nonneg_cases (n : Z) :
  0 <= n < 2 ^ 63 ->
  Prim2SF (Go.float64 n) = S754_zero false \/
  exists (p : positive) (e : Z),
    Prim2SF (Go.float64 n) = S754_finite false p e /\
    canonical (Z.pos p) e /\ -52 <= e <= 11.
Proof.
  intros Hn. destruct (Z.eq_dec n 0) as [->|Hne].
  - left. apply float64_0.
  - right. apply float64_pos. lia.
Qed.

(** [d.Seconds()] of a non-negative duration is a finite non-negative
    number. *)
Lemma Seconds_finite_nonneg (d : Go.Duration) :
  0 <= d <= Go.MaxInt64 -> finite_nonneg (Prim2SF (Go.Seconds d)).
Proof.
  intros Hd. unfold Go.Seconds, Go.MaxInt64, Go.Second in *.
  rewrite add_spec, div_spec.
  assert (Hq : 0 <= d ÷ 1000000000 < 2 ^ 63).
  { rewrite Z.quot_div_nonneg by lia. split; [apply Z.div_pos; lia|].
    apply Z.div_lt_upper_bound; lia. }
  assert (Hr : 0 <= Z.rem d 1000000000 < 2 ^ 63).
  { rewrite Z.rem_mod_nonneg by lia.
    pose proof (Z.mod_pos_bound d 1000000000 ltac:(lia)). lia. }
  destruct (float64_pos 1000000000 ltac:(lia)) as (pG & eG & HG & HcG & HeG).
  rewrite HG.
  assert (Hdiv : Prim2SF (Go.float64 (Z.rem d 1000000000) / Go.float64 1000000000)
                 = SF64div (Prim2SF (Go.float64 (Z.rem d 1000000000)))
                     (S754_finite false pG eG)).
  { rewrite div_spec, HG. done. }
  destruct (float64_nonneg_cases _ Hr) as [Hz|(pr & er & Hfr & Hcr & Her)].
  - rewrite Hz. change (SF64div (S754_zero false) (S754_finite false pG eG))
      with (S754_zero false).
    destruct (float64_nonneg_cases _ Hq) as [Hz'|(pq & eq & Hfq & Hcq & Heq)].
    + rewrite Hz'. done.
    + rewrite Hfq. done.
  - rewrite Hfr in Hdiv |- *.
    destruct (SFdiv_finite pr pG er eG Hcr HcG Her HeG) as [Hfin Hexp].
    destruct (SF64div (S754_finite false pr er) (S754_finite false pG eG))
      as [sz| | |[|] pd ed] eqn:Hd'; try done.
    + destruct (float64_nonneg_cases _ Hq) as [Hz'|(pq & eq & Hfq & Hcq & Heq)].
      * rewrite Hz'. by destruct sz.
      * rewrite Hfq. done.
    + destruct (Prim2SF_finite_canonical _ _ _ _ Hdiv) as [Hcd _].
      specialize (Hexp pd ed eq_refl).
      destruct (float64_nonneg_cases _ Hq) as [Hz'|(pq & eq & Hfq & Hcq & Heq)].
      * rewrite Hz'. done.
      * rewrite Hfq. apply SFadd_finite; (done || lia).
Qed.

Lemma SFleb_refl_finite (p : positive) (e : Z) :
  SFleb (S754_finite false p e) (S754_finite false p e) = true.
Proof. apply SFleb_finite. lia. Qed.

Lemma SFleb_zero_finite (s : bool) (p : positive) (e : Z) :
  SFleb (S754_zero s) (S754_finite false p e) = true.
Proof. reflexivity. Qed.

(** Below a finite bound, among the non-negative numbers: not above it. *)
Lemma SFltb_false_leb (x : spec_float) (p : positive) (e : Z) :
  nonneg x -> SFltb (S754_finite false p e) x = false ->
  SFleb x (S754_finite false p e) = true.
Proof.
  destruct x as [s|[|]| |[|] q f]; try done.
  intros _ Hlt. apply SFleb_finite.
  destruct (Z.lt_trichotomy f e) as [?|[->|?]]; [lia| |].
  - destruct (Z.le_gt_cases (Z.pos q) (Z.pos p)); [lia|].
    rewrite (proj2 (SFltb_finite p q e e)) in Hlt; [done|lia].
  - rewrite (proj2 (SFltb_finite p q e f)) in Hlt; [done|lia].
Qed.

Lemma Prim2SF_one : Prim2SF 1 = S754_finite false 4503599627370496 (-52).
Proof. reflexivity. Qed.

Lemma Prim2SF_zero : Prim2SF 0 = S754_zero false.
Proof. reflexivity. Qed.

Lemma TokenBucket_inv_of_sound (tb : TokenBucket) :
  TokenBucket_sound tb -> TokenBucket_inv tb = true.
Proof.
  intros (_ & _ & Hnn & Hle). unfold TokenBucket_inv.
  rewrite !leb_spec, Prim2SF_zero, Hle, andb_true_r. by apply nonneg_leb.
Qed.

Lemma refill_sound (now : Go.Time) (tb : TokenBucket) :
  lastRefill tb <= now -> TokenBucket_sound tb ->
  nonneg (Prim2SF (refill now tb)) /\
  SFleb (Prim2SF (refill now tb)) (Prim2SF (maxTokens tb)) = true.
Proof.
  intros Hnow ((pM & eM & HM) & Hrr & Hnn & Hle). unfold refill.
  rewrite ltb_spec, HM.
  set (s := (tokens tb + Go.Seconds (Go.Sub now (lastRefill tb)) * refillRate tb)%float).
  assert (Hs : nonneg (Prim2SF s)).
  { unfold s. rewrite add_spec, mul_spec. apply SFadd_nonneg; [done|].
    apply SFmul_nonneg; [|done]. apply Seconds_finite_nonneg. by apply Sub_nonneg. }
  destruct (SFltb (S754_finite false pM eM) (Prim2SF s)) eqn:Hlt; cbv iota.
  - rewrite HM. split; [done|apply SFleb_refl_finite].
  - split; [done|]. by apply SFltb_false_leb.
Qed.

(** One call of [Allow] keeps the bucket sound. *)
Lemma TokenBucket_Allow_sound (now : Go.Time) (tb : TokenBucket) :
  lastRefill tb <= now -> TokenBucket_sound tb ->
  let tb' := (TokenBucket_Allow now tb).2 in
  TokenBucket_sound tb' /\ maxTokens tb' = maxTokens tb /\ lastRefill tb' = now.
Proof.
  intros Hnow Hs. destruct (refill_sound now tb Hnow Hs) as [Hnn Hle].
  destruct Hs as ((pM & eM & HM) & Hrr & _ & _).
  unfold TokenBucket_Allow. rewrite leb_spec, Prim2SF_one.
  destruct (SFleb _ (Prim2SF (refill now tb))) eqn:H1; cbn [snd].
  - split; [|done]. split; [by exists pM, eM|]. split; [done|]. cbn.
    rewrite sub_spec, Prim2SF_one, HM. rewrite HM in Hle.
    destruct (Prim2SF (refill now tb)) as [s|[|]| |[|] q f] eqn:Hr; try done.
    destruct (Prim2SF_finite_canonical _ _ _ _ Hr) as [Hc Hf].
    destruct (SFsub_one q f Hc Hf H1) as [->|(p3 & e3 & -> & Hc3 & Hlex)]; [done|].
    split; [done|]. apply SFleb_finite. apply SFleb_finite in Hle. lia.
  - split; [|done]. split; [by exists pM, eM|]. done.
Qed.

Lemma NewTokenBucket_sound (now : Go.Time) (r p : Z) :
  0 < r <= Go.MaxInt64 -> 0 < p <= Go.MaxInt64 ->
  TokenBucket_sound (NewTokenBucket now r p).
Proof.
  unfold Go.MaxInt64. intros Hr Hp.
  destruct (float64_pos r ltac:(lia)) as (pr & er & Hfr & Hcr & Her).
  destruct (float64_pos p ltac:(lia)) as (pp & ep & Hfp & Hcp & Hep).
  unfold TokenBucket_sound, NewTokenBucket. cbn.
  rewrite div_spec, Hfr, Hfp. split; [by exists pr, er|].
  split; [by apply SFdiv_finite|]. split; [done|apply SFleb_refl_finite].
Qed.

Lemma TokenBucket_run_sound (times : list Go.Time) (tb : TokenBucket) :
  nondecreasing_from (lastRefill tb) times -> TokenBucket_sound tb ->
  let tb' := (TokenBucket_run times tb).2 in
  TokenBucket_sound tb' /\ maxTokens tb' = maxTokens tb.
Proof.
  revert tb. induction times as [|now rest IH]; intros tb Hmono Hs; [done|].
  destruct Hmono as [Hnow Hrest]. cbn [TokenBucket_run].
  destruct (TokenBucket_Allow_sound now tb Hnow Hs) as (Hs1 & HM1 & HL1).
  destruct (TokenBucket_Allow now tb) as [ok tb1]. cbn [snd] in *.
  rewrite <- HL1 in Hrest. specialize (IH tb1 Hrest Hs1).
  destruct (TokenBucket_run rest tb1) as [oks tb2]. cbn [snd] in *.
  rewrite <- HM1. done.
Qed.

Lemma val_sub (a b e : Z) : val a e - val b e = val (a - b) e.
Proof. unfold val. lia. Qed.

(** Integers up to [2 ^ 53] are binary64 numbers: subtracting one is
    exact. *)
Lemma float64_sub_one (n : Z) :
  1 <= n <= 2 ^ 53 -> (Go.float64 n - 1)%float = Go.float64 (n - 1).
Proof.
  intros Hn. apply Prim2SF_inj.
  rewrite sub_spec, Prim2SF_one, float64_exact by lia.
  destruct (int_canonical n ltac:(lia)) as (Hc & Hv & He).
  set (e := int_exponent n) in *.
  assert (Hp : Z.pos (Z.to_pos (int_mantissa n)) = int_mantissa n)
    by (apply Z2Pos.id; by destruct Hc).
  set (p := Z.to_pos (int_mantissa n)) in *. rewrite <- Hp in Hc, Hv.
  cbn [SF64sub SFsub cond_Zopp].
  destruct (shl_align_spec p e (Z.min e (-52))) as [_ Ha].
  destruct (shl_align_spec 4503599627370496 (-52) (Z.min e (-52))) as [_ Hb].
  destruct (shl_align p e _) as [ma ea], (shl_align 4503599627370496 (-52) _) as [mb eb].
  cbn [fst snd] in *.
  assert (Hmin : Z.min e (-52) = -52) by lia.
  rewrite !Hmin in Ha, Hb. rewrite Hmin.
  replace (e - Z.min e (-52)) with (e - -52) in Ha by lia. clear Hmin.
  change (Z.pos 4503599627370496 * 2 ^ (-52 - Z.min (-52) (-52))) with (2 ^ 52) in Hb.
  assert (HK : val (Z.pos ma - Z.pos mb) (-52) = val (n - 1) 0).
  { rewrite <- !val_sub, Ha, Hb, <- (val_shift (Z.pos p) (-52) e), Hv by lia.
    reflexivity. }
  destruct (Z.eq_dec n 1) as [->|Hn1].
  - change (val (1 - 1) 0) with (val 0 (-52)) in HK.
    apply val_eq_iff in HK; [|lia]. rewrite HK. reflexivity.
  - rewrite float64_exact by lia.
    destruct (int_canonical (n - 1) ltac:(lia)) as (Hc' & Hv' & He').
    assert (Hp' : Z.pos (Z.to_pos (int_mantissa (n - 1))) = int_mantissa (n - 1))
      by (apply Z2Pos.id; by destruct Hc').
    assert (0 < Z.pos ma - Z.pos mb).
    { apply (val_lt_iff 0 _ (-52)); [lia|]. rewrite HK. unfold val. lia. }
    destruct (Z.pos ma - Z.pos mb) as [|k|k] eqn:HKk; try lia.
    cbn [binary_normalize]. apply binary_round_exact; [lia| |lia|].
    + by rewrite Hp'.
    + by rewrite Hp', HK, Hv'.
Qed.

(** [float64] is monotone on these integers. *)
Lemma float64_le (a b : Z) :
  0 <= a <= b -> b <= 2 ^ 53 ->
  (Go.float64 a <=? Go.float64 b)%float = true /\
  (Go.float64 b <? Go.float64 a)%float = false.
Proof.
  intros Hab Hb. rewrite leb_spec, ltb_spec.
  destruct (Z.eq_dec b 0) as [->|Hb0].
  { replace a with 0 by lia. done. }
  rewrite (float64_exact b) by lia.
  destruct (Z.eq_dec a 0) as [->|Ha0]; [done|].
  rewrite (float64_exact a) by lia.
  destruct (int_canonical a ltac:(lia)) as (Hca & Hva & Hea).
  destruct (int_canonical b ltac:(lia)) as (Hcb & Hvb & Heb).
  assert (Hpa : Z.pos (Z.to_pos (int_mantissa a)) = int_mantissa a)
    by (apply Z2Pos.id; by destruct Hca).
  assert (Hpb : Z.pos (Z.to_pos (int_mantissa b)) = int_mantissa b)
    by (apply Z2Pos.id; by destruct Hcb).
  assert (Hle : val (int_mantissa a) (int_exponent a)
                <= val (int_mantissa b) (int_exponent b)).
  { rewrite Hva, Hvb. apply val_le_iff; lia. }
  apply canonical_val_le in Hle; [|done..].
  split.
  - apply SFleb_finite. lia.
  - destruct (SFltb _ _) eqn:Hlt; [|done].
    apply SFltb_finite in Hlt. lia.
Qed.

Lemma Seconds_0 : Go.Seconds 0 = 0%float.
Proof. reflexivity. Qed.

(** No time elapsed: the refill adds nothing. *)
Lemma add_zero_elapsed (t rr : float) (n : Z) :
  0 <= n <= 2 ^ 53 -> t = Go.float64 n -> finite_nonneg (Prim2SF rr) ->
  (t + 0 * rr)%float = t.
Proof.
  intros Hn -> Hrr. apply Prim2SF_inj. rewrite add_spec, mul_spec, Prim2SF_zero.
  assert (Hz : exists s, SF64mul (S754_zero false) (Prim2SF rr) = S754_zero s).
  { destruct (Prim2SF rr) as [s|[|]| |[|] q f]; try done; by eexists. }
  destruct Hz as [s ->].
  destruct (Z.eq_dec n 0) as [->|Hn0].
  - rewrite float64_0. by destruct s.
  - rewrite float64_exact by lia. done.
Qed.

(** One call on a bucket that holds [n] whole tokens, with no time
    elapsed since the last one. *)
Lemma TokenBucket_Allow_whole (now : Go.Time) (tb : TokenBucket) (n r : Z) :
  0 <= n <= r -> r <= 2 ^ 53 ->
  tokens tb = Go.float64 n -> maxTokens tb = Go.float64 r ->
  finite_nonneg (Prim2SF (refillRate tb)) -> lastRefill tb = now ->
  TokenBucket_Allow now tb =
    (bool_decide (1 <= n),
     {| tokens := Go.float64 (if bool_decide (1 <= n) then n - 1 else n);
        maxTokens := maxTokens tb;
        refillRate := refillRate tb;
        lastRefill := now |}).
Proof.
  intros Hn Hr Ht HM Hrr Hlast.
  assert (Hrefill : refill now tb = Go.float64 n).
  { unfold refill. rewrite Hlast, Sub_self, Seconds_0.
    rewrite (add_zero_elapsed (tokens tb) (refillRate tb) n) by (done || lia).
    rewrite Ht, HM.
    destruct (float64_le n r ltac:(lia) Hr) as [_ ->]. done. }
  unfold TokenBucket_Allow. rewrite Hrefill.
  case_bool_decide as H1.
  - destruct (float64_le 1 n ltac:(lia) ltac:(lia)) as [Hle _].
    change (Go.float64 1) with 1%float in Hle. rewrite Hle.
    rewrite float64_sub_one by lia. done.
  - replace n with 0 by lia. done.
Qed.

(** A full bucket of [n] whole tokens serves [n] calls at one instant and
    refuses the next. *)
Lemma TokenBucket_run_whole (now : Go.Time) (k : nat) (tb : TokenBucket) (r : Z) :
  Z.of_nat k <= r -> r <= 2 ^ 53 ->
  tokens tb = Go.float64 (Z.of_nat k) -> maxTokens tb = Go.float64 r ->
  finite_nonneg (Prim2SF (refillRate tb)) -> lastRefill tb = now ->
  (TokenBucket_run (repeat now (S k)) tb).1 = repeat true k ++ [false].
Proof.
  revert tb. induction k as [|k IH]; intros tb Hk Hr Ht HM Hrr Hlast.
  - cbn [repeat TokenBucket_run].
    rewrite (TokenBucket_Allow_whole now tb 0 r) by (done || lia). done.
  - change (repeat now (S (S k))) with (now :: repeat now (S k)).
    cbn [TokenBucket_run].
    rewrite (TokenBucket_Allow_whole now tb (Z.of_nat (S k)) r) by (done || lia).
    rewrite bool_decide_eq_true_2 by lia.
    specialize (IH {| tokens := Go.float64 (Z.of_nat (S k) - 1);
                      maxTokens := maxTokens tb;
                      refillRate := refillRate tb;
                      lastRefill := now |}).
    destruct (TokenBucket_run (repeat now (S k)) _) as [oks tb2].
    cbn [fst repeat app]. f_equal. apply IH; cbn; try (done || lia).
    f_equal. lia.
Qed.

(** A call that leaves the bucket as it found it can be repeated for
    ever. *)
Lemma TokenBucket_run_fixpoint (now : Go.Time) (tb : TokenBucket) (k : nat) :
  TokenBucket_Allow now tb = (true, tb) ->
  TokenBucket_run (repeat now k) tb = (repeat true k, tb).
Proof.
  intros Hfix. induction k as [|k IH]; [done|].
  cbn [repeat TokenBucket_run]. rewrite Hfix, IH. done.
Qed.

Lemma repeat_true_not_denied (k : nat) :
  repeat true (S k) <> repeat true k ++ [false].
Proof.
  induction k as [|k IH]; [done|].
  intros Heq. apply IH. cbn [repeat app] in *. by injection Heq.
Qed.

End TokenBucket.

(** The unit tests [TestTokenBucket_Allow] and [TestTokenBucket_Refill],
    on a clock that stands still and then moves on by 600 ms. *)
Example TestTokenBucket_Allow :
  (ratelimit.TokenBucket_run [0; 0; 0; 0; 0; 0] (ratelimit.NewTokenBucket 0 5 1)).1
    = [true; true; true; true; true; false].
Proof. vm_compute. reflexivity. Qed.

Example TestTokenBucket_Refill :
  (ratelimit.TokenBucket_run [0; 0; 0; 600000000] (ratelimit.NewTokenBucket 0 2 1)).1
    = [true; true; false; true].
Proof. vm_compute. reflexivity. Qed.

(** C1, as stated, fails for the rate [2 ^ 60]: [float64(2 ^ 60) - 1]
    rounds back to [float64(2 ^ 60)], the bucket never loses a token, and
    the call after the first [2 ^ 60] ones is allowed as well. *)
Lemma TokenBucket_never_drains :
  (ratelimit.TokenBucket_run (repeat 0 (S (Z.to_nat (2 ^ 60))))
     (ratelimit.NewTokenBucket 0 (2 ^ 60) 1)).1
    <> repeat true (Z.to_nat (2 ^ 60)) ++ [false].
Proof.
  generalize (Z.to_nat (2 ^ 60)). intros k Heq.
  pose proof (TokenBucket_run_fixpoint 0 (ratelimit.NewTokenBucket 0 (2 ^ 60) 1) (S k)
                ltac:(vm_compute; reflexivity)) as Hrun.
  apply (f_equal fst) in Hrun. cbn [fst] in Hrun.
  apply (repeat_true_not_denied k). rewrite <- Hrun. exact Heq.
Qed.

(** C1, amended.  For a rate [r] between 1 and [2 ^ 53] and a period
    [p > 0], a token bucket just created allows exactly [r] calls of
    [Allow] made at the instant of its creation and denies the next one.
    And every call of [Allow] adds [elapsed * refillRate] to the tokens,
    caps the sum at [maxTokens], allows exactly when the result is at
    least 1, subtracts 1 when it allows, and records the time of the
    call. *)
Theorem TokenBucket_burst (r p : Z) (now : Go.Time) :
  0 < r <= 2 ^ 53 -> 0 < p <= Go.MaxInt64 ->
  (ratelimit.TokenBucket_run (repeat now (S (Z.to_nat r)))
     (ratelimit.NewTokenBucket now r p)).1
    = repeat true (Z.to_nat r) ++ [false]
  /\ forall (now' : Go.Time) (tb : ratelimit.TokenBucket),
      let elapsed := Go.Seconds (Go.Sub now' (ratelimit.lastRefill tb)) in
      let sum := (ratelimit.tokens tb + elapsed * ratelimit.refillRate tb)%float in
      let capped :=
        if (ratelimit.maxTokens tb <? sum)%float then ratelimit.maxTokens tb else sum in
      let after := (ratelimit.TokenBucket_Allow now' tb).2 in
      (ratelimit.TokenBucket_Allow now' tb).1 = (1 <=? capped)%float /\
      ratelimit.tokens after
        = (if (1 <=? capped)%float then capped - 1 else capped)%float /\
      ratelimit.maxTokens after = ratelimit.maxTokens tb /\
      ratelimit.refillRate after = ratelimit.refillRate tb /\
      ratelimit.lastRefill after = now'.
Proof.
  intros Hr Hp. split.
  - destruct (NewTokenBucket_sound now r p) as (_ & Hrr & _);
      [unfold Go.MaxInt64; lia|done|].
    apply (TokenBucket_run_whole now (Z.to_nat r) _ r); try (done || lia).
    cbn. f_equal. lia.
  - intros now' tb. unfold ratelimit.TokenBucket_Allow, ratelimit.refill.
    destruct (1 <=? _)%float; done.
Qed.

Lemma TokenBucket_burst_witness :
  (ratelimit.TokenBucket_run (repeat 0 (S (Z.to_nat 3)))
     (ratelimit.NewTokenBucket 0 3 60)).1
    = repeat true (Z.to_nat 3) ++ [false].
Proof.
  apply (TokenBucket_burst 3 60 0); [lia|unfold Go.MaxInt64; lia].
Defined.

(** C8, as stated, fails for a bucket created with rate 1 and period -1:
    its refill rate is negative, and a call of [Allow] five seconds after
    the creation leaves -4 tokens. *)
Lemma TokenBucket_negative_period :
  TokenBucket_inv
    (ratelimit.TokenBucket_run [5 * Go.Second] (ratelimit.NewTokenBucket 0 1 (-1))).2
    = false.
Proof. vm_compute. reflexivity. Qed.

(** C8, amended.  For a token bucket created with a rate [r > 0] and a
    period [p > 0], [maxTokens] is [float64(r)] and
    [0 <= tokens <= maxTokens] holds after the construction and after
    every call of [Allow], whatever the time between the calls, as long
    as the clock does not go back. *)
Theorem TokenBucket_invariant (r p : Z) (now0 : Go.Time) (times : list Go.Time) :
  0 < r <= Go.MaxInt64 -> 0 < p <= Go.MaxInt64 ->
  nondecreasing_from now0 times ->
  let tb := (ratelimit.TokenBucket_run times (ratelimit.NewTokenBucket now0 r p)).2 in
  ratelimit.maxTokens tb = Go.float64 r /\ TokenBucket_inv tb = true.
Proof.
  intros Hr Hp Hmono.
  destruct (TokenBucket_run_sound times (ratelimit.NewTokenBucket now0 r p) Hmono
              (NewTokenBucket_sound now0 r p Hr Hp)) as [Hs HM].
  split; [by rewrite HM|by apply TokenBucket_inv_of_sound].
Qed.

Lemma TokenBucket_invariant_witness :
  let tb := (ratelimit.TokenBucket_run [0; 500000000; 500000000; 2000000000]
               (ratelimit.NewTokenBucket 0 2 1)).2 in
  ratelimit.maxTokens tb = Go.float64 2 /\ TokenBucket_inv tb = true.
Proof.
  apply (TokenBucket_invariant 2 1 0);
    [unfold Go.MaxInt64; lia|unfold Go.MaxInt64; lia|cbn [nondecreasing_from]; lia].
Defined.

(** ** Fixed window *)

Section FixedWindow.
Import ratelimit.

Lemma roll_maxRequests now fw : maxRequests (roll now fw) = maxRequests fw.
Proof. unfold roll. destruct (_ <=? _); reflexivity. Qed.

Lemma roll_windowPeriod now fw : windowPeriod (roll now fw) = windowPeriod fw.
Proof. unfold roll. destruct (_ <=? _); reflexivity. Qed.

Lemma roll_same_window now fw :
  Go.Sub now (windowStart fw) < windowPeriod fw -> roll now fw = fw.
Proof.
  intros Hin. unfold roll.
  destruct (Z.leb_spec (windowPeriod fw) (Go.Sub now (windowStart fw))); [lia|done].
Qed.

Lemma roll_new_window now fw :
  windowPeriod fw <= Go.Sub now (windowStart fw) ->
  windowStart (roll now fw) = now /\ count (roll now fw) = 0.
Proof.
  intros Hout. unfold roll.
  destruct (Z.leb_spec (windowPeriod fw) (Go.Sub now (windowStart fw))); [done|lia].
Qed.

Lemma roll_count_le now fw c : 0 <= count fw <= c -> 0 <= count (roll now fw) <= c.
Proof. unfold roll. destruct (_ <=? _); simpl; lia. Qed.

(** Inside one window the counter counts the calls: [n] calls are let
    through as long as the counter stays within [maxRequests]. *)
Lemma FixedWindow_run_same_window (times : list Go.Time) :
  forall fw : FixedWindow,
    0 <= count fw ->
    count fw + Z.of_nat (length times) <= maxRequests fw <= Go.MaxInt64 ->
    Forall (fun t => Go.Sub t (windowStart fw) < windowPeriod fw) times ->
    fst (FixedWindow_run times fw) = repeat true (length times) /\
    count (snd (FixedWindow_run times fw)) = count fw + Z.of_nat (length times) /\
    maxRequests (snd (FixedWindow_run times fw)) = maxRequests fw /\
    windowStart (snd (FixedWindow_run times fw)) = windowStart fw /\
    windowPeriod (snd (FixedWindow_run times fw)) = windowPeriod fw.
Proof.
  induction times as [|t times IH]; intros fw Hc Hle Hin.
  - simpl in *. repeat split; lia.
  - inversion Hin as [|? ? Ht Hts]; subst.
    cbn [FixedWindow_run length] in *. unfold FixedWindow_Allow.
    rewrite (roll_same_window _ _ Ht).
    destruct (Z.ltb_spec (count fw) (maxRequests fw)); [|lia].
    set (fw1 := {| count := _ |}).
    destruct (IH fw1) as (Hoks & Hcnt & Hmax & Hst & Hper).
    + simpl. rewrite wrap64_id; unfold Go.int64, Go.MinInt64, Go.MaxInt64 in *; lia.
    + simpl. rewrite wrap64_id; unfold Go.int64, Go.MinInt64, Go.MaxInt64 in *; lia.
    + exact Hts.
    + destruct (FixedWindow_run times fw1) as [oks fw2]. simpl in *.
      rewrite Hoks, Hcnt, Hmax, Hst, Hper.
      rewrite wrap64_id by (unfold Go.int64, Go.MinInt64, Go.MaxInt64 in *; lia).
      repeat split; lia.
Qed.

(** Whatever the clock readings, [n] calls are let through when the
    counter is at most [c] and [c + n] stays within [maxRequests]. *)
Lemma FixedWindow_run_room (times : list Go.Time) :
  forall (fw : FixedWindow) (c : Z),
    0 <= count fw <= c ->
    c + Z.of_nat (length times) <= maxRequests fw <= Go.MaxInt64 ->
    fst (FixedWindow_run times fw) = repeat true (length times).
Proof.
  induction times as [|t times IH]; intros fw c Hc Hle; [done|].
  cbn [FixedWindow_run length] in *. unfold FixedWindow_Allow.
  pose proof (roll_count_le t fw c Hc) as Hr.
  pose proof (roll_maxRequests t fw) as Hm.
  destruct (Z.ltb_spec (count (roll t fw)) (maxRequests (roll t fw))); [|lia].
  set (fw1 := {| count := _ |}).
  specialize (IH fw1 (c + 1)).
  destruct (FixedWindow_run times fw1) as [oks fw2]. simpl in *.
  rewrite IH; [done| |].
  - rewrite wrap64_id; unfold Go.int64, Go.MinInt64, Go.MaxInt64 in *; lia.
  - lia.
Qed.

Lemma FixedWindow_run_app (ts1 ts2 : list Go.Time) (fw : FixedWindow) :
  FixedWindow_run (ts1 ++ ts2) fw =
    (fst (FixedWindow_run ts1 fw) ++ fst (FixedWindow_run ts2 (snd (FixedWindow_run ts1 fw))),
     snd (FixedWindow_run ts2 (snd (FixedWindow_run ts1 fw)))).
Proof.
  revert fw. induction ts1 as [|t ts1 IH]; intros fw.
  - simpl. by destruct (FixedWindow_run ts2 fw).
  - simpl. destruct (FixedWindow_Allow t fw) as [ok fw1].
    rewrite IH. destruct (FixedWindow_run ts1 fw1) as [oks fw2]. simpl.
    by destruct (FixedWindow_run ts2 fw2).
Qed.

End FixedWindow.





(** The unit tests [TestFixedWindow_Allow] and [TestFixedWindow_NewWindow]
    (the latter with its 100 ms window), on a clock that stands still and
    then moves on by 150 ms. *)
Example TestFixedWindow_Allow :
  fst (ratelimit.FixedWindow_run [0; 0; 0; 0] (ratelimit.NewFixedWindow 0 3 1))
    = [true; true; true; false].
Proof. reflexivity. Qed.

Example TestFixedWindow_NewWindow :
  let fw := {| ratelimit.count := 0; ratelimit.maxRequests := 2;
               ratelimit.windowStart := 0; ratelimit.windowPeriod := 100000000 |} in
  fst (ratelimit.FixedWindow_run [0; 0; 0; 150000000] fw) = [true; true; false; true].
Proof. reflexivity. Qed.


(** ** Limiter keys *)

Lemma occurs_app (c : ascii) (s1 s2 : string) :
  occurs c (s1 +:+ s2) <-> occurs c s1 \/ occurs c s2.
Proof. induction s1 as [|a s1 IH]; simpl; [tauto|]. rewrite IH. tauto. Qed.

Lemma string_app_assoc (s1 s2 s3 : string) :
  (s1 +:+ s2) +:+ s3 = s1 +:+ (s2 +:+ s3).
Proof.
  induction s1 as [|a s1 IH]; [reflexivity|].
  change (String a ((s1 +:+ s2) +:+ s3) = String a (s1 +:+ (s2 +:+ s3))).
  by rewrite IH.
Qed.

(** A text is split in one way only at the last occurrence of a byte. *)
Lemma app_sep_inj (c : ascii) (t1 t2 : string) :
  ~ occurs c t1 -> ~ occurs c t2 ->
  forall s1 s2 : string,
    s1 +:+ String c t1 = s2 +:+ String c t2 -> s1 = s2 /\ t1 = t2.
Proof.
  intros H1 H2. induction s1 as [|a s1 IH]; intros [|b s2] Heq; simpl in Heq.
  - by injection Heq.
  - injection Heq as <- ->. exfalso. apply H1, occurs_app. right. by left.
  - injection Heq as -> <-. exfalso. apply H2, occurs_app. right. by left.
  - injection Heq as -> Heq. destruct (IH _ Heq) as [-> ->]. done.
Qed.

Lemma string_of_uint_digits (d : Decimal.uint) :
  ~ occurs "|" (NilEmpty.string_of_uint d).
Proof. induction d; simpl; [tauto|..]; intros [Hd|Hd]; (discriminate || tauto). Qed.

Lemma FormatInt_no_sep (n : Z) : ~ occurs "|" (Go.FormatInt n).
Proof.
  unfold Go.FormatInt. destruct (Z.to_int n) as [d|d]; simpl.
  - destruct d; try apply (string_of_uint_digits _).
    simpl. intros [Hd|[]]. discriminate.
  - intros [Hd|Hd]; [discriminate|]. revert Hd.
    destruct d; try apply (string_of_uint_digits _).
    simpl. intros [Hd|[]]. discriminate.
Qed.

Lemma FormatInt_inj (n m : Z) : Go.FormatInt n = Go.FormatInt m -> n = m.
Proof.
  unfold Go.FormatInt. intros Heq. apply DecimalZ.to_int_inj.
  assert (Hnn : forall z, Z.to_int z <> Decimal.Pos Decimal.Nil /\
                          Z.to_int z <> Decimal.Neg Decimal.Nil).
  { intros [|q|q]; simpl; split; try discriminate;
      intros [= Hq]; by apply (DecimalPos.Unsigned.to_uint_nonnil q). }
  destruct (Hnn n) as [Hn1 Hn2], (Hnn m) as [Hm1 Hm2].
  pose proof (NilZero.isi _ Hn1 Hn2) as Hn. pose proof (NilZero.isi _ Hm1 Hm2) as Hm.
  rewrite Heq in Hn. congruence.
Qed.

Lemma buildKey_shape (egressIP resourceKey : string) (c : ratelimit.Config) :
  ratelimit.buildKey egressIP resourceKey c =
    egressIP +:+ String "|" (resourceKey +:+ String "|"
      ((ratelimit.Method_ c +:+ String "|" (Go.FormatInt (ratelimit.Rate c)))
         +:+ String "|" (Go.FormatInt (ratelimit.Period c)))).
Proof.
  unfold ratelimit.buildKey.
  rewrite (string_app_assoc (ratelimit.Method_ c)). reflexivity.
Qed.

(** For one egress address and one resource, the key tells the method,
    the rate and the period apart. *)
Lemma buildKey_inj (egressIP resourceKey : string) (c1 c2 : ratelimit.Config) :
  ratelimit.buildKey egressIP resourceKey c1 = ratelimit.buildKey egressIP resourceKey c2 ->
  ratelimit.Method_ c1 = ratelimit.Method_ c2 /\
  ratelimit.Rate c1 = ratelimit.Rate c2 /\
  ratelimit.Period c1 = ratelimit.Period c2.
Proof.
  rewrite !buildKey_shape. intros Heq.
  apply (inj (String.app egressIP)) in Heq. injection Heq as Heq.
  apply (inj (String.app resourceKey)) in Heq. injection Heq as Heq.
  apply app_sep_inj in Heq as [Heq Hp]; try apply FormatInt_no_sep.
  apply app_sep_inj in Heq as [Hm Hr]; try apply FormatInt_no_sep.
  apply FormatInt_inj in Hp, Hr. done.
Qed.

(** The time-to-live and the resource kind are not part of the key. *)
Lemma buildKey_fields (egressIP resourceKey : string) (c1 c2 : ratelimit.Config) :
  ratelimit.Method_ c1 = ratelimit.Method_ c2 ->
  ratelimit.Rate c1 = ratelimit.Rate c2 ->
  ratelimit.Period c1 = ratelimit.Period c2 ->
  ratelimit.buildKey egressIP resourceKey c1 = ratelimit.buildKey egressIP resourceKey c2.
Proof. unfold ratelimit.buildKey. by intros -> -> ->. Qed.

(** ** The store *)

Section Store.
Import ratelimit.

Lemma GetOrCreate_hit now born egressIP resourceKey cfg h s entry :
  limiters s !! buildKey egressIP resourceKey cfg = Some entry ->
  GetOrCreate now born egressIP resourceKey cfg (h, s) =
    (limiter entry,
     (h, {| limiters :=
              <[buildKey egressIP resourceKey cfg := touch now entry]> (limiters s) |})).
Proof. intros Hk. unfold GetOrCreate. by rewrite Hk. Qed.

Lemma GetOrCreate_miss now born egressIP resourceKey cfg h s :
  limiters s !! buildKey egressIP resourceKey cfg = None ->
  GetOrCreate now born egressIP resourceKey cfg (h, s) =
    (length h,
     (h ++ [newLimiter born cfg],
      {| limiters :=
           <[buildKey egressIP resourceKey cfg :=
               {| limiter := length h; lastUsed := now; ttl := GetTTL cfg |}]>
             (limiters s) |})).
Proof. intros Hk. unfold GetOrCreate. by rewrite Hk. Qed.

(** After [GetOrCreate] the key is bound to the limiter that was returned,
    and the entry was used [now]. *)
Lemma GetOrCreate_bound now born egressIP resourceKey cfg hs :
  exists entry,
    limiters (GetOrCreate now born egressIP resourceKey cfg hs).2.2
      !! buildKey egressIP resourceKey cfg = Some entry /\
    limiter entry = (GetOrCreate now born egressIP resourceKey cfg hs).1 /\
    lastUsed entry = now.
Proof.
  destruct hs as [h s].
  destruct (limiters s !! buildKey egressIP resourceKey cfg) as [entry|] eqn:Hk.
  - rewrite (GetOrCreate_hit _ _ _ _ _ _ _ _ Hk). simpl.
    exists (touch now entry). by rewrite lookup_insert_eq.
  - rewrite (GetOrCreate_miss _ _ _ _ _ _ _ Hk). simpl.
    eexists. by rewrite lookup_insert_eq.
Qed.

Lemma NewStore_wf : Store_wf ([], NewStore).
Proof. split; simpl; intros *; by rewrite lookup_empty. Qed.

Lemma GetOrCreate_wf now born egressIP resourceKey cfg hs :
  Store_wf hs -> Store_wf (GetOrCreate now born egressIP resourceKey cfg hs).2.
Proof.
  destruct hs as [h s]. intros [Hin Hinj].
  set (key := buildKey egressIP resourceKey cfg).
  destruct (limiters s !! key) as [entry|] eqn:Hk.
  - rewrite (GetOrCreate_hit _ _ _ _ _ _ _ _ Hk). fold key. simpl in *. split; simpl.
    + intros k e. rewrite lookup_insert. case_decide; [|by apply Hin].
      intros [= <-]. simpl. by eapply Hin.
    + intros k1 k2 e1 e2. rewrite !lookup_insert.
      repeat case_decide; subst; try done.
      * intros [= <-] H2 Hl. symmetry. by eapply Hinj.
      * intros H1 [= <-] Hl. by eapply Hinj.
      * by apply Hinj.
  - rewrite (GetOrCreate_miss _ _ _ _ _ _ _ Hk). fold key. simpl in *. split; simpl.
    + intros k e. rewrite lookup_insert, length_app. simpl.
      case_decide; [intros [= <-]; simpl; lia|].
      intros He. apply Hin in He. lia.
    + intros k1 k2 e1 e2. rewrite !lookup_insert.
      repeat case_decide; subst; try done.
      * intros [= <-] H2 Hl. simpl in Hl. apply Hin in H2. lia.
      * intros H1 [= <-] Hl. simpl in Hl. apply Hin in H1. lia.
      * by apply Hinj.
Qed.

(** One pass of the loop of [cleanup] over a list of entries. *)
Lemma cleanup_loop_removes now (l : list (string * limiterEntry))
    (m : gmap string limiterEntry) key entry :
  (key, entry) ∈ l -> expired now entry = true ->
  foldr (fun '(key, entry) m => if expired now entry then delete key m else m) m l
    !! key = None.
Proof.
  induction l as [|[k e] l IH]; intros Hel Hex; [by apply elem_of_nil in Hel|].
  simpl. apply elem_of_cons in Hel as [[= <- <-]|Hel].
  - rewrite Hex. apply lookup_delete_eq.
  - destruct (expired now e); [|by apply IH].
    rewrite lookup_delete. case_decide; [done|by apply IH].
Qed.

Lemma cleanup_loop_keeps now (l : list (string * limiterEntry))
    (m : gmap string limiterEntry) key :
  (forall entry, (key, entry) ∈ l -> expired now entry = false) ->
  foldr (fun '(key, entry) m => if expired now entry then delete key m else m) m l
    !! key = m !! key.
Proof.
  induction l as [|[k e] l IH]; intros Hall; [done|].
  simpl. destruct (expired now e) eqn:Hex.
  - rewrite lookup_delete. case_decide as Hk.
    + subst. rewrite (Hall e) in Hex; [done|]. by left.
    + apply IH. intros entry Hel. apply Hall. by right.
  - apply IH. intros entry Hel. apply Hall. by right.
Qed.

(** What a sweep leaves of the map. *)
Lemma cleanup_lookup now s key :
  limiters (cleanup now s) !! key =
    match limiters s !! key with
    | Some entry => if expired now entry then None else Some entry
    | None => None
    end.
Proof.
  unfold cleanup. simpl.
  destruct (limiters s !! key) as [entry|] eqn:Hk.
  - destruct (expired now entry) eqn:Hex.
    + eapply cleanup_loop_removes; [|done]. by apply elem_of_map_to_list.
    + rewrite cleanup_loop_keeps; [done|].
      intros e He. apply elem_of_map_to_list in He. congruence.
  - rewrite cleanup_loop_keeps; [done|].
    intros e He. apply elem_of_map_to_list in He. congruence.
Qed.

Lemma cleanup_wf now h s : Store_wf (h, s) -> Store_wf (h, cleanup now s).
Proof.
  unfold Store_wf. cbn [fst snd]. intros [Hin Hinj]. split.
  - intros k e. rewrite cleanup_lookup.
    destruct (limiters s !! k) as [e'|] eqn:Hk; [|done].
    destruct (expired now e'); [done|]. intros [= <-]. by eapply Hin.
  - intros k1 k2 e1 e2. rewrite !cleanup_lookup.
    destruct (limiters s !! k1) as [e1'|] eqn:Hk1; [|done].
    destruct (limiters s !! k2) as [e2'|] eqn:Hk2; [|by destruct (expired now e1')].
    destruct (expired now e1'), (expired now e2'); try done.
    intros [= <-] [= <-]. by eapply Hinj.
Qed.

End Store.

(** A key that is bound keeps its limiter when another key is looked up
    or created. *)
Lemma GetOrCreate_other_key now born egressIP resourceKey cfg hs key entry :
  Store_wf hs ->
  ratelimit.limiters hs.2 !! key = Some entry ->
  ratelimit.buildKey egressIP resourceKey cfg <> key ->
  (ratelimit.GetOrCreate now born egressIP resourceKey cfg hs).1
    <> ratelimit.limiter entry.
Proof.
  intros Hwf Hk Hne Heq.
  pose proof (GetOrCreate_wf now born egressIP resourceKey cfg hs Hwf) as [_ Hinj].
  destruct (GetOrCreate_bound now born egressIP resourceKey cfg hs)
    as (e2 & Hk2 & Hl2 & _).
  assert (Hk' : ratelimit.limiters
                  (ratelimit.GetOrCreate now born egressIP resourceKey cfg hs).2.2
                  !! key = Some entry).
  { destruct hs as [h s]. unfold ratelimit.GetOrCreate.
    destruct (ratelimit.limiters s !! _); cbn [fst snd ratelimit.limiters];
      by rewrite lookup_insert_ne. }
  apply Hne. eapply Hinj; eauto. congruence.
Qed.

Lemma GetOrCreate_same_key now born egressIP resourceKey cfg hs entry :
  ratelimit.limiters hs.2 !! ratelimit.buildKey egressIP resourceKey cfg = Some entry ->
  (ratelimit.GetOrCreate now born egressIP resourceKey cfg hs).1
    = ratelimit.limiter entry.
Proof. destruct hs as [h s]. intros Hk. by rewrite (GetOrCreate_hit _ _ _ _ _ _ _ _ Hk). Qed.

(** The unit test [TestStore_GetOrCreate]: the same triple gives the same
    limiter, another egress address or resource gives another one, and
    three limiters are stored in the end. *)
Example TestStore_GetOrCreate :
  let cfg := {| ratelimit.Method_ := ratelimit.MethodTokenBucket;
                ratelimit.Rate := 10; ratelimit.Period := 60; ratelimit.TTL := 0;
                ratelimit.Resource_ := {| ratelimit.Kind := ratelimit.ResourceKindDomain |} |} in
  let r1 := ratelimit.GetOrCreate 0 0 "192.168.1.1" "example.com" cfg ([], ratelimit.NewStore) in
  let r2 := ratelimit.GetOrCreate 1 1 "192.168.1.1" "example.com" cfg r1.2 in
  let r3 := ratelimit.GetOrCreate 2 2 "192.168.1.2" "example.com" cfg r2.2 in
  let r4 := ratelimit.GetOrCreate 3 3 "192.168.1.1" "other.com" cfg r3.2 in
  r1.1 = r2.1 /\ r1.1 <> r3.1 /\ r1.1 <> r4.1 /\ ratelimit.Len r4.2.2 = 3%nat.
Proof. vm_compute. repeat split; discriminate. Qed.

(** C3, as stated, fails: two directives that differ in their
    time-to-live only are given the same limiter. *)
Lemma GetOrCreate_ttl_shares_limiter :
  let cfg1 := {| ratelimit.Method_ := "token_bucket";
                 ratelimit.Rate := 10; ratelimit.Period := 60; ratelimit.TTL := 60;
                 ratelimit.Resource_ := {| ratelimit.Kind := "domain" |} |} in
  let cfg2 := {| ratelimit.Method_ := "token_bucket";
                 ratelimit.Rate := 10; ratelimit.Period := 60; ratelimit.TTL := 120;
                 ratelimit.Resource_ := {| ratelimit.Kind := "domain" |} |} in
  let r1 := ratelimit.GetOrCreate 0 0 "192.168.1.1" "example.com" cfg1 ([], ratelimit.NewStore) in
  let r2 := ratelimit.GetOrCreate 1 1 "192.168.1.1" "example.com" cfg2 r1.2 in
  cfg1 <> cfg2 /\ r2.1 = r1.1.
Proof. split; [discriminate|]. vm_compute. reflexivity. Qed.

(** C3, amended.  For one egress address and one resource key: a second
    call of [GetOrCreate] whose directive has the same method, rate and
    period returns the same limiter (so does the identical directive, and
    so does one that differs in the time-to-live or the resource kind
    only); a directive with another method, rate or period returns a
    distinct limiter; and a limiter created for a method that is neither
    [token_bucket] nor [fixed_window] is a token bucket. *)
Theorem GetOrCreate_instances (now1 born1 now2 born2 : Go.Time)
    (egressIP resourceKey : string) (cfg cfg' : ratelimit.Config)
    (hs : ratelimit.Heap * ratelimit.Store) :
  Store_wf hs ->
  let r1 := ratelimit.GetOrCreate now1 born1 egressIP resourceKey cfg hs in
  let r2 := ratelimit.GetOrCreate now2 born2 egressIP resourceKey cfg' r1.2 in
  (ratelimit.Method_ cfg' = ratelimit.Method_ cfg ->
   ratelimit.Rate cfg' = ratelimit.Rate cfg ->
   ratelimit.Period cfg' = ratelimit.Period cfg ->
   r2.1 = r1.1) /\
  ((ratelimit.Method_ cfg', ratelimit.Rate cfg', ratelimit.Period cfg')
     <> (ratelimit.Method_ cfg, ratelimit.Rate cfg, ratelimit.Period cfg) ->
   r2.1 <> r1.1) /\
  (ratelimit.limiters hs.2 !! ratelimit.buildKey egressIP resourceKey cfg = None ->
   ratelimit.Method_ cfg <> ratelimit.MethodTokenBucket ->
   ratelimit.Method_ cfg <> ratelimit.MethodFixedWindow ->
   r1.2.1 !! r1.1 =
     Some (ratelimit.TB (ratelimit.NewTokenBucket born1 (ratelimit.Rate cfg)
                           (ratelimit.Period cfg)))).
Proof.
  intros Hwf r1 r2.
  pose proof (GetOrCreate_wf now1 born1 egressIP resourceKey cfg hs Hwf) as Hwf1.
  destruct (GetOrCreate_bound now1 born1 egressIP resourceKey cfg hs)
    as (e1 & Hk1 & Hl1 & _).
  fold r1 in Hwf1, Hk1, Hl1.
  split; [|split].
  - intros Hm Hr Hp. rewrite <- Hl1. apply GetOrCreate_same_key.
    by rewrite (buildKey_fields egressIP resourceKey cfg' cfg Hm Hr Hp).
  - intros Hne. rewrite <- Hl1.
    apply GetOrCreate_other_key with (key := ratelimit.buildKey egressIP resourceKey cfg);
      [done|done|].
    intros Hkey. apply buildKey_inj in Hkey as (Hm & Hr & Hp). apply Hne. congruence.
  - intros Hnone Hm1 Hm2. destruct hs as [h s]. cbn [fst snd] in Hnone.
    subst r1. rewrite (GetOrCreate_miss _ _ _ _ _ _ _ Hnone). cbn [fst snd].
    rewrite lookup_app_r, Nat.sub_diag by lia. simpl. f_equal.
    unfold ratelimit.newLimiter.
    destruct (String.eqb_spec (ratelimit.Method_ cfg) ratelimit.MethodTokenBucket); [done|].
    destruct (String.eqb_spec (ratelimit.Method_ cfg) ratelimit.MethodFixedWindow); done.
Qed.

Lemma GetOrCreate_instances_witness :
  let cfg := {| ratelimit.Method_ := "sliding_log";
                ratelimit.Rate := 10; ratelimit.Period := 60; ratelimit.TTL := 0;
                ratelimit.Resource_ := {| ratelimit.Kind := "domain" |} |} in
  let cfg' := {| ratelimit.Method_ := "sliding_log";
                 ratelimit.Rate := 20; ratelimit.Period := 60; ratelimit.TTL := 0;
                 ratelimit.Resource_ := {| ratelimit.Kind := "domain" |} |} in
  let r1 := ratelimit.GetOrCreate 0 0 "192.168.1.1" "example.com" cfg ([], ratelimit.NewStore) in
  let r2 := ratelimit.GetOrCreate 1 1 "192.168.1.1" "example.com" cfg' r1.2 in
  r2.1 <> r1.1 /\
  r1.2.1 !! r1.1 = Some (ratelimit.TB (ratelimit.NewTokenBucket 0 10 60)).
Proof.
  intros cfg cfg' r1 r2.
  pose proof (GetOrCreate_instances 0 0 1 1 "192.168.1.1" "example.com" cfg cfg'
                ([], ratelimit.NewStore) NewStore_wf) as (_ & Hdiff & Hnew).
  split.
  - apply Hdiff. discriminate.
  - apply Hnew; [reflexivity|discriminate|discriminate].
Defined.

(** C10.  When [GetOrCreate] finds an entry for its key, it returns the
    entry's limiter and changes nothing but the entry's [lastUsed]: the
    heap, the stored limiter, the stored [ttl] and every other entry stay
    as they were.  The time-to-live of the directive is not part of the
    key, so a directive that differs from the one that created the entry
    in its time-to-live only finds that entry, and the entry keeps the
    [ttl] it was created with. *)
Theorem GetOrCreate_existing_entry (now born : Go.Time) (egressIP resourceKey : string)
    (cfg cfg' : ratelimit.Config) (h : ratelimit.Heap) (s : ratelimit.Store)
    (entry : ratelimit.limiterEntry) :
  ratelimit.limiters s !! ratelimit.buildKey egressIP resourceKey cfg = Some entry ->
  ratelimit.Method_ cfg' = ratelimit.Method_ cfg ->
  ratelimit.Rate cfg' = ratelimit.Rate cfg ->
  ratelimit.Period cfg' = ratelimit.Period cfg ->
  let r := ratelimit.GetOrCreate now born egressIP resourceKey cfg' (h, s) in
  r.1 = ratelimit.limiter entry /\
  r.2.1 = h /\
  ratelimit.limiters r.2.2 !! ratelimit.buildKey egressIP resourceKey cfg =
    Some {| ratelimit.limiter := ratelimit.limiter entry;
            ratelimit.lastUsed := now;
            ratelimit.ttl := ratelimit.ttl entry |} /\
  (forall key : string,
      key <> ratelimit.buildKey egressIP resourceKey cfg ->
      ratelimit.limiters r.2.2 !! key = ratelimit.limiters s !! key).
Proof.
  intros Hk Hm Hr Hp r.
  pose proof (buildKey_fields egressIP resourceKey cfg' cfg Hm Hr Hp) as Hkey.
  subst r. rewrite <- Hkey in Hk.
  rewrite (GetOrCreate_hit _ _ _ _ _ _ _ _ Hk). rewrite <- Hkey. cbn [fst snd ratelimit.limiters].
  repeat split.
  - by rewrite lookup_insert_eq.
  - intros key Hne. by rewrite lookup_insert_ne.
Qed.

Lemma GetOrCreate_existing_entry_witness :
  let cfg := {| ratelimit.Method_ := "token_bucket";
                ratelimit.Rate := 10; ratelimit.Period := 60; ratelimit.TTL := 60;
                ratelimit.Resource_ := {| ratelimit.Kind := "domain" |} |} in
  let cfg' := {| ratelimit.Method_ := "token_bucket";
                 ratelimit.Rate := 10; ratelimit.Period := 60; ratelimit.TTL := 120;
                 ratelimit.Resource_ := {| ratelimit.Kind := "domain" |} |} in
  let r0 := ratelimit.GetOrCreate 0 0 "192.168.1.1" "example.com" cfg ([], ratelimit.NewStore) in
  let r := ratelimit.GetOrCreate 5 5 "192.168.1.1" "example.com" cfg' r0.2 in
  r.1 = 0%nat /\
  ratelimit.limiters r.2.2 !! ratelimit.buildKey "192.168.1.1" "example.com" cfg =
    Some {| ratelimit.limiter := 0%nat; ratelimit.lastUsed := 5;
            ratelimit.ttl := 60 * Go.Second |}.
Proof.
  intros cfg cfg' r0 r.
  pose proof (GetOrCreate_existing_entry 5 5 "192.168.1.1" "example.com" cfg cfg'
                r0.2.1 r0.2.2
                {| ratelimit.limiter := 0%nat; ratelimit.lastUsed := 0;
                   ratelimit.ttl := 60 * Go.Second |}
                ltac:(vm_compute; reflexivity) eq_refl eq_refl eq_refl)
    as (H1 & _ & H3 & _).
  split; [exact H1|exact H3].
Defined.

(** The time-to-live of a directive: five minutes when it is not
    positive, its seconds as a [Duration] as long as these fit. *)
Lemma GetTTL_default (cfg : ratelimit.Config) :
  ratelimit.TTL cfg <= 0 -> ratelimit.GetTTL cfg = 300 * Go.Second.
Proof.
  intros Hle. unfold ratelimit.GetTTL.
  destruct (Z.leb_spec (ratelimit.TTL cfg) 0); [reflexivity|lia].
Qed.

Lemma GetTTL_seconds (cfg : ratelimit.Config) :
  0 < ratelimit.TTL cfg <= 9223372036 ->
  ratelimit.GetTTL cfg = ratelimit.TTL cfg * Go.Second.
Proof.
  intros Hr. unfold ratelimit.GetTTL.
  destruct (Z.leb_spec (ratelimit.TTL cfg) 0); [lia|].
  rewrite (wrap64_id (ratelimit.TTL cfg)), wrap64_id;
    unfold Go.int64, Go.MinInt64, Go.MaxInt64, Go.Second; lia.
Qed.

(** The unit tests [TestStore_TTLCleanup] and [TestStore_TTLReset], with
    the clock in nanoseconds. *)
Example TestStore_TTLCleanup :
  let cfg := {| ratelimit.Method_ := ratelimit.MethodTokenBucket;
                ratelimit.Rate := 10; ratelimit.Period := 60; ratelimit.TTL := 1;
                ratelimit.Resource_ := {| ratelimit.Kind := ratelimit.ResourceKindDomain |} |} in
  let r := ratelimit.GetOrCreate 0 0 "192.168.1.1" "example.com" cfg ([], ratelimit.NewStore) in
  ratelimit.Len r.2.2 = 1%nat /\
  ratelimit.Len (ratelimit.cleanup 1200000000 r.2.2) = 0%nat.
Proof. vm_compute. done. Qed.

Example TestStore_TTLReset :
  let cfg := {| ratelimit.Method_ := ratelimit.MethodTokenBucket;
                ratelimit.Rate := 100; ratelimit.Period := 60; ratelimit.TTL := 1;
                ratelimit.Resource_ := {| ratelimit.Kind := ratelimit.ResourceKindDomain |} |} in
  let r0 := ratelimit.GetOrCreate 0 0 "192.168.1.1" "example.com" cfg ([], ratelimit.NewStore) in
  let r1 := ratelimit.GetOrCreate 500000000 500000000 "192.168.1.1" "example.com" cfg r0.2 in
  ratelimit.Len (ratelimit.cleanup 1200000000 r1.2.2) = 1%nat.
Proof. vm_compute. done. Qed.

(** C4, as stated, fails for a time-to-live of 9223372037 seconds: the
    product with [time.Second] overflows, the entry's [ttl] is negative, and
    the entry is swept one nanosecond after it was used. *)
Lemma Store_ttl_overflows :
  let cfg := {| ratelimit.Method_ := "token_bucket";
                ratelimit.Rate := 10; ratelimit.Period := 60;
                ratelimit.TTL := 9223372037;
                ratelimit.Resource_ := {| ratelimit.Kind := "domain" |} |} in
  let r0 := ratelimit.GetOrCreate 0 0 "192.168.1.1" "example.com" cfg ([], ratelimit.NewStore) in
  let r1 := ratelimit.GetOrCreate 1 1 "192.168.1.1" "example.com" cfg r0.2 in
  ratelimit.GetTTL cfg <> 9223372037 * Go.Second /\
  ratelimit.GetTTL cfg = -9223372036709551616 /\
  ratelimit.limiters (ratelimit.cleanup 2 r1.2.2)
    !! ratelimit.buildKey "192.168.1.1" "example.com" cfg = None.
Proof. vm_compute. repeat split. discriminate. Qed.

(** C4, amended.  A sweep removes an entry exactly when
    [now - lastUsed > ttl]; a lookup of the entry's key by [GetOrCreate]
    sets [lastUsed] to [now] and leaves [ttl] alone, so an entry that is
    looked up at [t1] survives every sweep up to [t1 + ttl], also one at
    which it would have been removed had it not been looked up; the [ttl]
    of a new entry is 300 seconds when the directive's time-to-live is not
    positive and the directive's seconds when these are at most
    9223372036 (beyond that the 64-bit [Duration] overflows). *)
Theorem Store_ttl_is_sliding (egressIP resourceKey : string) (cfg : ratelimit.Config) :
  let key := ratelimit.buildKey egressIP resourceKey cfg in
  (forall (now : Go.Time) (s : ratelimit.Store) (k : string)
          (entry : ratelimit.limiterEntry),
      ratelimit.limiters s !! k = Some entry ->
      ratelimit.limiters (ratelimit.cleanup now s) !! k =
        (if ratelimit.ttl entry <? Go.Sub now (ratelimit.lastUsed entry)
         then None else Some entry) /\
      (Go.int64 (now - ratelimit.lastUsed entry) ->
       (ratelimit.limiters (ratelimit.cleanup now s) !! k = None
        <-> now - ratelimit.lastUsed entry > ratelimit.ttl entry)))
  /\
  (forall (t1 born t2 : Go.Time) (hs : ratelimit.Heap * ratelimit.Store)
          (entry : ratelimit.limiterEntry),
      ratelimit.limiters hs.2 !! key = Some entry ->
      let s1 := (ratelimit.GetOrCreate t1 born egressIP resourceKey cfg hs).2.2 in
      ratelimit.limiters s1 !! key =
        Some {| ratelimit.limiter := ratelimit.limiter entry;
                ratelimit.lastUsed := t1;
                ratelimit.ttl := ratelimit.ttl entry |} /\
      (Go.Sub t2 t1 <= ratelimit.ttl entry ->
       ratelimit.limiters (ratelimit.cleanup t2 s1) !! key =
         Some {| ratelimit.limiter := ratelimit.limiter entry;
                 ratelimit.lastUsed := t1;
                 ratelimit.ttl := ratelimit.ttl entry |}))
  /\
  (forall (now born : Go.Time) (hs : ratelimit.Heap * ratelimit.Store),
      ratelimit.limiters hs.2 !! key = None ->
      exists entry,
        ratelimit.limiters (ratelimit.GetOrCreate now born egressIP resourceKey cfg hs).2.2
          !! key = Some entry /\
        ratelimit.lastUsed entry = now /\
        (ratelimit.TTL cfg <= 0 -> ratelimit.ttl entry = 300 * Go.Second) /\
        (0 < ratelimit.TTL cfg <= 9223372036 ->
         ratelimit.ttl entry = ratelimit.TTL cfg * Go.Second)).
Proof.
  intros key. split; [|split].
  - intros now s k entry Hk. rewrite cleanup_lookup, Hk. unfold ratelimit.expired.
    split; [done|]. intros Hrange. rewrite (Sub_exact _ _ Hrange).
    destruct (Z.ltb_spec (ratelimit.ttl entry) (now - ratelimit.lastUsed entry));
      split; (done || lia).
  - intros t1 born t2 [h s] entry Hk s1. cbn [fst snd] in Hk.
    subst s1. rewrite (GetOrCreate_hit _ _ _ _ _ _ _ _ Hk). cbn [fst snd ratelimit.limiters].
    fold key. split; [by rewrite lookup_insert_eq|].
    intros Hle. rewrite cleanup_lookup. cbn [ratelimit.limiters].
    rewrite lookup_insert_eq. unfold ratelimit.expired, ratelimit.touch. simpl.
    destruct (Z.ltb_spec (ratelimit.ttl entry) (Go.Sub t2 t1)); [lia|done].
  - intros now born [h s] Hk. cbn [fst snd] in Hk.
    rewrite (GetOrCreate_miss _ _ _ _ _ _ _ Hk). cbn [fst snd ratelimit.limiters].
    fold key. eexists. rewrite lookup_insert_eq. split; [reflexivity|]. simpl.
    split; [done|]. split; [apply GetTTL_default|apply GetTTL_seconds].
Qed.

Lemma Store_ttl_is_sliding_witness :
  let cfg := {| ratelimit.Method_ := "token_bucket";
                ratelimit.Rate := 100; ratelimit.Period := 60; ratelimit.TTL := 1;
                ratelimit.Resource_ := {| ratelimit.Kind := "domain" |} |} in
  let key := ratelimit.buildKey "192.168.1.1" "example.com" cfg in
  let r0 := ratelimit.GetOrCreate 0 0 "192.168.1.1" "example.com" cfg ([], ratelimit.NewStore) in
  let s1 := (ratelimit.GetOrCreate 500000000 500000000 "192.168.1.1" "example.com" cfg r0.2).2.2 in
  ratelimit.limiters (ratelimit.cleanup 1200000000 r0.2.2) !! key = None /\
  ratelimit.limiters (ratelimit.cleanup 1200000000 s1) !! key =
    Some {| ratelimit.limiter := 0%nat; ratelimit.lastUsed := 500000000;
            ratelimit.ttl := 1000000000 |}.
Proof.
  intros cfg key r0 s1.
  pose proof (Store_ttl_is_sliding "192.168.1.1" "example.com" cfg) as (Hsweep & Hslide & _).
  split.
  - refine (proj2 (proj2 (Hsweep 1200000000 r0.2.2 key
        {| ratelimit.limiter := 0%nat; ratelimit.lastUsed := 0;
           ratelimit.ttl := 1000000000 |} _) _) _).
    + vm_compute. reflexivity.
    + vm_compute. split; discriminate.
    + vm_compute. reflexivity.
  - refine (proj2 (Hslide 500000000 500000000 1200000000 r0.2
        {| ratelimit.limiter := 0%nat; ratelimit.lastUsed := 0;
           ratelimit.ttl := 1000000000 |} _) _).
    + vm_compute. reflexivity.
    + vm_compute. discriminate.
Defined.

(** ** Hop-by-hop headers *)

Lemma foldl_Header_Del_lookup `{GoLib} (names : list string) :
  forall (h : gmap string (list string)) (k : string),
    foldl http_server.Header_Del h names !! k =
      if bool_decide (k ∈ CanonicalMIMEHeaderKey <$> names) then None else h !! k.
Proof.
  induction names as [|name names IH]; intros h k.
  - rewrite fmap_nil, bool_decide_eq_false_2; [done|]. apply not_elem_of_nil.
  - rewrite fmap_cons. cbn [foldl].
    rewrite IH. unfold http_server.Header_Del. rewrite lookup_delete.
    destruct (decide (k ∈ CanonicalMIMEHeaderKey <$> names)) as [Hin|Hnin].
    + rewrite !bool_decide_eq_true_2; [done| |done]. by right.
    + rewrite (bool_decide_eq_false_2 _ Hnin). case_decide as Hk.
      * subst. rewrite bool_decide_eq_true_2; [done|]. by left.
      * rewrite bool_decide_eq_false_2; [done|].
        intros Hin. apply elem_of_cons in Hin as [Hin|Hin]; congruence.
Qed.

(** The names [removeHopByHopHeaders] reads in the [Connection] header:
    those of its first value. *)
Lemma connectionTokens_first `{GoLib} (h : gmap string (list string)) :
  http_server.connectionTokens h =
    match h !! CanonicalMIMEHeaderKey "Connection" with
    | Some (c :: _) => if String.eqb c "" then [] else TrimSpace <$> Split c ","
    | _ => []
    end.
Proof.
  unfold http_server.connectionTokens, http_server.Header_Get.
  destruct (h !! CanonicalMIMEHeaderKey "Connection") as [[|c rest]|]; try done.
  by destruct (String.eqb c "").
Qed.


Section RunHeaders.
#[local] Existing Instance GoModel.lib.

(** The unit test [TestRemoveHopByHopHeaders]. *)
Example TestRemoveHopByHopHeaders :
  let h : gmap string (list string) :=
    <["Connection" := ["keep-alive, X-Custom"]]>
      (<["Keep-Alive" := ["timeout=5"]]>
         (<["X-Custom" := ["value"]]>
            (<["Content-Type" := ["application/json"]]> ∅))) in
  let h' := http_server.removeHopByHopHeaders h in
  http_server.Header_Get h' "Connection" = "" /\
  http_server.Header_Get h' "Keep-Alive" = "" /\
  http_server.Header_Get h' "X-Custom" = "" /\
  http_server.Header_Get h' "Content-Type" = "application/json".
Proof. vm_compute. done. Qed.



End RunHeaders.

(** ** The proxy dispatcher *)

Section Proxy.
Context `{GoLib}.
Import http_server.

Lemma IsIPAllowed_unparseable (c : config.Config) (ifs : config.Interfaces) (s : string) :
  ParseIP s = None -> config.IsIPAllowed c ifs s = false.
Proof. intros Hp. unfold config.IsIPAllowed. by rewrite Hp. Qed.

Lemma egress_absent (hs : HTTPServer) (env : Env) (r : Request) :
  XEgressIP r = "" ->
  egress hs env r =
    match config_ hs with
    | None => inl (Error [] "server not configured" StatusInternalServerError)
    | Some c =>
        match config.GetAvailableIPs c (interfaces env) with
        | None | Some [] =>
            inl (Error [] "no available egress IPs" StatusInternalServerError)
        | Some ips =>
            match ips !! Intn env with
            | Some info => inr (config.IP_ info)
            | None => inl Panic
            end
        end
    end.
Proof.
  intros Hx. unfold egress. rewrite Hx. simpl.
  destruct (config_ hs) as [c|]; [|done].
  destruct (config.GetAvailableIPs c (interfaces env)) as [[|info ips]|]; done.
Qed.

Lemma egress_present (hs : HTTPServer) (env : Env) (r : Request) :
  XEgressIP r <> "" ->
  egress hs env r =
    match config_ hs with
    | Some c =>
        if config.IsIPAllowed c (interfaces env) (XEgressIP r)
        then inr (XEgressIP r)
        else inl (Error [] "specified egress IP is not allowed" StatusForbidden)
    | None => inr (XEgressIP r)
    end.
Proof.
  intros Hx. unfold egress.
  destruct (String.eqb_spec (XEgressIP r) ""); [done|].
  destruct (config_ hs) as [c|]; [|done].
  by destruct (config.IsIPAllowed c (interfaces env) (XEgressIP r)).
Qed.

(** With a configuration loaded, an address that does not parse is turned
    away by the check of the allowed addresses, before [net.ParseIP] is
    asked: the answer is 403 and the 400 of the parse check is never
    reached. *)
Lemma handleProxy_unparseable_configured (hs : HTTPServer) (env : Env) (r : Request)
    (st : ratelimit.Heap * ratelimit.Store) (c : config.Config) :
  config_ hs = Some c ->
  XEgressIP r <> "" ->
  ParseIP (XEgressIP r) = None ->
  handleProxy hs env r st =
    (Error [] "specified egress IP is not allowed" StatusForbidden, st).
Proof.
  intros Hc Hx Hp. unfold handleProxy.
  rewrite (egress_present _ _ _ Hx), Hc, (IsIPAllowed_unparseable _ _ _ Hp). done.
Qed.

Lemma handleProxy_unparseable_unconfigured (hs : HTTPServer) (env : Env) (r : Request)
    (st : ratelimit.Heap * ratelimit.Store) :
  config_ hs = None ->
  XEgressIP r <> "" ->
  ParseIP (XEgressIP r) = None ->
  handleProxy hs env r st = (Error [] "invalid egress IP format" StatusBadRequest, st).
Proof.
  intros Hc Hx Hp. unfold handleProxy.
  rewrite (egress_present _ _ _ Hx), Hc, Hp. done.
Qed.

Lemma handleProxy_not_allowed (hs : HTTPServer) (env : Env) (r : Request)
    (st : ratelimit.Heap * ratelimit.Store) (c : config.Config) :
  config_ hs = Some c ->
  XEgressIP r <> "" ->
  config.IsIPAllowed c (interfaces env) (XEgressIP r) = false ->
  handleProxy hs env r st =
    (Error [] "specified egress IP is not allowed" StatusForbidden, st).
Proof.
  intros Hc Hx Hp. unfold handleProxy.
  rewrite (egress_present _ _ _ Hx), Hc, Hp. done.
Qed.

(** The limiter [GetOrCreate] returns is an address of the heap. *)
Lemma GetOrCreate_in_heap now born egressIP resourceKey cfg hs :
  Store_wf hs ->
  is_Some ((ratelimit.GetOrCreate now born egressIP resourceKey cfg hs).2.1
             !! (ratelimit.GetOrCreate now born egressIP resourceKey cfg hs).1).
Proof.
  intros Hwf.
  pose proof (GetOrCreate_wf now born egressIP resourceKey cfg hs Hwf) as [Hin _].
  destruct (GetOrCreate_bound now born egressIP resourceKey cfg hs) as (e & Hk & Hl & _).
  apply lookup_lt_is_Some. rewrite <- Hl. by eapply Hin.
Qed.

(** Once the egress address is chosen and parsed, the request is rate
    limited and forwarded: the outcomes of the second half of
    [handleProxy]. *)
Lemma handleProxy_after_egress (hs : HTTPServer) (env : Env) (r : Request)
    (st : ratelimit.Heap * ratelimit.Store) (egressIP : string) (localIP : IP) :
  Store_wf st ->
  egress hs env r = inr egressIP ->
  ParseIP egressIP = Some localIP ->
  let out := (handleProxy hs env r st).1 in
  out = dispatch r localIP \/
  (XRateLimit r <> "" /\
   (out = Error [] "invalid X-Rate-Limit header format" StatusBadRequest \/
    out = Error [("X-RateLimit-Source", "specificproxy")] "rate limit exceeded"
            StatusTooManyRequests)).
Proof.
  intros Hwf He Hp. unfold handleProxy. rewrite He, Hp.
  destruct (String.eqb_spec (XRateLimit r) ""); simpl; [by left|].
  destruct (Unmarshal (XRateLimit r)) as [rl|]; [|right; split; [done|by left]].
  set (key := ratelimit.ExtractResourceKey _ _ _).
  pose proof (GetOrCreate_in_heap (now_lookup env) (now_new env) egressIP key rl st Hwf)
    as [o Ho].
  destruct (ratelimit.GetOrCreate _ _ _ _ _ _) as [l [h s]]. simpl in Ho. rewrite Ho.
  destruct (ratelimit.Allow (now_allow env) o) as [[|] o']; simpl; [by left|].
  right. split; [done|by right].
Qed.

End Proxy.

(** C9.  A server without a configuration never answers 403: a request
    that names an egress address is not checked against the allowed
    addresses, whatever the interfaces of the host are; if the address
    parses, the request goes on with it (to the rate limit, if the request
    asks for one, and then to the forwarding handler); and
    [handleProxy] answers 500 exactly when the request names no egress
    address. *)
Theorem handleProxy_unconfigured `{GoLib} (hs : http_server.HTTPServer)
    (env : http_server.Env) (r : http_server.Request)
    (st : ratelimit.Heap * ratelimit.Store) :
  http_server.config_ hs = None ->
  Store_wf st ->
  Outcome_code (http_server.handleProxy hs env r st).1
    <> Some http_server.StatusForbidden /\
  (http_server.XEgressIP r <> "" ->
   http_server.egress hs env r = inr (http_server.XEgressIP r)) /\
  (forall localIP : IP,
      http_server.XEgressIP r <> "" ->
      ParseIP (http_server.XEgressIP r) = Some localIP ->
      let out := (http_server.handleProxy hs env r st).1 in
      out = http_server.dispatch r localIP \/
      (http_server.XRateLimit r <> "" /\
       (Outcome_code out = Some http_server.StatusBadRequest \/
        Outcome_code out = Some http_server.StatusTooManyRequests))) /\
  (Outcome_code (http_server.handleProxy hs env r st).1
     = Some http_server.StatusInternalServerError
   <-> http_server.XEgressIP r = "").
Proof.
  intros Hc Hwf.
  set (out := (http_server.handleProxy hs env r st).1).
  assert (Hdisp : forall ip, Outcome_code (http_server.dispatch r ip) = None).
  { intros ip. unfold http_server.dispatch. by destruct (String.eqb _ _). }
  assert (Hcases :
    (http_server.XEgressIP r = "" /\
     out = http_server.Error [] "server not configured"
             http_server.StatusInternalServerError) \/
    (http_server.XEgressIP r <> "" /\ ParseIP (http_server.XEgressIP r) = None /\
     out = http_server.Error [] "invalid egress IP format" http_server.StatusBadRequest) \/
    (http_server.XEgressIP r <> "" /\
     exists ip, ParseIP (http_server.XEgressIP r) = Some ip /\
       (out = http_server.dispatch r ip \/
        (http_server.XRateLimit r <> "" /\
         (out = http_server.Error [] "invalid X-Rate-Limit header format"
                  http_server.StatusBadRequest \/
          out = http_server.Error [("X-RateLimit-Source", "specificproxy")]
                  "rate limit exceeded" http_server.StatusTooManyRequests))))).
  { destruct (decide (http_server.XEgressIP r = "")) as [Hx|Hx].
    - left. split; [done|]. subst out. unfold http_server.handleProxy.
      by rewrite (egress_absent _ _ _ Hx), Hc.
    - right. pose proof (egress_present hs env r Hx) as He. rewrite Hc in He.
      destruct (ParseIP (http_server.XEgressIP r)) as [ip|] eqn:Hp.
      + right. split; [done|]. exists ip. split; [done|].
        apply (handleProxy_after_egress hs env r st _ ip Hwf He Hp).
      + left. split; [done|]. split; [done|]. subst out.
        by rewrite (handleProxy_unparseable_unconfigured hs env r st Hc Hx Hp). }
  split; [|split; [|split]].
  - destruct Hcases as [ [_ ->] | [ (_ & _ & ->) | (_ & ip & _ & [ -> | [_ [ -> | -> ] ] ]) ] ];
      rewrite ?Hdisp; done.
  - intros Hx. rewrite (egress_present hs env r Hx). by rewrite Hc.
  - intros localIP Hx Hp.
    destruct Hcases as [[Hx' _]|[(_ & Hp' & _)|(_ & ip & Hp' & Hout)]];
      [done|congruence|].
    assert (ip = localIP) as -> by congruence.
    destruct Hout as [Hout|[Hrl [Hout|Hout]]]; [by left|right..];
      (split; [done|]); fold out; rewrite Hout; [by left|by right].
  - destruct Hcases as [ [Hx ->] | [ (Hx & _ & ->) | (Hx & ip & _ & [ -> | [_ [ -> | -> ] ] ]) ] ];
      rewrite ?Hdisp; split; done.
Qed.




(** ** The proxy on the requests of the tests *)

Section RunProxy.
#[local] Existing Instance GoModel.lib.
Import http_server.

(** A host whose only interface is the loopback, a second one with an
    interface that has two routable addresses, and the configurations of
    the tests. *)
Let loopbackHost : config.Interfaces :=
  Some [ {| config.Name := "lo"; config.FlagUp := true;
            config.Addrs := Some [config.IPNet (127, 0, 0, 1)] |} ].

Let routedHost : config.Interfaces :=
  Some [ {| config.Name := "lo"; config.FlagUp := true;
            config.Addrs := Some [config.IPNet (127, 0, 0, 1)] |};
         {| config.Name := "eth0"; config.FlagUp := true;
            config.Addrs := Some [config.IPNet (192, 168, 1, 10);
                                  config.IPNet (192, 168, 1, 11)] |} ].


Let configured (names : list string) : HTTPServer :=
  {| config_ := Some {| config.AllowedInterfaces := names |} |}.

Let unconfigured : HTTPServer := {| config_ := None |}.

Let get (egressIP rateLimit : string) : Request :=
  {| Method := "GET"; Host := "example.com"; URLPath := "/";
     XEgressIP := egressIP; XRateLimit := rateLimit |}.

Let at_ (ifs : config.Interfaces) (draw : nat) (now : Go.Time) : Env :=
  {| interfaces := ifs; Intn := draw;
     now_lookup := now; now_new := now; now_allow := now |}.

(** [TestProxy_ForbiddenIP]: 403 for an address that is on no allowed
    interface. *)
Example TestProxy_ForbiddenIP :
  handleProxy (configured ["lo"]) (at_ loopbackHost 0 0) (get "10.255.255.255" "")
    ([], ratelimit.NewStore)
  = (Error [] "specified egress IP is not allowed" StatusForbidden,
     ([], ratelimit.NewStore)).
Proof. reflexivity. Qed.

(** [TestProxy_InvalidIP]: 400, on a server without configuration. *)
Example TestProxy_InvalidIP :
  handleProxy unconfigured (at_ loopbackHost 0 0) (get "not-an-ip" "")
    ([], ratelimit.NewStore)
  = (Error [] "invalid egress IP format" StatusBadRequest, ([], ratelimit.NewStore)).
Proof. reflexivity. Qed.

(** [TestProxy_InvalidRateLimitHeader]. *)
Example TestProxy_InvalidRateLimitHeader :
  handleProxy unconfigured (at_ loopbackHost 0 0) (get "127.0.0.1" "invalid json")
    ([], ratelimit.NewStore)
  = (Error [] "invalid X-Rate-Limit header format" StatusBadRequest,
     ([], ratelimit.NewStore)).
Proof. reflexivity. Qed.

(** [TestProxy_RateLimitExceeded]: of two requests with a token bucket of
    rate 1, the first is forwarded and the second gets 429 with the header
    that names the proxy. *)
Example TestProxy_RateLimitExceeded :
  let r := get "127.0.0.1" GoModel.testDirectiveText in
  let '(out1, st1) := handleProxy unconfigured (at_ loopbackHost 0 0) r
                        ([], ratelimit.NewStore) in
  let '(out2, st2) := handleProxy unconfigured (at_ loopbackHost 0 1000) r st1 in
  out1 = handleHTTPProxy (127, 0, 0, 1) /\
  out2 = Error [("X-RateLimit-Source", "specificproxy")] "rate limit exceeded"
           StatusTooManyRequests.
Proof. vm_compute. done. Qed.

(** C5: the code answers 403, not 400, to an egress address that does not
    parse when a configuration is loaded (as it always is once [main] has
    started the server): [IsIPAllowed] is asked first and rejects what it
    cannot parse, so the parse check of [handleProxy] with its 400 is only
    reached on a server without configuration. *)
Theorem handleProxy_unparseable_ip_is_forbidden :
  GoModel.ParseIP "not-an-ip" = None /\
  handleProxy (configured ["lo"]) (at_ loopbackHost 0 0) (get "not-an-ip" "")
    ([], ratelimit.NewStore)
  = (Error [] "specified egress IP is not allowed" StatusForbidden,
     ([], ratelimit.NewStore)).
Proof. split; reflexivity. Qed.



Lemma handleProxy_unconfigured_witness :
  Outcome_code (handleProxy unconfigured (at_ loopbackHost 0 0) (get "10.255.255.255" "")
                  ([], ratelimit.NewStore)).1 <> Some StatusForbidden /\
  (handleProxy unconfigured (at_ loopbackHost 0 0) (get "10.255.255.255" "")
     ([], ratelimit.NewStore)).1 = handleHTTPProxy (10, 255, 255, 255).
Proof.
  pose proof (handleProxy_unconfigured unconfigured (at_ loopbackHost 0 0)
                (get "10.255.255.255" "") ([], ratelimit.NewStore) eq_refl NewStore_wf)
    as (H403 & _ & Hgo & _).
  split; [exact H403|].
  destruct (Hgo (10, 255, 255, 255) ltac:(discriminate) eq_refl) as [Hout|[Hrl _]].
  - exact Hout.
  - exfalso. apply Hrl. reflexivity.
Defined.

End RunProxy.

(** * Further properties of the code *)

(** ** Fixed window: more on the counter *)

Section FixedWindowMore.
Import ratelimit.

(** A call on a full window that has not run out is refused and changes
    nothing. *)
Lemma FixedWindow_Allow_full (now : Go.Time) (fw : FixedWindow) :
  maxRequests fw <= count fw ->
  Go.Sub now (windowStart fw) < windowPeriod fw ->
  FixedWindow_Allow now fw = (false, fw).
Proof.
  intros Hfull Hin. unfold FixedWindow_Allow.
  rewrite roll_same_window by done.
  destruct (Z.ltb_spec (count fw) (maxRequests fw)); [lia|done].
Qed.

Lemma FixedWindow_run_full (times : list Go.Time) (fw : FixedWindow) :
  maxRequests fw <= count fw ->
  Forall (fun t => Go.Sub t (windowStart fw) < windowPeriod fw) times ->
  FixedWindow_run times fw = (repeat false (length times), fw).
Proof.
  intros Hfull. induction times as [|t times IH]; intros Hin; [done|].
  inversion Hin as [|? ? Ht Hrest]; subst.
  cbn [FixedWindow_run]. rewrite FixedWindow_Allow_full, IH by done. done.
Qed.

(** One call keeps the counter between zero and the rate. *)
Lemma FixedWindow_Allow_bounds (now : Go.Time) (fw : FixedWindow) :
  0 <= count fw <= maxRequests fw -> maxRequests fw <= Go.MaxInt64 ->
  let fw' := (FixedWindow_Allow now fw).2 in
  0 <= count fw' <= maxRequests fw' /\
  maxRequests fw' = maxRequests fw /\ windowPeriod fw' = windowPeriod fw.
Proof.
  intros Hc Hmax. unfold FixedWindow_Allow.
  pose proof (roll_count_le now fw _ Hc) as Hr.
  pose proof (roll_maxRequests now fw) as HM.
  pose proof (roll_windowPeriod now fw) as HP.
  destruct (Z.ltb_spec (count (roll now fw)) (maxRequests (roll now fw))); cbn.
  - rewrite wrap64_id by (unfold Go.int64, Go.MinInt64, Go.MaxInt64 in *; lia).
    rewrite HM, HP. lia.
  - rewrite HM, HP. lia.
Qed.

Lemma FixedWindow_run_bounds (times : list Go.Time) (fw : FixedWindow) :
  0 <= count fw <= maxRequests fw -> maxRequests fw <= Go.MaxInt64 ->
  let fw' := (FixedWindow_run times fw).2 in
  0 <= count fw' <= maxRequests fw' /\
  maxRequests fw' = maxRequests fw /\ windowPeriod fw' = windowPeriod fw.
Proof.
  revert fw. induction times as [|t times IH]; intros fw Hc Hmax; [cbn; lia|].
  cbn [FixedWindow_run].
  destruct (FixedWindow_Allow_bounds t fw Hc Hmax) as (Hc1 & HM1 & HP1).
  destruct (FixedWindow_Allow t fw) as [ok fw1]. cbn [snd] in *.
  specialize (IH fw1 Hc1 ltac:(lia)).
  destruct (FixedWindow_run times fw1) as [oks fw2]. cbn [snd] in *. lia.
Qed.

(** With a rate that is not positive the counter stays at zero and every
    call is refused. *)
Lemma FixedWindow_run_no_rate (times : list Go.Time) (fw : FixedWindow) :
  maxRequests fw <= 0 -> count fw = 0 ->
  (FixedWindow_run times fw).1 = repeat false (length times).
Proof.
  revert fw. induction times as [|t times IH]; intros fw Hmax Hc; [done|].
  cbn [FixedWindow_run]. unfold FixedWindow_Allow.
  assert (Hc' : count (roll t fw) = 0).
  { unfold roll. destruct (_ <=? _); done. }
  rewrite Hc', roll_maxRequests.
  destruct (Z.ltb_spec 0 (maxRequests fw)); [lia|].
  specialize (IH (roll t fw)). rewrite roll_maxRequests in IH.
  destruct (FixedWindow_run times (roll t fw)) as [oks fw2]. cbn [fst] in *.
  cbn [length repeat]. f_equal. by apply IH.
Qed.

(** With a window period that is not positive every call opens a new
    window. *)
Lemma FixedWindow_run_no_period (times : list Go.Time) (fw : FixedWindow) :
  windowPeriod fw <= 0 -> 0 < maxRequests fw <= Go.MaxInt64 ->
  nondecreasing_from (windowStart fw) times ->
  (FixedWindow_run times fw).1 = repeat true (length times).
Proof.
  revert fw. induction times as [|t times IH]; intros fw HP Hmax Hmono; [done|].
  destruct Hmono as [Ht Hrest].
  cbn [FixedWindow_run]. unfold FixedWindow_Allow.
  pose proof (Sub_nonneg t (windowStart fw) Ht) as Hsub.
  destruct (roll_new_window t fw ltac:(lia)) as [Hst Hcnt].
  rewrite Hcnt, roll_maxRequests, roll_windowPeriod, Hst.
  destruct (Z.ltb_spec 0 (maxRequests fw)); [|lia].
  set (fw1 := {| count := _ |}).
  specialize (IH fw1 HP Hmax Hrest).
  destruct (FixedWindow_run times fw1) as [oks fw2]. cbn [fst] in *.
  cbn [length repeat]. by f_equal.
Qed.

End FixedWindowMore.

(** X1.  Of any number of calls of [Allow] made inside the first window
    of a fixed window of rate [r >= 0], the first [r] are allowed and all
    the others are denied. *)
Theorem FixedWindow_calls_in_one_window (now0 r p : Z) (times : list Go.Time) :
  0 <= r <= Go.MaxInt64 ->
  Forall (fun t => Go.Sub t now0 < ratelimit.windowPeriod (ratelimit.NewFixedWindow now0 r p))
    times ->
  (ratelimit.FixedWindow_run times (ratelimit.NewFixedWindow now0 r p)).1
    = repeat true (length times `min` Z.to_nat r)
        ++ repeat false (length times - Z.to_nat r).
Proof.
  intros Hr Hin. set (fw0 := ratelimit.NewFixedWindow now0 r p) in *.
  rewrite <- (take_drop (Z.to_nat r) times) in Hin.
  rewrite <- (take_drop (Z.to_nat r) times) at 1.
  apply Forall_app in Hin as [Hin1 Hin2].
  rewrite FixedWindow_run_app. cbn [fst].
  destruct (FixedWindow_run_same_window (take (Z.to_nat r) times) fw0)
    as (Hoks & Hcnt & Hmax & Hst & Hper); [cbn; lia| |done|].
  { cbn. rewrite length_take. lia. }
  rewrite Hoks, length_take. f_equal; [f_equal; lia|].
  destruct (decide (length times <= Z.to_nat r)%nat) as [Hshort|Hlong].
  - rewrite drop_ge by lia. replace (length times - Z.to_nat r)%nat with 0%nat by lia.
    done.
  - rewrite FixedWindow_run_full.
    + cbn [fst]. by rewrite length_drop.
    + rewrite Hcnt, Hmax, length_take. cbn. lia.
    + by rewrite Hst, Hper.
Qed.

Lemma FixedWindow_calls_in_one_window_witness :
  (ratelimit.FixedWindow_run [0; 10; 20; 30; 40] (ratelimit.NewFixedWindow 0 2 1)).1
    = repeat true (length [0; 10; 20; 30; 40] `min` Z.to_nat 2)
        ++ repeat false (length [0; 10; 20; 30; 40] - Z.to_nat 2).
Proof.
  apply (FixedWindow_calls_in_one_window 0 2 1); [unfold Go.MaxInt64; lia|].
  repeat constructor.
Defined.

(** X2.  Whatever the clock readings, after any run of calls the counter
    of a fixed window of rate [r >= 0] is between 0 and [r], and
    [maxRequests] and [windowPeriod] are what the constructor set. *)
Theorem FixedWindow_count_bounded (now0 r p : Z) (times : list Go.Time) :
  0 <= r <= Go.MaxInt64 ->
  let fw := (ratelimit.FixedWindow_run times (ratelimit.NewFixedWindow now0 r p)).2 in
  0 <= ratelimit.count fw <= r /\
  ratelimit.maxRequests fw = r /\
  ratelimit.windowPeriod fw = ratelimit.windowPeriod (ratelimit.NewFixedWindow now0 r p).
Proof.
  intros Hr.
  destruct (FixedWindow_run_bounds times (ratelimit.NewFixedWindow now0 r p))
    as (Hc & HM & HP); [cbn; lia|cbn; lia|].
  cbn in HM. cbn. rewrite HM in Hc. done.
Qed.

Lemma FixedWindow_count_bounded_witness :
  let fw := (ratelimit.FixedWindow_run [5; 3; 2000000000; 7]
               (ratelimit.NewFixedWindow 0 2 1)).2 in
  0 <= ratelimit.count fw <= 2 /\
  ratelimit.maxRequests fw = 2 /\
  ratelimit.windowPeriod fw = ratelimit.windowPeriod (ratelimit.NewFixedWindow 0 2 1).
Proof. apply (FixedWindow_count_bounded 0 2 1). unfold Go.MaxInt64. lia. Defined.

(** X3.  A fixed window whose rate is zero or negative denies every
    call, whatever the clock readings. *)
Theorem FixedWindow_nonpositive_rate_denies (now0 r p : Z) (times : list Go.Time) :
  r <= 0 ->
  (ratelimit.FixedWindow_run times (ratelimit.NewFixedWindow now0 r p)).1
    = repeat false (length times).
Proof. intros Hr. by apply FixedWindow_run_no_rate. Qed.

Lemma FixedWindow_nonpositive_rate_denies_witness :
  (ratelimit.FixedWindow_run [0; 5000000000; 1] (ratelimit.NewFixedWindow 0 0 1)).1
    = repeat false (length [0; 5000000000; 1]).
Proof. apply (FixedWindow_nonpositive_rate_denies 0 0 1). lia. Defined.

(** X4.  A fixed window whose window period is zero or negative (a
    period of 0 seconds, or one whose product with [time.Second] wraps
    around) opens a new window on every call: with a rate of at least 1
    and a clock that does not go back, no call is denied. *)
Theorem FixedWindow_nonpositive_period_allows (now0 r p : Z) (times : list Go.Time) :
  0 < r <= Go.MaxInt64 ->
  ratelimit.windowPeriod (ratelimit.NewFixedWindow now0 r p) <= 0 ->
  nondecreasing_from now0 times ->
  (ratelimit.FixedWindow_run times (ratelimit.NewFixedWindow now0 r p)).1
    = repeat true (length times).
Proof. intros Hr Hp Hmono. by apply FixedWindow_run_no_period. Qed.

Lemma FixedWindow_nonpositive_period_allows_witness :
  (ratelimit.FixedWindow_run [0; 0; 0; 1] (ratelimit.NewFixedWindow 0 1 0)).1
    = repeat true (length [0; 0; 0; 1]) /\
  (ratelimit.FixedWindow_run [0; 0; 0; 1] (ratelimit.NewFixedWindow 0 1 9223372037)).1
    = repeat true (length [0; 0; 0; 1]).
Proof.
  split.
  - apply (FixedWindow_nonpositive_period_allows 0 1 0);
      [unfold Go.MaxInt64; lia|vm_compute; discriminate|cbn [nondecreasing_from]; lia].
  - apply (FixedWindow_nonpositive_period_allows 0 1 9223372037);
      [unfold Go.MaxInt64; lia|vm_compute; discriminate|cbn [nondecreasing_from]; lia].
Defined.

(** X5.  [r] calls inside the first window and [r] calls that start once
    the window has run out are all allowed: [2 r] calls pass around a
    window boundary, however short the time between them. *)
Theorem FixedWindow_boundary_burst (now0 r p : Z) (ts1 ts2 : list Go.Time) (t : Go.Time) :
  0 < r <= Go.MaxInt64 ->
  let fw0 := ratelimit.NewFixedWindow now0 r p in
  length ts1 = Z.to_nat r ->
  Forall (fun t1 => Go.Sub t1 now0 < ratelimit.windowPeriod fw0) ts1 ->
  ratelimit.windowPeriod fw0 <= Go.Sub t now0 ->
  length (t :: ts2) = Z.to_nat r ->
  (ratelimit.FixedWindow_run (ts1 ++ t :: ts2) fw0).1
    = repeat true (Z.to_nat r + Z.to_nat r).
Proof.
  intros Hr fw0 Hlen1 Hin Hout Hlen2.
  rewrite FixedWindow_run_app. cbn [fst].
  destruct (FixedWindow_run_same_window ts1 fw0)
    as (Hoks & Hcnt & Hmax & Hst & Hper); [cbn; lia|cbn; lia|done|].
  rewrite Hoks, Hlen1, repeat_app. f_equal.
  set (fw1 := (ratelimit.FixedWindow_run ts1 fw0).2) in *.
  cbn [ratelimit.FixedWindow_run]. unfold ratelimit.FixedWindow_Allow.
  destruct (roll_new_window t fw1) as [Hst' Hcnt']; [by rewrite Hst, Hper|].
  rewrite Hcnt', roll_maxRequests, Hmax. change (ratelimit.maxRequests fw0) with r.
  destruct (Z.ltb_spec 0 r); [|lia].
  set (fw2 := {| ratelimit.count := _ |}).
  pose proof (FixedWindow_run_room ts2 fw2 1) as Hroom.
  destruct (ratelimit.FixedWindow_run ts2 fw2) as [oks fw3]. cbn [fst] in *.
  rewrite Hroom.
  - cbn [length] in Hlen2. rewrite <- Hlen2. done.
  - cbn. rewrite wrap64_id; unfold Go.int64, Go.MinInt64, Go.MaxInt64; lia.
  - cbn [length] in Hlen2. cbn. unfold Go.MaxInt64 in *. lia.
Qed.

Lemma FixedWindow_boundary_burst_witness :
  (ratelimit.FixedWindow_run ([999999998; 999999999] ++ 1000000000 :: [1000000001])
     (ratelimit.NewFixedWindow 0 2 1)).1
    = repeat true (Z.to_nat 2 + Z.to_nat 2).
Proof.
  apply (FixedWindow_boundary_burst 0 2 1);
    [unfold Go.MaxInt64; lia|reflexivity|repeat constructor|vm_compute; discriminate
    |reflexivity].
Defined.

(** ** Token bucket: calls at one instant, and a rate of zero *)

Section TokenBucketMore.
Import ratelimit.

(** Calls at one instant on a bucket that holds [k] whole tokens: the
    first [k] are served, the others are not. *)
Lemma TokenBucket_run_standing (now : Go.Time) (n k : nat) (tb : TokenBucket) (r : Z) :
  Z.of_nat k <= r -> r <= 2 ^ 53 ->
  tokens tb = Go.float64 (Z.of_nat k) -> maxTokens tb = Go.float64 r ->
  finite_nonneg (Prim2SF (refillRate tb)) -> lastRefill tb = now ->
  (TokenBucket_run (repeat now n) tb).1
    = repeat true (n `min` k) ++ repeat false (n - k).
Proof.
  revert k tb. induction n as [|n IH]; intros k tb Hk Hr Ht HM Hrr Hlast; [done|].
  cbn [repeat TokenBucket_run].
  rewrite (TokenBucket_Allow_whole now tb (Z.of_nat k) r) by (done || lia).
  destruct k as [|k].
  - rewrite bool_decide_eq_false_2 by lia.
    specialize (IH 0%nat {| tokens := Go.float64 (Z.of_nat 0);
                       maxTokens := maxTokens tb;
                       refillRate := refillRate tb;
                       lastRefill := now |}).
    destruct (TokenBucket_run (repeat now n) _) as [oks tb2].
    cbn [fst] in *. rewrite IH by (done || lia).
    rewrite Nat.min_0_r, Nat.sub_0_r. done.
  - rewrite bool_decide_eq_true_2 by lia.
    specialize (IH k {| tokens := Go.float64 (Z.of_nat (S k) - 1);
                       maxTokens := maxTokens tb;
                       refillRate := refillRate tb;
                       lastRefill := now |}).
    destruct (TokenBucket_run (repeat now n) _) as [oks tb2].
    cbn [fst] in *. rewrite IH; [done|lia|done| |done..].
    cbn. f_equal. lia.
Qed.

Lemma TokenBucket_Allow_empty (now : Go.Time) (tb : TokenBucket) :
  lastRefill tb <= now -> TokenBucket_empty tb ->
  (TokenBucket_Allow now tb).1 = false /\
  TokenBucket_empty (TokenBucket_Allow now tb).2 /\
  lastRefill (TokenBucket_Allow now tb).2 = now.
Proof.
  intros Hnow ((st & Ht) & (sM & HM) & (sr & Hr)).
  pose proof (Seconds_finite_nonneg (Go.Sub now (lastRefill tb))
                (Sub_nonneg _ _ Hnow)) as He.
  assert (Hrefill : exists s, Prim2SF (refill now tb) = S754_zero s).
  { unfold refill.
    set (sum := (tokens tb + Go.Seconds (Go.Sub now (lastRefill tb)) * refillRate tb)%float).
    assert (Hsum : exists s, Prim2SF sum = S754_zero s).
    { unfold sum. rewrite add_spec, mul_spec, Ht, Hr.
      destruct (Prim2SF (Go.Seconds _)) as [se|[|]| |[|] q f]; try done;
        cbn; destruct st; try destruct se; destruct sr; cbn; eauto. }
    destruct Hsum as [s Hsum]. rewrite ltb_spec, HM, Hsum.
    change (SFltb (S754_zero sM) (S754_zero s)) with false. eauto. }
  destruct Hrefill as [s Hs].
  unfold TokenBucket_Allow. rewrite leb_spec, Hs, Prim2SF_one.
  change (SFleb _ (S754_zero s)) with false. cbn [fst snd].
  split; [done|]. split; [|done]. unfold TokenBucket_empty; cbn. eauto 10.
Qed.

Lemma TokenBucket_run_empty (times : list Go.Time) (tb : TokenBucket) :
  nondecreasing_from (lastRefill tb) times -> TokenBucket_empty tb ->
  (TokenBucket_run times tb).1 = repeat false (length times).
Proof.
  revert tb. induction times as [|t times IH]; intros tb Hmono He; [done|].
  destruct Hmono as [Ht Hrest]. cbn [TokenBucket_run].
  destruct (TokenBucket_Allow_empty t tb Ht He) as (Hok & He1 & Hl1).
  destruct (TokenBucket_Allow t tb) as [ok tb1]. cbn [fst snd] in *.
  rewrite <- Hl1 in Hrest. specialize (IH tb1 Hrest He1).
  destruct (TokenBucket_run times tb1) as [oks tb2]. cbn [fst] in *.
  cbn [length repeat]. by rewrite Hok, IH.
Qed.

Lemma NewTokenBucket_empty (now : Go.Time) (p : Z) :
  0 < p <= Go.MaxInt64 -> TokenBucket_empty (NewTokenBucket now 0 p).
Proof.
  unfold Go.MaxInt64. intros Hp.
  destruct (float64_pos p ltac:(lia)) as (pp & ep & Hfp & _).
  unfold TokenBucket_empty, NewTokenBucket. cbn [tokens maxTokens refillRate].
  rewrite div_spec, Hfp, float64_0. cbn. eauto 10.
Qed.

End TokenBucketMore.

(** X6.  Of any number of calls made at the instant of its creation, a
    token bucket of rate [r] between 1 and [2 ^ 53] allows the first [r]
    and denies all the others. *)
Theorem TokenBucket_calls_at_one_instant (r p : Z) (now : Go.Time) (n : nat) :
  0 < r <= 2 ^ 53 -> 0 < p <= Go.MaxInt64 ->
  (ratelimit.TokenBucket_run (repeat now n) (ratelimit.NewTokenBucket now r p)).1
    = repeat true (n `min` Z.to_nat r) ++ repeat false (n - Z.to_nat r).
Proof.
  intros Hr Hp.
  destruct (NewTokenBucket_sound now r p) as (_ & Hrr & _); [unfold Go.MaxInt64; lia|done|].
  apply (TokenBucket_run_standing now n (Z.to_nat r) _ r); try (done || lia).
  cbn. f_equal. lia.
Qed.

Lemma TokenBucket_calls_at_one_instant_witness :
  (ratelimit.TokenBucket_run (repeat 7 5) (ratelimit.NewTokenBucket 7 2 60)).1
    = repeat true (5 `min` Z.to_nat 2) ++ repeat false (5 - Z.to_nat 2).
Proof.
  apply (TokenBucket_calls_at_one_instant 2 60 7 5); [lia|unfold Go.MaxInt64; lia].
Defined.

(** X7.  A token bucket of rate 0 (and a period [p > 0]) denies every
    call, however much time passes between the calls. *)
Theorem TokenBucket_zero_rate_denies (p : Z) (now0 : Go.Time) (times : list Go.Time) :
  0 < p <= Go.MaxInt64 ->
  nondecreasing_from now0 times ->
  (ratelimit.TokenBucket_run times (ratelimit.NewTokenBucket now0 0 p)).1
    = repeat false (length times).
Proof.
  intros Hp Hmono. apply TokenBucket_run_empty; [done|by apply NewTokenBucket_empty].
Qed.

Lemma TokenBucket_zero_rate_denies_witness :
  (ratelimit.TokenBucket_run [0; 1; 3600000000000] (ratelimit.NewTokenBucket 0 0 1)).1
    = repeat false (length [0; 1; 3600000000000]).
Proof.
  apply (TokenBucket_zero_rate_denies 1 0);
    [unfold Go.MaxInt64; lia|cbn [nondecreasing_from]; lia].
Defined.

(** ** Keys, entries and sweeps *)

(** Splitting at the first separator. *)
Lemma app_sep_inj_l (c : ascii) (s1 s2 : string) :
  ~ occurs c s1 -> ~ occurs c s2 ->
  forall t1 t2 : string,
    s1 +:+ String c t1 = s2 +:+ String c t2 -> s1 = s2 /\ t1 = t2.
Proof.
  revert s2. induction s1 as [|a s1 IH]; intros [|b s2] H1 H2 t1 t2 Heq;
    cbn in *.
  - by injection Heq.
  - injection Heq as -> _. tauto.
  - injection Heq as -> _. tauto.
  - injection Heq as -> Heq. destruct (IH s2) with (t1 := t1) (t2 := t2) as [-> ->];
      [tauto|tauto|done|done].
Qed.

(** X8.  When the egress addresses and the resource keys contain no
    [|], [buildKey] is injective: equal keys come from the same egress
    address, resource key, method, rate and period. *)
Theorem buildKey_injective (e1 r1 e2 r2 : string) (c1 c2 : ratelimit.Config) :
  ~ occurs "|" e1 -> ~ occurs "|" r1 -> ~ occurs "|" e2 -> ~ occurs "|" r2 ->
  ratelimit.buildKey e1 r1 c1 = ratelimit.buildKey e2 r2 c2 ->
  e1 = e2 /\ r1 = r2 /\
  ratelimit.Method_ c1 = ratelimit.Method_ c2 /\
  ratelimit.Rate c1 = ratelimit.Rate c2 /\
  ratelimit.Period c1 = ratelimit.Period c2.
Proof.
  intros He1 Hr1 He2 Hr2 Heq.
  assert (Heq' := Heq). rewrite !buildKey_shape in Heq'.
  apply app_sep_inj_l in Heq' as [-> Heq']; [|done..].
  apply app_sep_inj_l in Heq' as [-> _]; [|done..].
  split; [done|]. split; [done|]. by apply (buildKey_inj e2 r2).
Qed.

Lemma buildKey_injective_witness :
  let c1 := {| ratelimit.Method_ := "token_bucket"; ratelimit.Rate := 10;
               ratelimit.Period := 60; ratelimit.TTL := 0;
               ratelimit.Resource_ := {| ratelimit.Kind := "domain" |} |} in
  "10.0.0.1" = "10.0.0.1" /\ "example.com" = "example.com" /\
  ratelimit.Method_ c1 = ratelimit.Method_ c1 /\
  ratelimit.Rate c1 = ratelimit.Rate c1 /\
  ratelimit.Period c1 = ratelimit.Period c1.
Proof.
  intros c1.
  apply (buildKey_injective "10.0.0.1" "example.com" "10.0.0.1" "example.com" c1 c1);
    cbn; intuition discriminate.
Defined.

(** X9.  [buildKey] does not tell a [|] of the resource key from its own
    separator: the resource key [k|x] with method [m] and the resource key
    [k] with method [x|m] have the same key, and [GetOrCreate] gives the
    second the limiter of the first, creating nothing. *)
Theorem GetOrCreate_shares_across_separator (now1 born1 now2 born2 : Go.Time)
    (egressIP resourceKey x : string) (cfg : ratelimit.Config)
    (hs : ratelimit.Heap * ratelimit.Store) :
  let cfg' := {| ratelimit.Method_ := x +:+ "|" +:+ ratelimit.Method_ cfg;
                 ratelimit.Rate := ratelimit.Rate cfg;
                 ratelimit.Period := ratelimit.Period cfg;
                 ratelimit.TTL := ratelimit.TTL cfg;
                 ratelimit.Resource_ := ratelimit.Resource_ cfg |} in
  let r1 := ratelimit.GetOrCreate now1 born1 egressIP (resourceKey +:+ "|" +:+ x) cfg hs in
  let r2 := ratelimit.GetOrCreate now2 born2 egressIP resourceKey cfg' r1.2 in
  ratelimit.buildKey egressIP resourceKey cfg'
    = ratelimit.buildKey egressIP (resourceKey +:+ "|" +:+ x) cfg /\
  r2.1 = r1.1 /\ r2.2.1 = r1.2.1.
Proof.
  intros cfg' r1 r2.
  assert (Hkey : ratelimit.buildKey egressIP resourceKey cfg'
                 = ratelimit.buildKey egressIP (resourceKey +:+ "|" +:+ x) cfg).
  { unfold ratelimit.buildKey. cbn [ratelimit.Method_ ratelimit.Rate ratelimit.Period cfg'].
    rewrite !string_app_assoc. done. }
  split; [done|].
  destruct (GetOrCreate_bound now1 born1 egressIP (resourceKey +:+ "|" +:+ x) cfg hs)
    as (entry & Hlook & Hlim & _).
  fold r1 in Hlook, Hlim. rewrite <- Hkey in Hlook.
  unfold r2. destruct (r1.2) as [h1 s1] eqn:Hr1. cbn [fst snd] in *.
  rewrite (GetOrCreate_hit now2 born2 egressIP resourceKey cfg' h1 s1 entry Hlook).
  cbn [fst snd]. done.
Qed.

(** X10.  [GetOrCreate] on a key that is in the store leaves [Len] and
    the limiters as they are; on a key that is not, [Len] grows by one and
    exactly one limiter, the one returned, is created. *)
Theorem GetOrCreate_Len (now born : Go.Time) (egressIP resourceKey : string)
    (cfg : ratelimit.Config) (h : ratelimit.Heap) (s : ratelimit.Store) :
  let r := ratelimit.GetOrCreate now born egressIP resourceKey cfg (h, s) in
  match ratelimit.limiters s !! ratelimit.buildKey egressIP resourceKey cfg with
  | Some _ => ratelimit.Len r.2.2 = ratelimit.Len s /\ r.2.1 = h
  | None => ratelimit.Len r.2.2 = S (ratelimit.Len s) /\
            r.2.1 = h ++ [ratelimit.newLimiter born cfg] /\ r.1 = length h
  end.
Proof.
  intros r. unfold r.
  destruct (ratelimit.limiters s !! ratelimit.buildKey egressIP resourceKey cfg)
    as [entry|] eqn:Hlook.
  - rewrite (GetOrCreate_hit _ _ _ _ _ _ _ _ Hlook). cbn [fst snd].
    split; [|done]. unfold ratelimit.Len. cbn [ratelimit.limiters].
    apply map_size_insert_Some. by rewrite Hlook.
  - rewrite (GetOrCreate_miss _ _ _ _ _ _ _ Hlook). cbn [fst snd].
    split; [|done]. unfold ratelimit.Len. cbn [ratelimit.limiters].
    by apply map_size_insert_None.
Qed.

(** [cleanup] is the filter that keeps the entries still alive. *)
Lemma cleanup_filter (now : Go.Time) (s : ratelimit.Store) :
  ratelimit.limiters (ratelimit.cleanup now s) =
    filter (fun kv => ratelimit.expired now kv.2 = false) (ratelimit.limiters s).
Proof.
  apply map_eq. intros key. rewrite cleanup_lookup, map_lookup_filter.
  destruct (ratelimit.limiters s !! key) as [entry|]; [|done]. cbn.
  destruct (ratelimit.expired now entry) eqn:He.
  - rewrite option_guard_False; [done|]. cbn. congruence.
  - rewrite option_guard_True; done.
Qed.

(** X11.  [cleanup] keeps exactly the entries that have not expired: it
    never adds or changes an entry, [Len] does not grow, a second sweep
    at the same instant removes nothing more, and a sweep that leaves
    [Len] as it was has changed nothing. *)
Theorem cleanup_only_removes (now : Go.Time) (s : ratelimit.Store) :
  ratelimit.limiters (ratelimit.cleanup now s)
    = filter (fun kv => ratelimit.expired now kv.2 = false) (ratelimit.limiters s) /\
  ratelimit.limiters (ratelimit.cleanup now s) ⊆ ratelimit.limiters s /\
  (ratelimit.Len (ratelimit.cleanup now s) <= ratelimit.Len s)%nat /\
  ratelimit.cleanup now (ratelimit.cleanup now s) = ratelimit.cleanup now s /\
  (ratelimit.Len (ratelimit.cleanup now s) = ratelimit.Len s ->
   ratelimit.cleanup now s = s).
Proof.
  assert (Hsub : ratelimit.limiters (ratelimit.cleanup now s) ⊆ ratelimit.limiters s).
  { rewrite cleanup_filter. apply map_filter_subseteq. }
  assert (Hext : forall s1 s2 : ratelimit.Store,
             ratelimit.limiters s1 = ratelimit.limiters s2 -> s1 = s2).
  { intros [m1] [m2]. cbn. congruence. }
  split; [apply cleanup_filter|].
  split; [done|]. split; [by apply map_subseteq_size|]. split.
  - apply Hext. rewrite (cleanup_filter now (ratelimit.cleanup now s)).
    apply map_filter_id. intros key entry Hin.
    rewrite cleanup_filter in Hin. apply map_lookup_filter_Some in Hin as [_ Hin]. done.
  - intros Hlen. apply Hext. apply map_subseteq_size_eq; [done|].
    unfold ratelimit.Len in Hlen. lia.
Qed.

(** X12.  Once a sweep has removed an expired entry, the next
    [GetOrCreate] for its key creates a limiter in its initial state,
    distinct from the old one, which is left as it was; the new entry has
    the time-to-live of the new directive. *)
Theorem GetOrCreate_after_expiry (now born t : Go.Time) (egressIP resourceKey : string)
    (cfg : ratelimit.Config) (h : ratelimit.Heap) (s : ratelimit.Store)
    (entry : ratelimit.limiterEntry) :
  Store_wf (h, s) ->
  ratelimit.limiters s !! ratelimit.buildKey egressIP resourceKey cfg = Some entry ->
  ratelimit.expired t entry = true ->
  let r := ratelimit.GetOrCreate now born egressIP resourceKey cfg
             (h, ratelimit.cleanup t s) in
  r.1 <> ratelimit.limiter entry /\
  r.2.1 !! r.1 = Some (ratelimit.newLimiter born cfg) /\
  r.2.1 !! ratelimit.limiter entry = h !! ratelimit.limiter entry /\
  ratelimit.limiters r.2.2 !! ratelimit.buildKey egressIP resourceKey cfg =
    Some {| ratelimit.limiter := r.1; ratelimit.lastUsed := now;
            ratelimit.ttl := ratelimit.GetTTL cfg |}.
Proof.
  intros [Hbound _] Hlook Hexp r.
  assert (Hgone : ratelimit.limiters (ratelimit.cleanup t s)
                    !! ratelimit.buildKey egressIP resourceKey cfg = None).
  { by rewrite cleanup_lookup, Hlook, Hexp. }
  unfold r. rewrite (GetOrCreate_miss _ _ _ _ _ _ _ Hgone). cbn [fst snd].
  specialize (Hbound _ _ Hlook). cbn [fst snd] in Hbound.
  split; [lia|]. split; [|split].
  - rewrite lookup_app_r by lia. by rewrite Nat.sub_diag.
  - by rewrite lookup_app_l by lia.
  - cbn [ratelimit.limiters]. by rewrite lookup_insert_eq.
Qed.

Lemma GetOrCreate_after_expiry_witness :
  let cfg := {| ratelimit.Method_ := "fixed_window";
                ratelimit.Rate := 10; ratelimit.Period := 60; ratelimit.TTL := 1;
                ratelimit.Resource_ := {| ratelimit.Kind := "domain" |} |} in
  let r0 := ratelimit.GetOrCreate 0 0 "192.168.1.1" "example.com" cfg ([], ratelimit.NewStore) in
  let r := ratelimit.GetOrCreate 3000000000 3000000001 "192.168.1.1" "example.com" cfg
             (r0.2.1, ratelimit.cleanup 2000000000 r0.2.2) in
  r.1 <> 0%nat /\
  r.2.1 !! r.1 = Some (ratelimit.newLimiter 3000000001 cfg).
Proof.
  intros cfg r0 r.
  pose proof (GetOrCreate_after_expiry 3000000000 3000000001 2000000000
                "192.168.1.1" "example.com" cfg r0.2.1 r0.2.2
                {| ratelimit.limiter := 0%nat; ratelimit.lastUsed := 0;
                   ratelimit.ttl := 1000000000 |}) as H.
  destruct H as (H1 & H2 & _).
  - apply (GetOrCreate_wf 0 0 "192.168.1.1" "example.com" cfg ([], ratelimit.NewStore)).
    apply NewStore_wf.
  - vm_compute. reflexivity.
  - vm_compute. reflexivity.
  - split; [exact H1|exact H2].
Defined.

(** X13.  The result of the loop of [cleanup] does not depend on the
    order in which the [range] visits the entries of the map. *)
Theorem cleanup_any_order (now : Go.Time) (s : ratelimit.Store)
    (entries : list (string * ratelimit.limiterEntry)) :
  entries ≡ₚ map_to_list (ratelimit.limiters s) ->
  foldr (fun '(key, entry) m =>
           if ratelimit.expired now entry then delete key m else m)
        (ratelimit.limiters s) entries
    = ratelimit.limiters (ratelimit.cleanup now s).
Proof.
  intros Hperm. apply map_eq. intros key. rewrite cleanup_lookup.
  destruct (ratelimit.limiters s !! key) as [entry|] eqn:Hlook.
  - assert (Hin : (key, entry) ∈ entries).
    { rewrite Hperm. by apply elem_of_map_to_list. }
    destruct (ratelimit.expired now entry) eqn:Hexp.
    + by apply (cleanup_loop_removes now entries _ key entry).
    + rewrite cleanup_loop_keeps; [done|].
      intros entry' Hin'. rewrite Hperm in Hin'. apply elem_of_map_to_list in Hin'.
      congruence.
  - rewrite cleanup_loop_keeps; [done|].
    intros entry' Hin'. rewrite Hperm in Hin'. apply elem_of_map_to_list in Hin'.
    congruence.
Qed.

Lemma cleanup_any_order_witness :
  let s := {| ratelimit.limiters :=
                <["a" := {| ratelimit.limiter := 0%nat; ratelimit.lastUsed := 0;
                            ratelimit.ttl := 10 |}]>
                  (<["b" := {| ratelimit.limiter := 1%nat; ratelimit.lastUsed := 50;
                               ratelimit.ttl := 100 |}]> ∅) |} in
  foldr (fun '(key, entry) m =>
           if ratelimit.expired 60 entry then delete key m else m)
        (ratelimit.limiters s) (reverse (map_to_list (ratelimit.limiters s)))
    = ratelimit.limiters (ratelimit.cleanup 60 s).
Proof.
  intros s.
  apply (cleanup_any_order 60 s (reverse (map_to_list (ratelimit.limiters s)))).
  apply reverse_Permutation.
Defined.

Lemma string_app_nil_r (s : string) : s +:+ "" = s.
Proof.
  induction s as [|a s IH]; [done|].
  change (String a s +:+ "") with (String a (s +:+ "")). by rewrite IH.
Qed.

Lemma string_app_inv_head (s t1 t2 : string) : s +:+ t1 = s +:+ t2 -> t1 = t2.
Proof.
  induction s as [|a s IH]; [done|].
  change (String a (s +:+ t1) = String a (s +:+ t2) -> t1 = t2).
  intros Heq. injection Heq. done.
Qed.

(** X14.  [ExtractResourceKey]: every kind but [domain_path] (an unknown
    one too) gives the host, and so does an empty path for any kind; for
    [domain_path] two paths of one host give the same key only when they
    are equal, but the key does not tell where the host ends and the path
    begins. *)
Theorem ExtractResourceKey_kinds (host path path' a : string)
    (kind : ratelimit.ResourceKind) :
  (kind <> ratelimit.ResourceKindDomainPath ->
   ratelimit.ExtractResourceKey host path kind = host) /\
  ratelimit.ExtractResourceKey host "" kind = host /\
  (ratelimit.ExtractResourceKey host path ratelimit.ResourceKindDomainPath
     = ratelimit.ExtractResourceKey host path' ratelimit.ResourceKindDomainPath
   <-> path = path') /\
  ratelimit.ExtractResourceKey (host +:+ a) path ratelimit.ResourceKindDomainPath
    = ratelimit.ExtractResourceKey host (a +:+ path) ratelimit.ResourceKindDomainPath.
Proof.
  unfold ratelimit.ExtractResourceKey. split; [|split; [|split]].
  - intros Hk. apply String.eqb_neq in Hk. rewrite Hk.
    destruct (String.eqb kind ratelimit.ResourceKindDomain); reflexivity.
  - destruct (String.eqb kind ratelimit.ResourceKindDomainPath); [apply string_app_nil_r|].
    destruct (String.eqb kind ratelimit.ResourceKindDomain); reflexivity.
  - rewrite String.eqb_refl. split; [apply string_app_inv_head|by intros ->].
  - rewrite String.eqb_refl. apply string_app_assoc.
Qed.

(** ** The addresses of the host *)

Section Config.
Context `{GoLib}.
Import config.

Lemma allowedSet_elem (c : Config) (name : string) :
  name ∈ allowedSet c <-> name ∈ AllowedInterfaces c.
Proof. unfold allowedSet. apply elem_of_list_to_set. Qed.

(** The inner loop appends the entries of the addresses it keeps. *)
Lemma GetAvailableIPs_addrs (iface : Interface) (addrs : list Addr) (result : list IPInfo) :
  foldl (fun result addr =>
           match addrIP addr with
           | None => result
           | Some ip =>
               if IP_IsLinkLocalUnicast ip || IP_IsLinkLocalMulticast ip
               then result
               else if IP_IsLoopback ip then result
               else result ++
                      [ {| Interface_ := Name iface;
                           IP_ := IP_String ip;
                           Version := match IP_To4 ip with
                                      | None => 6
                                      | Some _ => 4
                                      end |} ]
           end) result addrs
  = result ++ (IPInfo_of iface <$>
                 filter (fun ip => IP_IsLinkLocalUnicast ip = false /\
                                   IP_IsLinkLocalMulticast ip = false /\
                                   IP_IsLoopback ip = false)
                        (omap addrIP addrs)).
Proof.
  revert result. induction addrs as [|addr addrs IH]; intros result.
  - cbn. by rewrite app_nil_r.
  - cbn [foldl omap list_omap]. destruct (addrIP addr) as [ip|]; [|apply IH].
    rewrite IH. rewrite filter_cons.
    destruct (IP_IsLinkLocalUnicast ip), (IP_IsLinkLocalMulticast ip),
      (IP_IsLoopback ip); cbn [orb]; case_decide as Hd;
      try (destruct Hd as (? & ? & ?); done); try done.
    + rewrite fmap_cons, <- app_assoc. done.
    + exfalso. by apply Hd.
Qed.

(** The outer loop appends what the inner one lists, interface by
    interface. *)
Lemma GetAvailableIPs_ifaces (c : Config) (ifaces : list Interface) (acc : list IPInfo) :
  foldl (fun result iface =>
        if negb (bool_decide (Name iface ∈ allowedSet c)) then result
        else if negb (FlagUp iface) then result
        else match Addrs iface with
             | None => result
             | Some addrs =>
                 foldl (fun result addr =>
                   match addrIP addr with
                   | None => result
                   | Some ip =>
                       if IP_IsLinkLocalUnicast ip || IP_IsLinkLocalMulticast ip
                       then result
                       else if IP_IsLoopback ip then result
                       else result ++
                              [ {| Interface_ := Name iface;
                                   IP_ := IP_String ip;
                                   Version := match IP_To4 ip with
                                              | None => 6
                                              | Some _ => 4
                                              end |} ]
                   end) result addrs
             end) acc ifaces
  = acc ++ (iface ← ifaces; IPInfo_of iface <$> listed c iface).
Proof.
  revert acc. induction ifaces as [|iface ifaces IH]; intros acc.
  - cbn. by rewrite app_nil_r.
  - cbn [foldl]. rewrite IH, bind_cons, app_assoc. f_equal. unfold listed.
    destruct (bool_decide (Name iface ∈ AllowedInterfaces c)) eqn:Hal.
    + rewrite bool_decide_eq_true_2
        by (apply allowedSet_elem; by apply bool_decide_eq_true in Hal).
      cbn [negb andb]. destruct (FlagUp iface); cbn [negb].
      * destruct (Addrs iface) as [addrs|]; [apply GetAvailableIPs_addrs|].
        by rewrite app_nil_r.
      * by rewrite app_nil_r.
    + rewrite bool_decide_eq_false_2
        by (rewrite allowedSet_elem; by apply bool_decide_eq_false in Hal).
      cbn. by rewrite app_nil_r.
Qed.

Lemma GetAvailableIPs_eq (c : Config) (ifaces : list Interface) :
  GetAvailableIPs c (Some ifaces)
    = Some (iface ← ifaces; IPInfo_of iface <$> listed c iface).
Proof. unfold GetAvailableIPs. f_equal. apply GetAvailableIPs_ifaces. Qed.

Lemma listed_elem (c : Config) (iface : Interface) (ip : IP) :
  ip ∈ listed c iface <->
  Name iface ∈ AllowedInterfaces c /\ FlagUp iface = true /\
  (exists addrs addr, Addrs iface = Some addrs /\ addr ∈ addrs /\ addrIP addr = Some ip) /\
  IP_IsLinkLocalUnicast ip = false /\ IP_IsLinkLocalMulticast ip = false /\
  IP_IsLoopback ip = false.
Proof.
  unfold listed. case_bool_decide as Hal; cbn [andb].
  - destruct (FlagUp iface); [|split; [by intros ?%elem_of_nil|by intros (_ & ? & _)]].
    destruct (Addrs iface) as [addrs|].
    + rewrite list_elem_of_filter, list_elem_of_omap. split.
      * intros (Hp & addr & Hin & Ha). repeat split; try tauto. eauto.
      * intros (_ & _ & (addrs' & addr & Heq & Hin & Ha) & Hp).
        injection Heq as <-. eauto.
    + split; [by intros ?%elem_of_nil|]. by intros (_ & _ & (? & ? & ? & _) & _).
  - split; [by intros ?%elem_of_nil|]. by intros (? & _).
Qed.

Lemma host_addresses_elem (ifaces : list Interface) (ip : IP) :
  ip ∈ host_addresses ifaces <->
  exists iface addrs addr,
    iface ∈ ifaces /\ Addrs iface = Some addrs /\ addr ∈ addrs /\ addrIP addr = Some ip.
Proof.
  unfold host_addresses. rewrite list_elem_of_bind. split.
  - intros (iface & Hin & Hif). destruct (Addrs iface) as [addrs|] eqn:Ha;
      [|by apply elem_of_nil in Hin].
    apply list_elem_of_omap in Hin as (addr & Hin & Hip). eauto 10.
  - intros (iface & addrs & addr & Hif & Ha & Hin & Hip). exists iface.
    split; [|done]. rewrite Ha. apply list_elem_of_omap. eauto.
Qed.

Lemma IsIPAllowed_true (c : Config) (ifaces : list Interface) (ipStr : string) :
  IsIPAllowed c (Some ifaces) ipStr = true <->
  exists ip iface addrs addr ifaceIP,
    ParseIP ipStr = Some ip /\
    iface ∈ ifaces /\ Name iface ∈ AllowedInterfaces c /\
    Addrs iface = Some addrs /\ addr ∈ addrs /\
    addrIP addr = Some ifaceIP /\ IP_Equal ifaceIP ip = true.
Proof.
  unfold IsIPAllowed. destruct (ParseIP ipStr) as [ip|]; [|split; [done|]].
  2: { by intros (? & ? & ? & ? & ? & ? & _). }
  rewrite existsb_exists. split.
  - intros (iface & Hin & Hb). apply andb_true_iff in Hb as [Hal Hb].
    apply bool_decide_eq_true in Hal. apply allowedSet_elem in Hal.
    destruct (Addrs iface) as [addrs|] eqn:Ha; [|done].
    apply existsb_exists in Hb as (addr & Hina & Hb).
    destruct (addrIP addr) as [ifaceIP|] eqn:Hip; [|done].
    apply list_elem_of_In in Hin, Hina.
    exists ip, iface, addrs, addr, ifaceIP. done.
  - intros (ip' & iface & addrs & addr & ifaceIP & Hp & Hin & Hal & Ha & Hina & Hip & Heq).
    injection Hp as <-. exists iface. split; [by apply list_elem_of_In|].
    rewrite bool_decide_eq_true_2 by (by apply allowedSet_elem). cbn [andb].
    rewrite Ha. apply existsb_exists. exists addr.
    split; [by apply list_elem_of_In|]. by rewrite Hip.
Qed.

(** An address that is listed is accepted, when its text parses back to
    it. *)
Lemma listed_allowed (c : Config) (ifaces : list Interface) (ips : list IPInfo)
    (info : IPInfo) :
  Forall (fun ip => exists ip', ParseIP (IP_String ip) = Some ip' /\ IP_Equal ip ip' = true)
    (host_addresses ifaces) ->
  GetAvailableIPs c (Some ifaces) = Some ips ->
  info ∈ ips ->
  IsIPAllowed c (Some ifaces) (IP_ info) = true.
Proof.
  intros Hrt Hips Hin. rewrite GetAvailableIPs_eq in Hips. injection Hips as <-.
  apply list_elem_of_bind in Hin as (iface & Hin & Hif).
  apply list_elem_of_fmap in Hin as (ip & -> & Hip).
  apply listed_elem in Hip as (Hal & Hup & (addrs & addr & Ha & Hina & Haddr) & _).
  rewrite Forall_forall in Hrt. destruct (Hrt ip) as (ip' & Hp & Heq).
  { apply host_addresses_elem. eauto 10. }
  apply IsIPAllowed_true. exists ip', iface, addrs, addr, ip. done.
Qed.

End Config.

(** X15.  [GetAvailableIPs] fails only when the interfaces cannot be
    read.  Otherwise it lists exactly the addresses of the interfaces that
    are allowed and up, leaving out link-local and loopback addresses;
    each entry names its interface, the text of the address, and version 4
    or 6 as [To4] tells. *)
Theorem GetAvailableIPs_lists `{GoLib} (c : config.Config) (ifaces : list config.Interface) :
  config.GetAvailableIPs c None = None /\
  exists ips : list config.IPInfo,
    config.GetAvailableIPs c (Some ifaces) = Some ips /\
    forall info : config.IPInfo,
      info ∈ ips <->
      exists (iface : config.Interface) (addrs : list config.Addr)
             (addr : config.Addr) (ip : IP),
        iface ∈ ifaces /\
        config.Name iface ∈ config.AllowedInterfaces c /\
        config.FlagUp iface = true /\
        config.Addrs iface = Some addrs /\ addr ∈ addrs /\
        config.addrIP addr = Some ip /\
        IP_IsLinkLocalUnicast ip = false /\
        IP_IsLinkLocalMulticast ip = false /\
        IP_IsLoopback ip = false /\
        info = {| config.Interface_ := config.Name iface;
                  config.IP_ := IP_String ip;
                  config.Version := match IP_To4 ip with None => 6 | Some _ => 4 end |}.
Proof.
  split; [done|]. eexists. split; [apply GetAvailableIPs_eq|].
  intros info. rewrite list_elem_of_bind. split.
  - intros (iface & Hin & Hif). apply list_elem_of_fmap in Hin as (ip & -> & Hip).
    apply listed_elem in Hip as (Hal & Hup & (addrs & addr & Ha & Hina & Haddr) & H1 & H2 & H3).
    exists iface, addrs, addr, ip. done.
  - intros (iface & addrs & addr & ip & Hif & Hal & Hup & Ha & Hina & Haddr & H1 & H2 & H3 & ->).
    exists iface. split; [|done]. apply list_elem_of_fmap. exists ip.
    split; [done|]. apply listed_elem. eauto 10.
Qed.

(** X16.  [IsIPAllowed] accepts a string exactly when it parses as an
    address that equals an address of an allowed interface; whether the
    interface is up, and whether the address is loopback or link-local,
    plays no part. *)
Theorem IsIPAllowed_accepts `{GoLib} (c : config.Config) (ifs : config.Interfaces)
    (ipStr : string) :
  config.IsIPAllowed c ifs ipStr = true <->
  exists (ip : IP) (ifaces : list config.Interface) (iface : config.Interface)
         (addrs : list config.Addr) (addr : config.Addr) (ifaceIP : IP),
    ParseIP ipStr = Some ip /\ ifs = Some ifaces /\
    iface ∈ ifaces /\ config.Name iface ∈ config.AllowedInterfaces c /\
    config.Addrs iface = Some addrs /\ addr ∈ addrs /\
    config.addrIP addr = Some ifaceIP /\ IP_Equal ifaceIP ip = true.
Proof.
  destruct ifs as [ifaces|].
  - rewrite IsIPAllowed_true. split.
    + intros (ip & iface & addrs & addr & ifaceIP & ?).
      exists ip, ifaces, iface, addrs, addr, ifaceIP. tauto.
    + intros (ip & ifaces' & iface & addrs & addr & ifaceIP & Hp & Heq & ?).
      injection Heq as <-. exists ip, iface, addrs, addr, ifaceIP. tauto.
  - split.
    + unfold config.IsIPAllowed. by destruct (ParseIP ipStr).
    + by intros (? & ? & ? & ? & ? & ? & _ & ? & _).
Qed.

Section RunConfig.
#[local] Existing Instance GoModel.lib.

Let routedHost : list config.Interface :=
  [ {| config.Name := "lo"; config.FlagUp := true;
       config.Addrs := Some [config.IPNet (127, 0, 0, 1)] |};
    {| config.Name := "eth0"; config.FlagUp := true;
       config.Addrs := Some [config.IPNet (192, 168, 1, 10);
                             config.IPAddr (169, 254, 0, 7)] |};
    {| config.Name := "eth1"; config.FlagUp := false;
       config.Addrs := Some [config.IPNet (10, 0, 0, 1)] |} ].

Let allowed : config.Config := {| config.AllowedInterfaces := ["lo"; "eth0"; "eth1"] |}.

Example GetAvailableIPs_routedHost :
  config.GetAvailableIPs allowed (Some routedHost)
    = Some [ {| config.Interface_ := "eth0"; config.IP_ := "192.168.1.10";
                config.Version := 4 |} ] /\
  config.IsIPAllowed allowed (Some routedHost) "127.0.0.1" = true /\
  config.IsIPAllowed allowed (Some routedHost) "10.0.0.1" = true /\
  config.IsIPAllowed allowed (Some routedHost) "10.0.0.2" = false.
Proof. repeat split; reflexivity. Qed.

End RunConfig.

(** ** The proxy and the store *)

Section ProxyMore.
Context `{GoLib}.
Import http_server.

Lemma Store_wf_heap_insert (h : ratelimit.Heap) (s : ratelimit.Store) (l : nat)
    (o : ratelimit.LimiterObj) :
  Store_wf (h, s) -> Store_wf (<[l := o]> h, s).
Proof.
  intros [Hb Hinj]. split; [|done]. intros key entry Hlook. cbn [fst snd] in *.
  rewrite length_insert. by apply (Hb key).
Qed.





(** [handleProxy] keeps the store and its heap fitting together. *)
Lemma handleProxy_wf (hs : HTTPServer) (env : Env) (r : Request)
    (st : ratelimit.Heap * ratelimit.Store) :
  Store_wf st -> Store_wf (handleProxy hs env r st).2.
Proof.
  intros Hwf. unfold handleProxy.
  destruct (egress hs env r) as [out|egressIP]; [done|].
  destruct (ParseIP egressIP) as [localIP|]; [|done].
  destruct (String.eqb (XRateLimit r) ""); cbn [negb]; [done|].
  destruct (Unmarshal (XRateLimit r)) as [cfg|]; [|done].
  set (resourceKey := ratelimit.ExtractResourceKey _ _ _).
  pose proof (GetOrCreate_wf (now_lookup env) (now_new env)
                egressIP resourceKey cfg st Hwf) as Hwf'.
  destruct (ratelimit.GetOrCreate _ _ egressIP resourceKey cfg st) as [l [h s]].
  cbn [fst snd] in *. destruct (h !! l) as [o|]; [|done].
  destruct (ratelimit.Allow (now_allow env) o) as [ok o'].
  destruct ok; cbn [negb fst snd]; by apply Store_wf_heap_insert.
Qed.

End ProxyMore.


(** X18.  [handleProxy] ends in one of three ways: it hands the request
    to [handleConnect] or [handleHTTPProxy]; or it answers 400, 403 or 500
    and leaves the store untouched; or it answers 429 with the header
    [X-RateLimit-Source: specificproxy].  It keeps the store well formed,
    and a request without [X-Rate-Limit] never changes the store.  (The
    draw of [rand.Intn] is taken below the length of the list, as
    [rand.Intn] promises.) *)
Theorem handleProxy_responses `{GoLib} (hs : http_server.HTTPServer)
    (env : http_server.Env) (r : http_server.Request)
    (st : ratelimit.Heap * ratelimit.Store) :
  Store_wf st ->
  (forall (c : config.Config) (ips : list config.IPInfo),
      http_server.config_ hs = Some c ->
      config.GetAvailableIPs c (http_server.interfaces env) = Some ips ->
      ips <> [] -> (http_server.Intn env < length ips)%nat) ->
  let res := http_server.handleProxy hs env r st in
  Store_wf res.2 /\
  (http_server.XRateLimit r = "" -> res.2 = st) /\
  ((exists localIP : IP, res.1 = http_server.dispatch r localIP) \/
   (exists (body : string) (code : Z),
       res.1 = http_server.Error [] body code /\
       (code = 400 \/ code = 403 \/ code = 500) /\ res.2 = st) \/
   res.1 = http_server.Error [("X-RateLimit-Source", "specificproxy")]
             "rate limit exceeded" 429).
Proof.
  intros Hwf Hdraw res. unfold res, http_server.handleProxy.
  destruct (http_server.egress hs env r) as [out|egressIP] eqn:Heg.
  { cbn [fst snd]. split; [done|]. split; [done|]. right. left.
    unfold http_server.egress in Heg.
    destruct (String.eqb (http_server.XEgressIP r) "").
    - destruct (http_server.config_ hs) as [c|] eqn:Hc;
        [|injection Heg as <-; eexists _, _; split; [done|]; split; [|done]; tauto].
      destruct (config.GetAvailableIPs c (http_server.interfaces env)) as [ips|] eqn:Hips;
        [|injection Heg as <-; eexists _, _; split; [done|]; split; [|done]; tauto].
      destruct (Nat.eqb_spec (length ips) 0) as [Hz|Hnz];
        [injection Heg as <-; eexists _, _; split; [done|]; split; [|done]; tauto|].
      specialize (Hdraw c ips eq_refl Hips).
      destruct (ips !! http_server.Intn env) as [info|] eqn:Hinfo; [done|].
      apply lookup_ge_None in Hinfo.
      assert (ips <> []) by (intros ->; done). specialize (Hdraw ltac:(done)). lia.
    - destruct (http_server.config_ hs) as [c|]; [|done].
      destruct (config.IsIPAllowed c _ _); [done|].
      injection Heg as <-. eexists _, _. split; [done|]. split; [|done]. tauto. }
  destruct (ParseIP egressIP) as [localIP|] eqn:Hip.
  2: { cbn [fst snd]. split; [done|]. split; [done|]. right. left.
       eexists _, _. split; [done|]. split; [|done]. tauto. }
  destruct (String.eqb (http_server.XRateLimit r) "") eqn:Hrl; cbn [negb].
  { cbn [fst snd]. split; [done|]. split; [done|]. left. by exists localIP. }
  apply String.eqb_neq in Hrl.
  destruct (Unmarshal (http_server.XRateLimit r)) as [cfg|] eqn:Hcfg.
  2: { cbn [fst snd]. split; [done|]. split; [done|]. right. left.
       eexists _, _. split; [done|]. split; [|done]. tauto. }
  set (resourceKey := ratelimit.ExtractResourceKey _ _ _).
  pose proof (GetOrCreate_wf (http_server.now_lookup env) (http_server.now_new env)
                egressIP resourceKey cfg st Hwf) as Hwf'.
  pose proof (GetOrCreate_in_heap (http_server.now_lookup env) (http_server.now_new env)
                egressIP resourceKey cfg st Hwf) as [o Ho].
  destruct (ratelimit.GetOrCreate _ _ egressIP resourceKey cfg st) as [l [h s]].
  cbn [fst snd] in *. rewrite Ho.
  destruct (ratelimit.Allow (http_server.now_allow env) o) as [ok o'].
  destruct ok; cbn [negb fst snd].
  - split; [by apply Store_wf_heap_insert|]. split; [done|]. left. by exists localIP.
  - split; [by apply Store_wf_heap_insert|]. split; [done|]. right. right. done.
Qed.

(** X19.  A call of [handleProxy] touches the entry and the limiter of
    the key of its own request only: every entry under another key, and
    the limiter it points to, are left as they were. *)
Theorem handleProxy_isolation `{GoLib} (hs : http_server.HTTPServer)
    (env : http_server.Env) (r : http_server.Request)
    (st : ratelimit.Heap * ratelimit.Store)
    (key' : string) (entry' : ratelimit.limiterEntry) :
  Store_wf st ->
  ratelimit.limiters st.2 !! key' = Some entry' ->
  (forall (egressIP : string) (cfg : ratelimit.Config),
      http_server.egress hs env r = inr egressIP ->
      Unmarshal (http_server.XRateLimit r) = Some cfg ->
      key' <> ratelimit.buildKey egressIP
                (ratelimit.ExtractResourceKey (http_server.Host r)
                   (if String.eqb (http_server.Method r) http_server.MethodConnect
                    then "" else http_server.URLPath r)
                   (ratelimit.Kind (ratelimit.Resource_ cfg))) cfg) ->
  let res := http_server.handleProxy hs env r st in
  ratelimit.limiters res.2.2 !! key' = Some entry' /\
  res.2.1 !! ratelimit.limiter entry' = st.1 !! ratelimit.limiter entry'.
Proof.
  intros Hwf Hlook' Hother res. unfold res, http_server.handleProxy.
  destruct (http_server.egress hs env r) as [out|egressIP] eqn:Heg; [done|].
  destruct (ParseIP egressIP) as [localIP|] eqn:Hip; [|done].
  destruct (String.eqb (http_server.XRateLimit r) "") eqn:Hrl; cbn [negb]; [done|].
  destruct (Unmarshal (http_server.XRateLimit r)) as [cfg|] eqn:Hcfg; [|done].
  specialize (Hother egressIP cfg eq_refl eq_refl).
  set (resourceKey := ratelimit.ExtractResourceKey _ _ _) in *.
  pose proof (GetOrCreate_other_key (http_server.now_lookup env) (http_server.now_new env)
                egressIP resourceKey cfg st key' entry' Hwf Hlook' ltac:(done)) as Hne.
  pose proof (GetOrCreate_in_heap (http_server.now_lookup env) (http_server.now_new env)
                egressIP resourceKey cfg st Hwf) as [o Ho].
  destruct st as [h s]. cbn [fst snd] in *.
  assert (Hb : (ratelimit.limiter entry' < length h)%nat).
  { destruct Hwf as [Hb _]. by apply (Hb key'). }
  destruct (ratelimit.limiters s !! ratelimit.buildKey egressIP resourceKey cfg)
    as [entry|] eqn:Hlook.
  - rewrite (GetOrCreate_hit _ _ _ _ _ _ _ _ Hlook) in *. cbn [fst snd] in *.
    rewrite Ho. destruct (ratelimit.Allow (http_server.now_allow env) o) as [ok o'].
    destruct ok; cbn [negb fst snd ratelimit.limiters];
      (split; [by rewrite lookup_insert_ne|by rewrite list_lookup_insert_ne]).
  - rewrite (GetOrCreate_miss _ _ _ _ _ _ _ Hlook) in *. cbn [fst snd] in *.
    rewrite Ho. destruct (ratelimit.Allow (http_server.now_allow env) o) as [ok o'].
    destruct ok; cbn [negb fst snd ratelimit.limiters];
      (split; [by rewrite lookup_insert_ne|
               rewrite list_lookup_insert_ne by done; by rewrite lookup_app_l]).
Qed.

(** X20.  Every address that [handleListIPs] lists is accepted as
    [X-Egress-IP] by [IsIPAllowed] and by the egress selection of
    [handleProxy] on the same host, provided the text of each address of
    the host parses back to an equal address. *)
Theorem handleListIPs_addresses_are_accepted `{GoLib} (hs : http_server.HTTPServer)
    (ifaces : list config.Interface) (headers : list (string * string))
    (ips : list config.IPInfo) (info : config.IPInfo)
    (env : http_server.Env) (r : http_server.Request) :
  Forall (fun ip => exists ip', ParseIP (IP_String ip) = Some ip' /\ IP_Equal ip ip' = true)
    (host_addresses ifaces) ->
  http_server.handleListIPs hs (Some ifaces) = http_server.ListJSON headers ips ->
  info ∈ ips ->
  http_server.interfaces env = Some ifaces ->
  http_server.XEgressIP r = config.IP_ info ->
  http_server.XEgressIP r <> "" ->
  (exists c : config.Config,
      http_server.config_ hs = Some c /\
      config.IsIPAllowed c (Some ifaces) (config.IP_ info) = true) /\
  http_server.egress hs env r = inr (config.IP_ info).
Proof.
  intros Hrt Hlist Hin Hifs Hhdr Hne. unfold http_server.handleListIPs in Hlist.
  destruct (http_server.config_ hs) as [c|] eqn:Hc; [|done].
  destruct (config.GetAvailableIPs c (Some ifaces)) as [ips'|] eqn:Hips; [|done].
  injection Hlist as <- <-.
  pose proof (listed_allowed c ifaces ips' info Hrt Hips Hin) as Hal.
  split; [by exists c|].
  rewrite egress_present by done. by rewrite Hc, Hifs, Hhdr, Hal.
Qed.

(** X21.  [handleListIPs] answers 500 only when the server has no
    configuration or the interfaces cannot be read; otherwise it answers
    with content type [application/json] and the list of
    [GetAvailableIPs], whose entries are on allowed interfaces and have
    version 4 or 6. *)
Theorem handleListIPs_responses `{GoLib} (hs : http_server.HTTPServer)
    (ifs : config.Interfaces) :
  match http_server.handleListIPs hs ifs with
  | http_server.ListError body code =>
      code = 500 /\ (http_server.config_ hs = None \/ ifs = None)
  | http_server.ListJSON headers ips =>
      headers = [("Content-Type", "application/json")] /\
      exists c : config.Config,
        http_server.config_ hs = Some c /\ config.GetAvailableIPs c ifs = Some ips /\
        Forall (fun info => config.Interface_ info ∈ config.AllowedInterfaces c /\
                            (config.Version info = 4 \/ config.Version info = 6)) ips
  end.
Proof.
  unfold http_server.handleListIPs.
  destruct (http_server.config_ hs) as [c|] eqn:Hc; [|by split; [|left]].
  destruct ifs as [ifaces|]; [|by split; [|right]].
  rewrite GetAvailableIPs_eq. cbv beta iota.
  split; [done|]. exists c. split; [done|]. split; [apply GetAvailableIPs_eq|].
  apply Forall_forall. intros info Hin.
  apply list_elem_of_bind in Hin as (iface & Hin & Hif).
  apply list_elem_of_fmap in Hin as (ip & -> & Hip).
  apply listed_elem in Hip as (Hal & _).
  cbn. split; [done|]. destruct (IP_To4 ip); tauto.
Qed.

Section RunProxyMore.
#[local] Existing Instance GoModel.lib.
Import http_server.

Let routedHost : list config.Interface :=
  [ {| config.Name := "lo"; config.FlagUp := true;
       config.Addrs := Some [config.IPNet (127, 0, 0, 1)] |};
    {| config.Name := "eth0"; config.FlagUp := true;
       config.Addrs := Some [config.IPNet (192, 168, 1, 10);
                             config.IPNet (192, 168, 1, 11)] |} ].

Let unconfigured : HTTPServer := {| config_ := None |}.

Let configured (names : list string) : HTTPServer :=
  {| config_ := Some {| config.AllowedInterfaces := names |} |}.

Let get (host egressIP rateLimit : string) : Request :=
  {| Method := "GET"; Host := host; URLPath := "/";
     XEgressIP := egressIP; XRateLimit := rateLimit |}.

Let at_ (now : Go.Time) : Env :=
  {| interfaces := Some routedHost; Intn := 0;
     now_lookup := now; now_new := now; now_allow := now |}.


(** Three requests with a token bucket of rate 1 per minute and the
    default time-to-live of five minutes, the store swept in between; and
    the same with a sweep that comes too late: the entry is gone, and the
    request after it starts a new limiter. *)
Example handleProxy_three_requests :
  (handleProxy_run unconfigured
     (Handle (at_ 0) :: [Handle (at_ 10); Sweep 30000000000;
                          Handle (at_ 61000000000)])
     (get "example.com" "127.0.0.1" GoModel.testDirectiveText) ([], ratelimit.NewStore)).1
    = [ handleHTTPProxy (127, 0, 0, 1);
        Error [("X-RateLimit-Source", "specificproxy")] "rate limit exceeded"
          StatusTooManyRequests;
        handleHTTPProxy (127, 0, 0, 1) ] /\
  (handleProxy_run unconfigured
     [Handle (at_ 0); Sweep 330000000000; Handle (at_ 330000000001)]
     (get "example.com" "127.0.0.1" GoModel.testDirectiveText) ([], ratelimit.NewStore)).1
    = [ handleHTTPProxy (127, 0, 0, 1); handleHTTPProxy (127, 0, 0, 1) ] /\
  length (handleProxy_run unconfigured
            [Handle (at_ 0); Sweep 330000000000; Handle (at_ 330000000001)]
            (get "example.com" "127.0.0.1" GoModel.testDirectiveText)
            ([], ratelimit.NewStore)).2.1 = 2%nat.
Proof. repeat split; vm_compute; reflexivity. Qed.

Lemma handleProxy_responses_witness :
  let res := handleProxy (configured ["eth0"]) (at_ 0)
               (get "example.com" "" GoModel.testDirectiveText) ([], ratelimit.NewStore) in
  Store_wf res.2 /\
  (XRateLimit (get "example.com" "" GoModel.testDirectiveText) = "" ->
   res.2 = ([], ratelimit.NewStore)) /\
  ((exists localIP : IP,
       res.1 = dispatch (get "example.com" "" GoModel.testDirectiveText) localIP) \/
   (exists (body : string) (code : Z),
       res.1 = Error [] body code /\
       (code = 400 \/ code = 403 \/ code = 500) /\ res.2 = ([], ratelimit.NewStore)) \/
   res.1 = Error [("X-RateLimit-Source", "specificproxy")]
             "rate limit exceeded" 429).
Proof.
  apply (handleProxy_responses (configured ["eth0"]) (at_ 0)
           (get "example.com" "" GoModel.testDirectiveText) ([], ratelimit.NewStore)).
  - apply NewStore_wf.
  - intros c ips Hc Hips _. injection Hc as <-. vm_compute in Hips.
    injection Hips as <-. cbn. lia.
Defined.

Lemma handleProxy_isolation_witness :
  let st := (handleProxy unconfigured (at_ 0)
               (get "example.com" "127.0.0.1" GoModel.testDirectiveText)
               ([], ratelimit.NewStore)).2 in
  let key' := ratelimit.buildKey "127.0.0.1" "example.com" GoModel.testDirective in
  let entry' := {| ratelimit.limiter := 0%nat; ratelimit.lastUsed := 0;
                   ratelimit.ttl := ratelimit.DefaultTTL |} in
  let res := handleProxy unconfigured (at_ 5)
               (get "other.com" "127.0.0.1" GoModel.testDirectiveText) st in
  ratelimit.limiters res.2.2 !! key' = Some entry' /\
  res.2.1 !! ratelimit.limiter entry' = st.1 !! ratelimit.limiter entry'.
Proof.
  intros st key' entry'.
  apply (handleProxy_isolation unconfigured (at_ 5)
           (get "other.com" "127.0.0.1" GoModel.testDirectiveText) st key' entry').
  - apply handleProxy_wf, NewStore_wf.
  - vm_compute. reflexivity.
  - intros egressIP cfg Heg Hcfg. injection Heg as <-. injection Hcfg as <-.
    vm_compute. discriminate.
Defined.

Lemma handleListIPs_addresses_are_accepted_witness :
  (exists c : config.Config,
      config_ (configured ["eth0"]) = Some c /\
      config.IsIPAllowed c (Some routedHost) "192.168.1.11" = true) /\
  egress (configured ["eth0"]) (at_ 0) (get "example.com" "192.168.1.11" "")
    = inr "192.168.1.11".
Proof.
  apply (handleListIPs_addresses_are_accepted (configured ["eth0"]) routedHost
           [("Content-Type", "application/json")]
           [ {| config.Interface_ := "eth0"; config.IP_ := "192.168.1.10";
                config.Version := 4 |};
             {| config.Interface_ := "eth0"; config.IP_ := "192.168.1.11";
                config.Version := 4 |} ]
           {| config.Interface_ := "eth0"; config.IP_ := "192.168.1.11";
              config.Version := 4 |}
           (at_ 0) (get "example.com" "192.168.1.11" "")).
  - repeat constructor; eexists; (split; [vm_compute; reflexivity|vm_compute; reflexivity]).
  - vm_compute. reflexivity.
  - apply list_elem_of_further, list_elem_of_here.
  - reflexivity.
  - reflexivity.
  - discriminate.
Defined.

End RunProxyMore.

(** ** Forwarding a request *)

Section Forward.
Context `{GoLib}.
Import http_server.

(** The inner loop of the copy: the values of one name, appended. *)
Lemma copyHeader_values (key : string) (values : list string)
    (w : gmap string (list string)) :
  CanonicalMIMEHeaderKey key = key ->
  foldl (fun w value => Header_Add w key value) w values
    = match values with
      | [] => w
      | _ :: _ => <[key := default [] (w !! key) ++ values]> w
      end.
Proof.
  intros Hk. revert w. induction values as [|v values IH]; intros w; [done|].
  cbn [foldl]. rewrite IH. unfold Header_Add. rewrite Hk.
  destruct values as [|v' values]; [done|].
  rewrite lookup_insert_eq. cbn [default]. rewrite insert_insert_eq.
  unfold id. by rewrite <- app_assoc.
Qed.

(** The copy, name by name: the values of the response are appended to
    those the writer has. *)
Lemma copyHeader_lookup (entries : list (string * list string))
    (w : gmap string (list string)) (k : string) :
  NoDup entries.*1 ->
  Forall (fun kv => CanonicalMIMEHeaderKey kv.1 = kv.1) entries ->
  copyHeader w entries !! k
    = match (list_to_map entries : gmap string (list string)) !! k with
      | Some (v :: vs) => Some (default [] (w !! k) ++ v :: vs)
      | _ => w !! k
      end.
Proof.
  revert w. induction entries as [|[key values] entries IH]; intros w Hnd Hcan; [done|].
  apply NoDup_cons in Hnd as [Hfresh Hnd].
  inversion Hcan as [|? ? Hkey Hrest]; subst. cbn [fst] in Hkey.
  unfold copyHeader in *. cbn [foldl]. rewrite copyHeader_values by done.
  rewrite IH by done. cbn [list_to_map foldr fst snd].
  destruct (decide (k = key)) as [->|Hne].
  - rewrite lookup_insert_eq.
    rewrite (not_elem_of_list_to_map_1 _ _ Hfresh).
    destruct values as [|v vs]; [done|]. by rewrite lookup_insert_eq.
  - rewrite lookup_insert_ne by done.
    destruct values as [|v vs]; [done|]. by rewrite lookup_insert_ne.
Qed.

Lemma copyHeader_fresh (m : gmap string (list string))
    (entries : list (string * list string)) (k : string) :
  entries ≡ₚ map_to_list m ->
  (forall key values, m !! key = Some values -> CanonicalMIMEHeaderKey key = key) ->
  copyHeader ∅ entries !! k
    = match m !! k with
      | Some (v :: vs) => Some (v :: vs)
      | _ => None
      end.
Proof.
  intros Hperm Hcan.
  assert (Hnd : NoDup entries.*1).
  { rewrite Hperm. apply NoDup_fst_map_to_list. }
  rewrite copyHeader_lookup; [|done|].
  - rewrite (list_to_map_proper _ _ Hnd Hperm), list_to_map_to_list.
    rewrite lookup_empty. done.
  - apply Forall_forall. intros [key values] Hin. cbn.
    rewrite Hperm in Hin. apply elem_of_map_to_list in Hin. by apply (Hcan key values).
Qed.

Lemma Header_Get_agree (h1 h2 : gmap string (list string)) (key : string) :
  (match h1 !! CanonicalMIMEHeaderKey key with Some (v :: _) => Some v | _ => None end
   = match h2 !! CanonicalMIMEHeaderKey key with Some (v :: _) => Some v | _ => None end) ->
  Header_Get h1 key = Header_Get h2 key.
Proof.
  unfold Header_Get.
  destruct (h1 !! _) as [[|v1 ?]|], (h2 !! _) as [[|v2 ?]|]; congruence.
Qed.

Lemma removeHopByHopHeaders_lookup (h : gmap string (list string)) (k : string) :
  removeHopByHopHeaders h !! k
    = if bool_decide (k ∈ CanonicalMIMEHeaderKey <$> (connectionTokens h ++ hopByHopHeaders))
      then None else h !! k.
Proof.
  unfold removeHopByHopHeaders. rewrite !foldl_Header_Del_lookup, fmap_app.
  case_bool_decide as H1; case_bool_decide as H2; try case_bool_decide as H3;
    try done; rewrite elem_of_app in *; tauto.
Qed.

End Forward.

(** X22.  The request [handleHTTPProxy] sends on has an empty
    [RequestURI] and none of the headers [X-Egress-IP], [X-Rate-Limit],
    [Proxy-Connection] and [Proxy-Authorization]; every other header
    (hop-by-hop headers of the request included), the method, the URL, the
    host and the body are passed on unchanged. *)
Theorem outReq_strips_proxy_headers `{GoLib} (r : http_server.ClientRequest) :
  let out := http_server.outReq r in
  http_server.RequestURI out = "" /\
  http_server.ReqMethod out = http_server.ReqMethod r /\
  http_server.ReqURL out = http_server.ReqURL r /\
  http_server.ReqHost out = http_server.ReqHost r /\
  http_server.ReqBody out = http_server.ReqBody r /\
  (forall name : string,
      name ∈ ["X-Egress-IP"; "X-Rate-Limit"; "Proxy-Connection"; "Proxy-Authorization"] ->
      http_server.ReqHeader out !! CanonicalMIMEHeaderKey name = None /\
      http_server.Header_Get (http_server.ReqHeader out) name = "") /\
  (forall k : string,
      k ∉ CanonicalMIMEHeaderKey <$>
            ["X-Egress-IP"; "X-Rate-Limit"; "Proxy-Connection"; "Proxy-Authorization"] ->
      http_server.ReqHeader out !! k = http_server.ReqHeader r !! k).
Proof.
  intros out. repeat (split; [done|]).
  assert (Hlook : forall k,
    http_server.ReqHeader out !! k
      = if bool_decide (k ∈ CanonicalMIMEHeaderKey <$>
          ["X-Egress-IP"; "X-Rate-Limit"; "Proxy-Connection"; "Proxy-Authorization"])
        then None else http_server.ReqHeader r !! k).
  { intros k. apply (foldl_Header_Del_lookup
      ["X-Egress-IP"; "X-Rate-Limit"; "Proxy-Connection"; "Proxy-Authorization"]). }
  split.
  - intros name Hin.
    assert (Hnone : http_server.ReqHeader out !! CanonicalMIMEHeaderKey name = None).
    { rewrite Hlook, bool_decide_eq_true_2; [done|]. by apply list_elem_of_fmap_2. }
    split; [done|]. unfold http_server.Header_Get. by rewrite Hnone.
  - intros k Hk. by rewrite Hlook, bool_decide_eq_false_2.
Qed.

(** X23.  When the round trip succeeds, [handleHTTPProxy] writes the
    status and the body of the upstream response, and of its headers
    (under canonical names, copied into the empty header of the writer)
    all values of every name that is neither one of the eight hop-by-hop
    names nor listed in the first value of [Connection], whatever the
    order in which the [range] visits the header; names without values
    are dropped.  A name listed in a further value of [Connection] is
    written to the client. *)
Theorem handleHTTPProxy_response `{GoLib}
    (RoundTrip : IP -> http_server.ClientRequest -> http_server.Response + string)
    (localIP : IP) (r : http_server.ClientRequest)
    (order : gmap string (list string) -> list (string * list string))
    (resp : http_server.Response) :
  RoundTrip localIP (http_server.outReq r) = inl resp ->
  order (http_server.RespHeader resp) ≡ₚ map_to_list (http_server.RespHeader resp) ->
  (forall (key : string) (values : list string),
      http_server.RespHeader resp !! key = Some values ->
      CanonicalMIMEHeaderKey key = key) ->
  exists header : gmap string (list string),
    http_server.handleHTTPProxy_run RoundTrip localIP r ∅ order
      = http_server.Written header (http_server.StatusCode resp)
          (http_server.RespBody resp) /\
    forall k : string,
      header !! k =
        if bool_decide (k ∈ CanonicalMIMEHeaderKey <$>
             (match http_server.RespHeader resp !! CanonicalMIMEHeaderKey "Connection" with
              | Some (c :: _) =>
                  if String.eqb c "" then [] else TrimSpace <$> Split c ","
              | _ => []
              end
              ++ ["Connection"; "Keep-Alive"; "Proxy-Authenticate"; "Proxy-Authorization";
                  "Te"; "Trailer"; "Transfer-Encoding"; "Upgrade"]))
        then None
        else match http_server.RespHeader resp !! k with
             | Some (v :: vs) => Some (v :: vs)
             | _ => None
             end.
Proof.
  intros Hrt Hperm Hcan. unfold http_server.handleHTTPProxy_run. rewrite Hrt.
  eexists. split; [done|]. intros k.
  rewrite removeHopByHopHeaders_lookup.
  assert (Hconn : http_server.connectionTokens
                    (http_server.copyHeader ∅ (order (http_server.RespHeader resp)))
                  = http_server.connectionTokens (http_server.RespHeader resp)).
  { unfold http_server.connectionTokens.
    rewrite (Header_Get_agree _ (http_server.RespHeader resp) "Connection"); [done|].
    rewrite (copyHeader_fresh (http_server.RespHeader resp)) by done.
    by destruct (http_server.RespHeader resp !! _) as [[|? ?]|]. }
  rewrite Hconn, connectionTokens_first.
  change http_server.hopByHopHeaders
    with ["Connection"; "Keep-Alive"; "Proxy-Authenticate"; "Proxy-Authorization";
          "Te"; "Trailer"; "Transfer-Encoding"; "Upgrade"].
  case_bool_decide; [done|].
  by apply copyHeader_fresh.
Qed.

Section RunForward.
#[local] Existing Instance GoModel.lib.
Import http_server.

Let upstream (ip : GoModel.IPv4) (r : ClientRequest) : Response + string :=
  if String.eqb (ReqHost r) "example.com" then
    inl {| StatusCode := 200;
           RespHeader :=
             <["Connection" := ["keep-alive, X-Custom"]]>
               (<["Keep-Alive" := ["timeout=5"]]>
                  (<["X-Custom" := ["value"]]>
                     (<["Set-Cookie" := ["a=1"; "b=2"]]>
                        (<["Content-Type" := ["application/json"]]> ∅))));
           RespBody := "{}" |}
  else inr "dial tcp: lookup failed".

Let request : ClientRequest :=
  {| ReqMethod := "GET"; ReqURL := "http://example.com/"; ReqHost := "example.com";
     RequestURI := "http://example.com/";
     ReqHeader := <["X-Egress-Ip" := ["127.0.0.1"]]> (<["Accept" := ["*/*"]]> ∅);
     ReqBody := "" |}.

Example handleHTTPProxy_run_example :
  match handleHTTPProxy_run upstream (127, 0, 0, 1) request ∅ map_to_list with
  | Written header code body =>
      code = 200 /\ body = "{}" /\
      header !! "Set-Cookie" = Some ["a=1"; "b=2"] /\
      header !! "Content-Type" = Some ["application/json"] /\
      header !! "Connection" = None /\ header !! "Keep-Alive" = None /\
      header !! "X-Custom" = None
  | ProxyError _ _ => False
  end /\
  ReqHeader request !! "X-Egress-Ip" = Some ["127.0.0.1"] /\
  ReqHeader (outReq request) !! "X-Egress-Ip" = None /\
  ReqHeader (outReq request) !! "Accept" = Some ["*/*"].
Proof. repeat split; vm_compute; reflexivity. Qed.

Lemma handleHTTPProxy_response_witness :
  exists header : gmap string (list string),
    handleHTTPProxy_run upstream (127, 0, 0, 1) request ∅ map_to_list
      = Written header 200 "{}" /\
    header !! "Set-Cookie" = Some ["a=1"; "b=2"] /\
    header !! "X-Custom" = None.
Proof.
  destruct (@handleHTTPProxy_response GoModel.lib upstream (127, 0, 0, 1) request map_to_list
              {| StatusCode := 200;
                 RespHeader :=
                   <["Connection" := ["keep-alive, X-Custom"]]>
                     (<["Keep-Alive" := ["timeout=5"]]>
                        (<["X-Custom" := ["value"]]>
                           (<["Set-Cookie" := ["a=1"; "b=2"]]>
                              (<["Content-Type" := ["application/json"]]> ∅))));
                 RespBody := "{}" |}) as (header & Hrun & Hlook).
  - vm_compute. reflexivity.
  - reflexivity.
  - intros key values Hin. cbn [RespHeader] in Hin.
    repeat (apply lookup_insert_Some in Hin as [[<- _]|[_ Hin]]; [vm_compute; reflexivity|]).
    by rewrite lookup_empty in Hin.
  - exists header. split; [exact Hrun|]. split.
    + rewrite Hlook. vm_compute. reflexivity.
    + rewrite Hlook. vm_compute. reflexivity.
Defined.

End RunForward.

